(** * optvis: activation-maximization feature visualization

    A shallow embedding of [src/optvis.py] and the properties its
    specification states about it.

    Conventions of the embedding.
    - Tensor entries are real numbers ([R]): the float32/float64 arithmetic
      of the script is idealised as exact arithmetic, and casts
      ([.float()], [.astype(np.float32)]) and device moves ([.cuda()],
      [.cpu()], [.detach()]) are the identity on values.
    - A tensor of fixed rank is a nested list, outermost dimension first;
      tensors owned by the framework (parameters, gradients, layer outputs)
      are rose trees ([tensor]).
    - Python integers are [Z], lengths and shape entries are [nat].
    - Code that calls into numpy, torch, fastai or matplotlib runs in the
      monad [M]: it threads a [World] and returns a [result], which is
      either a value or the exception that was raised.
    - Tensors that are mutated in place (the image buffer, the parameters
      of the model) live in a store, [values], keyed by identity.  As in
      torch, a forward pass reads the store and updates only the buffers
      of the model and the random state, [backward] writes gradients only,
      and [opt.step()] writes the data of the optimizer's own parameters.
    - [trace] records every call into a library with its outcome; the
      script cannot read it.
    - Real numbers end where a float becomes [inf] or NaN.  For a
      negative [decay_power] the script gets there from finite values:
      [0 ** decay_power] is [inf] in [get_fft_scale], which makes the scale
      0 at the zero frequency, and [rgb_to_fft] then divides by that scale.
      The first is followed with [np_power]; at the second the script goes
      on with a buffer that holds [inf] and NaN, which tensors of real
      numbers cannot hold, and the embedding ends the run with the outcome
      [Raise NonFinite].  Overflow, and the NaN that torch gives for the
      mean of no entries or the standard deviation of one, are not
      followed. *)

From Stdlib Require Import Reals Lra Lia ZArith List Bool String.
From Stdlib Require Import DecimalString.
From Stdlib Require Import FunctionalExtensionality.
From stdpp Require Import gmap.
Import ListNotations.

Local Open Scope R_scope.

(** ** Python values and exceptions *)

(** What ends a run before its last statement: an exception of Python or
    of a library, or [NonFinite].  [NonFinite] is not an exception: it
    marks a run in which a tensor was divided by a zero entry.  The script
    raises nothing there and goes on with [inf] and NaN entries, where the
    embedding does not follow it. *)
Inductive exn : Type :=
| ZeroDivisionError
| IndexError
| TypeError
| ValueError
| LibraryError (code : nat)
| NonFinite.

Inductive result (A : Type) : Type :=
| Ok (a : A)
| Raise (e : exn).
Arguments Ok {A} a.
Arguments Raise {A} e.

Definition exn_of {A} (r : result A) : option exn :=
  match r with Ok _ => None | Raise e => Some e end.

(** [int(x)] on a float: truncation toward zero. *)
Definition py_int (x : R) : Z :=
  if Rle_dec 0 x then Int_part x else (- Int_part (- x))%Z.

(** [range(lo, hi)]. *)
Definition py_range (lo hi : Z) : list Z :=
  map (fun i => (lo + Z.of_nat i)%Z) (seq 0 (Z.to_nat (hi - lo))).

(** [l[k]] for a Python integer [k]: negative indices count from the end. *)
Definition py_index {A} (l : list A) (k : Z) : result A :=
  let n := Z.of_nat (length l) in
  let k' := if (k <? 0)%Z then (k + n)%Z else k in
  if ((0 <=? k') && (k' <? n))%Z
  then match nth_error l (Z.to_nat k') with
       | Some a => Ok a
       | None => Raise IndexError
       end
  else Raise IndexError.

(** [x ** y] on floats where it is a real number: for a base [0 < x], and
    [0 ** y] for [0 <= y], which is [1] for [y = 0] and [0] otherwise.
    ([0 ** y] for [y < 0] is [inf]: see [np_power], which does not come
    here in that case.) *)
Definition rpow (x y : R) : R :=
  if Rlt_dec 0 x then Rpower x y
  else if Req_dec_T y 0 then 1 else 0.

(** A float that is a real number or [inf]. *)
Inductive ext : Type :=
| Fin (x : R)
| PInf.

(** [x ** y] in numpy for a base [0 <= x]: [0 ** y] is [inf] for [y < 0]. *)
Definition np_power (x y : R) : ext :=
  if Rlt_dec 0 x then Fin (rpow x y)
  else if Rlt_dec y 0 then PInf
  else Fin (rpow x y).

(** [np.maximum(f, c)] for a real [c]. *)
Definition np_maximum (f : ext) (c : R) : ext :=
  match f with
  | Fin x => Fin (Rmax x c)
  | PInf => PInf
  end.

(** [1.0 / f] for an [f] that is not zero: [1.0 / inf] is [0.0]. *)
Definition reciprocal (f : ext) : R :=
  match f with
  | Fin x => 1 / x
  | PInf => 0
  end.

(** ** Tensors of fixed rank *)

Abbreviation T1 := (list R).
Abbreviation T2 := (list (list R)).
Abbreviation T3 := (list (list (list R))).
Abbreviation T4 := (list (list (list (list R)))).
Abbreviation T5 := (list (list (list (list (list R))))).

Definition tab {A} (n : nat) (f : nat -> A) : list A := map f (seq 0 n).

Definition shape1 (a : nat) (t : T1) : Prop := length t = a.
Definition shape2 (a b : nat) (t : T2) : Prop :=
  length t = a /\ Forall (shape1 b) t.
Definition shape3 (a b c : nat) (t : T3) : Prop :=
  length t = a /\ Forall (shape2 b c) t.
Definition shape4 (a b c d : nat) (t : T4) : Prop :=
  length t = a /\ Forall (shape3 b c d) t.
Definition shape5 (a b c d e : nat) (t : T5) : Prop :=
  length t = a /\ Forall (shape4 b c d e) t.

Definition map2 {A B} (f : A -> B) : list (list A) -> list (list B) :=
  map (map f).
Definition map3 {A B} (f : A -> B)
  : list (list (list A)) -> list (list (list B)) :=
  map (map2 f).
Definition map4 {A B} (f : A -> B) := map (@map3 A B f).
Definition map5 {A B} (f : A -> B) := map (@map4 A B f).

(** Elementwise combination of two lists of the same length. *)
Fixpoint zipw {A B C} (f : A -> B -> C) (l : list A) (l' : list B) : list C :=
  match l, l' with
  | a :: l, b :: l' => f a b :: zipw f l l'
  | _, _ => []
  end.

(** One dimension of torch's broadcasting: a dimension of extent 1 is
    repeated along the other operand's extent.  (Extents that differ and
    are both not 1 make torch raise; the script never produces them.) *)
Definition bcast {A B C} (f : A -> B -> C) (l : list A) (l' : list B)
  : list C :=
  match l, l' with
  | [a], _ => map (f a) l'
  | _, [b] => map (fun a => f a b) l
  | _, _ => zipw f l l'
  end.

Definition bcast5 (f : R -> R -> R) : T5 -> T5 -> T5 :=
  bcast (bcast (bcast (bcast (bcast f)))).

(** The entries of a 5-D tensor, in row-major order. *)
Definition flat5 (t : T5) : list R := concat (concat (concat (concat t))).

(** [t / scale] on tensors.  Where an entry of [t] meets a zero of
    [scale], torch's quotient is [inf] or NaN. *)
Definition true_divide (t scale : T5) : result T5 :=
  if existsb (fun s => if Req_dec_T s 0 then true else false)
             (flat5 (bcast5 (fun _ s => s) t scale))
  then Raise NonFinite
  else Ok (bcast5 Rdiv t scale).

Definition rsum (l : list R) : R := fold_right Rplus 0 l.
Definition dot (u v : T1) : R := rsum (zipw Rmult u v).

(** [m.T] for a matrix. *)
Definition transpose2 (m : T2) : T2 :=
  tab (length (hd [] m)) (fun j => map (fun row => nth j row 0) m).

(** [t.permute(1,2,0)] on a (C,H,W) tensor and [t.permute(2,0,1)] on a
    (H,W,C) tensor. *)
Definition permute_120 (t : T3) : T3 :=
  let h := length (hd [] t) in
  let w := length (hd [] (hd [] t)) in
  tab h (fun i => tab w (fun j => map (fun ch => nth j (nth i ch []) 0) t)).

Definition permute_201 (t : T3) : T3 :=
  let c := length (hd [] (hd [] t)) in
  tab c (fun k => map2 (fun px => nth k px 0) t).

Definition permute_0231 (t : T4) : T4 := map permute_120 t.
Definition permute_0312 (t : T4) : T4 := map permute_201 t.

(** [torch.matmul(t, m)] for a 4-D [t] and a matrix [m]: the last
    dimension of [t] is multiplied by [m]. *)
Definition matmul (t : T4) (m : T2) : T4 :=
  map3 (fun px => map (dot px) (transpose2 m)) t.

(** ** Colour decorrelation *)

Definition color_correlation_svd_sqrt : T2 :=
  [ [0.26; 0.09; 0.02];
    [0.27; 0.00; -0.05];
    [0.27; -0.09; 0.03] ].

(** [np.linalg.norm(m, axis=0)]: the Euclidean norm of every column. *)
Definition norm_axis0 (m : T2) : T1 :=
  map (fun col => sqrt (rsum (map (fun x => x * x) col))) (transpose2 m).

(** [np.max] of a non-empty array. *)
Definition np_max (l : T1) : R :=
  match l with
  | [] => 0
  | x :: l => fold_left Rmax l x
  end.

Definition color_correlation_normalized : T2 :=
  let max_norm_svd_sqrt := np_max (norm_axis0 color_correlation_svd_sqrt) in
  map2 (fun x => x / max_norm_svd_sqrt) color_correlation_svd_sqrt.

Definition lucid_colorspace_to_rgb (t : T4) : T4 :=
  let t_flat := permute_0231 t in
  let t_flat := matmul t_flat (transpose2 color_correlation_normalized) in
  permute_0312 t_flat.

(** [rgb_to_lucid_colorspace] needs [torch.inverse]; it is defined below
    with the code that calls into the framework. *)

(** ** ImageNet statistics *)

Definition imagenet_mean_std : T1 * T1 :=
  ([0.485; 0.456; 0.406], [0.229; 0.224; 0.225]).

Definition bcast4 (f : R -> R -> R) : T4 -> T4 -> T4 :=
  bcast (bcast (bcast (bcast f))).

(** [v[...,None,None]] for a vector [v], seen as a 4-D operand
    (1, len v, 1, 1) of a broadcast. *)
Definition per_channel (v : T1) : T4 := [map (fun x => [[x]]) v].

Definition denormalize (x : T4) : T4 :=
  let (mean, std) := imagenet_mean_std in
  bcast4 Rplus (bcast4 Rmult x (per_channel std)) (per_channel mean).

Definition normalize (x : T4) : T4 :=
  let (mean, std) := imagenet_mean_std in
  bcast4 Rdiv (bcast4 Rminus x (per_channel mean)) (per_channel std).

(** [torch.clamp(x, max=hi, min=lo)]. *)
Definition clamp (lo hi : R) (x : R) : R := Rmin (Rmax x lo) hi.

(** [torch.sigmoid]. *)
Definition sigmoid (x : R) : R := 1 / (1 + exp (- x)).

(** ** The identity sampling grid *)

(** [torch.linspace(-1, 1, n)[k]], or the one point [-1] when [n <= 1]. *)
Definition linear_points (n k : nat) : R :=
  if (1 <? n)%nat then -1 + INR k * (2 / (INR n - 1)) else -1.

(** The size and grid handed to [vision.FlowField].  [size] is a shape;
    [N, C, H, W = (1,) + size] raises unless it has three entries. *)
Definition gpu_affine_grid (size : list nat) : result ((nat * nat) * T4) :=
  match (1%nat :: size) with
  | [N; C; H; W] =>
      Ok ((H, W),
          tab N (fun _ =>
            tab H (fun i =>
              tab W (fun j => [linear_points W j; linear_points H i]))))
  | _ => Raise ValueError
  end.

(** ** Sample frequencies *)

(** The array [np.fft.fftfreq(n, d)] returns for [0 < n]: the
    non-negative frequencies, then the negative ones. *)
Definition np_fftfreq (n : nat) (d : R) : T1 :=
  let val := 1 / (INR n * d) in
  let N := ((Z.of_nat n - 1) / 2 + 1)%Z in
  map (fun k => IZR k * val)
      (py_range 0 N ++ py_range (- (Z.of_nat n / 2)) 0).

(** ** The tables the augmentations draw from *)

Definition scale_factors (scale : R) : T1 :=
  let percent := scale * 100 in
  map (fun i => (100 - percent + percent / 5 * IZR i) / 100) (py_range 0 11).

Definition rotate_factors (degrees : Z) : list Z :=
  py_range (- degrees) (degrees + 1) ++ repeat 0%Z (Z.to_nat (degrees / 2)).

(** ** Tensors owned by the framework *)

#[warnings="-register-all"]
Inductive tensor : Type :=
| Sc (x : R)
| Nd (ts : list tensor).

Definition items (t : tensor) : list tensor :=
  match t with Sc _ => [] | Nd ts => ts end.
Definition item (t : tensor) : R :=
  match t with Sc x => x | Nd _ => 0 end.

Definition of_T1 (t : T1) : tensor := Nd (map Sc t).
Definition of_T2 (t : T2) : tensor := Nd (map of_T1 t).
Definition of_T3 (t : T3) : tensor := Nd (map of_T2 t).
Definition of_T4 (t : T4) : tensor := Nd (map of_T3 t).
Definition of_T5 (t : T5) : tensor := Nd (map of_T4 t).

Definition to_T1 (t : tensor) : T1 := map item (items t).
Definition to_T2 (t : tensor) : T2 := map to_T1 (items t).
Definition to_T3 (t : tensor) : T3 := map to_T2 (items t).
Definition to_T4 (t : tensor) : T4 := map to_T3 (items t).
Definition to_T5 (t : tensor) : T5 := map to_T4 (items t).

(** The entries of a tensor, in row-major order. *)
Fixpoint leaves (t : tensor) : list R :=
  match t with
  | Sc x => [x]
  | Nd ts => concat (map leaves ts)
  end.

Fixpoint tmap (f : R -> R) (t : tensor) : tensor :=
  match t with
  | Sc x => Sc (f x)
  | Nd ts => Nd (map (tmap f) ts)
  end.

(** [t.shape]. *)
Fixpoint tshape (t : tensor) : list nat :=
  match t with
  | Sc _ => []
  | Nd ts => length ts :: match ts with
                          | [] => []
                          | t' :: _ => tshape t'
                          end
  end.

(** [t.squeeze()]: every dimension of extent 1 is removed. *)
Fixpoint squeeze (t : tensor) : tensor :=
  match t with
  | Sc x => Sc x
  | Nd [t'] => squeeze t'
  | Nd ts => Nd (map squeeze ts)
  end.

(** [t.mean()]. *)
Definition mean (t : tensor) : R :=
  rsum (leaves t) / INR (length (leaves t)).

(** [t[k]]: a 0-dimensional tensor cannot be indexed. *)
Definition tindex (t : tensor) (k : Z) : result tensor :=
  match t with
  | Sc _ => Raise IndexError
  | Nd ts => py_index ts k
  end.

(** ** The numbers of [tensor_stats] *)

Definition np_min (l : T1) : R :=
  match l with
  | [] => 0
  | x :: l => fold_left Rmin l x
  end.

(** [t.std()]: the unbiased sample standard deviation. *)
Definition std (l : list R) : R :=
  let m := rsum l / INR (length l) in
  sqrt (rsum (map (fun x => (x - m) * (x - m)) l) / (INR (length l) - 1)).

(** ["%i" % i] for an integer. *)
Definition format_i (i : Z) : string := NilZero.string_of_int (Z.to_int i).

(** ** The wrapped libraries *)

(** An [nn.Module] and a matplotlib axes object are known by their
    identity. *)
Definition Module := positive.
Definition Axes := positive.

(** The title of a plot: a string or [None]. *)
Definition label : Type := option string.

(** The calls into numpy, torch, fastai, IPython and matplotlib that the
    script makes, with the arguments that identify them.  [c_python]
    stands for an exception raised by the interpreter itself (indexing,
    division, unpacking, a repeated keyword).  Arithmetic on tensors is
    not logged, except [c_torch_div] for a division by a zero entry. *)
Inductive call : Type :=
| c_np_random_normal (size : list Z) (scale : R)
| c_np_random_rand
| c_np_fft_fftfreq (n : nat)
| c_torch_rfft
| c_torch_irfft (h w : nat)
| c_torch_inverse
| c_torch_div
| c_vision_Image
| c_image_data
| c_vision_pad (padding : Z)
| c_vision_crop_pad (size : Z) (row_pct col_pct : R)
| c_vision_zoom (scale : R)
| c_vision_rotate (degrees : Z)
| c_requires_grad (p : positive)
| c_optim_AdamW (params : list positive)
| c_register_forward_hook (layer : Module)
| c_hook_remove (layer : Module)
| c_zero_grad
| c_model (model : Module)
| c_backward (loss : R)
| c_clip_grad_norm (p : positive)
| c_opt_step
| c_clear_output
| c_plt_subplots (w h : R)
| c_ax_imshow (ax : Axes) (x : T3)
| c_ax_axis_off (ax : Axes)
| c_ax_set_title (ax : Axes) (l : label)
| c_plt_show
| c_python.

(** What the embedding takes from the libraries: their state, and the
    functions the script calls.  A function that can raise returns a
    [result].  [vision.Image] wraps a tensor of any shape, and
    [image_shape] is the shape of the tensor an image holds.  [format_2f]
    is Python's ["%.2f" % x]. *)
Record Framework : Type := {
  NpState : Type;      (* numpy's global random generator *)
  TorchState : Type;   (* torch's random generators *)
  Buffers : Type;      (* the model's buffers, such as running statistics *)
  Slot : Type;         (* AdamW's state for one parameter *)
  FImage : Type;       (* a [vision.Image] *)
  np_random_normal : list Z -> R -> NpState -> result T5 * NpState;
  np_random_rand : NpState -> R * NpState;
  torch_rfft : T4 -> result T5;
  torch_irfft : T5 -> nat * nat -> result T4;
  torch_inverse : T2 -> result T2;
  vision_Image : tensor -> result FImage;
  image_shape : FImage -> list nat;
  image_set_flow : FImage -> (nat * nat) * T4 -> FImage;
  image_data : FImage -> result T3;
  vision_pad : FImage -> Z -> result FImage;
  vision_crop_pad : FImage -> Z -> R -> R -> result FImage;
  vision_zoom : FImage -> R -> result FImage;
  vision_rotate : FImage -> Z -> result FImage;
  optim_AdamW : R -> R -> result unit;
  adamw_update : R -> R -> option Slot -> tensor -> tensor -> Slot * tensor;
  clip_grad : tensor -> R -> tensor;
  grad_accumulate : tensor -> tensor -> tensor;
  (* a forward pass: the modules that ran, in order, each with its output *)
  model_forward : Module -> gmap positive tensor -> Buffers -> TorchState ->
                  T4 -> result (list (Module * tensor)) * Buffers * TorchState;
  (* the gradient of a scalar function of the leaves, at the given values,
     for the leaves that require a gradient *)
  autograd : (gmap positive tensor -> result R) -> gmap positive tensor ->
             gset positive -> result (gmap positive tensor);
  plt_subplots : R * R -> result Axes;
  display : call -> result unit;
  format_2f : R -> string
}.

Section Optvis.

Context (L : Framework).

(** ** The state the script runs in *)

Record World : Type := {
  np_rng : NpState L;
  torch_rng : TorchState L;
  buffers : Buffers L;
  values : gmap positive tensor;   (* the data of the leaf tensors *)
  grads : gmap positive tensor;    (* their [.grad], when not None *)
  req_grad : gset positive;        (* the leaves with [requires_grad] *)
  trace : list (call * option exn) (* the calls made so far, oldest first *)
}.

Definition set_np_rng (s : NpState L) (w : World) : World :=
  {| np_rng := s; torch_rng := torch_rng w; buffers := buffers w;
     values := values w; grads := grads w; req_grad := req_grad w;
     trace := trace w |}.
Definition set_forward (b : Buffers L) (s : TorchState L) (w : World) : World :=
  {| np_rng := np_rng w; torch_rng := s; buffers := b;
     values := values w; grads := grads w; req_grad := req_grad w;
     trace := trace w |}.
Definition set_values (v : gmap positive tensor) (w : World) : World :=
  {| np_rng := np_rng w; torch_rng := torch_rng w; buffers := buffers w;
     values := v; grads := grads w; req_grad := req_grad w;
     trace := trace w |}.
Definition set_grads (g : gmap positive tensor) (w : World) : World :=
  {| np_rng := np_rng w; torch_rng := torch_rng w; buffers := buffers w;
     values := values w; grads := g; req_grad := req_grad w;
     trace := trace w |}.
Definition set_req_grad (s : gset positive) (w : World) : World :=
  {| np_rng := np_rng w; torch_rng := torch_rng w; buffers := buffers w;
     values := values w; grads := grads w; req_grad := s;
     trace := trace w |}.
Definition log (c : call) (e : option exn) (w : World) : World :=
  {| np_rng := np_rng w; torch_rng := torch_rng w; buffers := buffers w;
     values := values w; grads := grads w; req_grad := req_grad w;
     trace := trace w ++ [(c, e)] |}.

(** ** The monad of the script: state and exceptions *)

Definition M (A : Type) : Type := World -> result A * World.

Definition ret {A} (a : A) : M A := fun w => (Ok a, w).

Definition bind {A B} (m : M A) (k : A -> M B) : M B :=
  fun w =>
    match m w with
    | (Ok a, w') => k a w'
    | (Raise e, w') => (Raise e, w')
    end.

#[global] Instance M_ret : MRet M := @ret.
#[global] Instance M_bind : MBind M := fun A B k m => bind m k.

(** A call into a library that has no effect on the world but its entry
    in the trace. *)
Definition lib {A} (c : call) (r : result A) : M A :=
  fun w => (r, log c (exn_of r) w).

(** An exception raised by the interpreter. *)
Definition raise {A} (e : exn) : M A := lib c_python (Raise e).

(** [for x in l: s = body(x, s)]. *)
Fixpoint for_each {A S} (l : list A) (body : A -> S -> M S) (s : S) : M S :=
  match l with
  | [] => ret s
  | a :: l => s' ← body a s; for_each l body s'
  end.

Definition np_rand : M R :=
  fun w =>
    let (u, s) := np_random_rand L (np_rng w) in
    (Ok u, log c_np_random_rand None (set_np_rng s w)).

(** ** Keyword arguments *)

Record kwargs : Type := {
  kw_rand_sd : option R;
  kw_decay_power : option R;
  kw_jitter : option Z;
  kw_scale : option R;
  kw_degrees : option Z;
  kw_label : option string;
  kw_ax : option Axes;
  kw_dpi : option R
}.

Definition rand_sd (kw : kwargs) : R := default 0.01 (kw_rand_sd kw).
Definition decay_power (kw : kwargs) : R := default 0.75 (kw_decay_power kw).
Definition scale_of (kw : kwargs) : R := default 0.5 (kw_scale kw).
Definition degrees_of (kw : kwargs) : Z := default 45%Z (kw_degrees kw).
Definition dpi_of (kw : kwargs) : R := default 25 (kw_dpi kw).
Definition label_of (kw : kwargs) : label := kw_label kw.

(** ** The Fourier parameterization *)

Definition init_fft_buf (size : Z) (kw : kwargs) : M T5 :=
  fun w =>
    let shape := [1; 3; size; size / 2 + 1; 2]%Z in
    let (img_buf, s) := np_random_normal L shape (rand_sd kw) (np_rng w) in
    (img_buf,
     log (c_np_random_normal shape (rand_sd kw)) (exn_of img_buf)
         (set_np_rng s w)).

(** [np.fft.fftfreq(n, d)]; it divides by [n * d]. *)
Definition fftfreq (n : nat) (d : R) : M T1 :=
  lib (c_np_fft_fftfreq n)
      (if (n =? 0)%nat then Raise ZeroDivisionError
       else Ok (np_fftfreq n d)).

(** The scale has shape (1, 1, size, size//2 + 1, 1). *)
Definition get_fft_scale (size : nat) (kw : kwargs) : M T5 :=
  let d := rpow 0.5 0.5 in
  fy ← fftfreq size d;
  fx ← fftfreq size d;
  let fx := firstn (size / 2 + 1) fx in
  let freqs :=
    map (fun y => map (fun x => np_power (x * x + y * y) (decay_power kw)) fx)
        fy in
  let scale :=
    map2 (fun f => reciprocal (np_maximum f (1 / (INR size * d)))) freqs in
  ret [[map2 (fun s => [s]) scale]].

Definition fft_to_rgb (t : T5) (kw : kwargs) : M T4 :=
  let size := length (hd [] (hd [] t)) in
  scale ← get_fft_scale size kw;
  let t := bcast5 Rmult scale t in
  lib (c_torch_irfft size size) (torch_irfft L t (size, size)).

(** [t / scale]: the quotient, or the end of what real numbers describe. *)
Definition tensor_div (t scale : T5) : M T5 :=
  match true_divide t scale with
  | Ok q => ret q
  | Raise e => lib c_torch_div (Raise e)
  end.

Definition rgb_to_fft (t : T4) (kw : kwargs) : M T5 :=
  let size := length (hd [] (hd [] (hd [] t))) in
  t ← lib c_torch_rfft (torch_rfft L t);
  scale ← get_fft_scale size kw;
  tensor_div t scale.

Definition rgb_to_lucid_colorspace (t : T4) : M T4 :=
  let t_flat := permute_0231 t in
  inverse ← lib c_torch_inverse
                 (torch_inverse L (transpose2 color_correlation_normalized));
  let t_flat := matmul t_flat inverse in
  ret (permute_0312 t_flat).

Definition image_buf_to_rgb (img_buf : T5) (kw : kwargs) : M T3 :=
  img ← fft_to_rgb img_buf kw;
  let img := lucid_colorspace_to_rgb img in
  let img := map4 (clamp 0 1) (denormalize img) in
  match img with
  | img0 :: _ => ret img0
  | [] => raise IndexError
  end.

(** ** Display *)

Definition show_rgb (img : T3) (label : label) (ax : option Axes) (dpi : R)
  : M unit :=
  let plt_show := match ax with None => true | Some _ => false end in
  ax ← match ax with
       | None =>
           let h := INR (length (hd [] img)) in
           let w := INR (length (hd [] (hd [] img))) in
           if Req_dec_T dpi 0 then raise ZeroDivisionError
           else lib (c_plt_subplots (h / dpi) (w / dpi))
                    (plt_subplots L (h / dpi, w / dpi))
       | Some ax => ret ax
       end;
  let x := permute_120 img in
  lib (c_ax_imshow ax x) (display L (c_ax_imshow ax x));;
  lib (c_ax_axis_off ax) (display L (c_ax_axis_off ax));;
  lib (c_ax_set_title ax label) (display L (c_ax_set_title ax label));;
  if plt_show then lib c_plt_show (display L c_plt_show) else ret tt.

(** ** Augmentation *)

(** A Python-level operation that either yields a value or raises. *)
Definition py {A} (r : result A) : M A :=
  match r with
  | Ok a => ret a
  | Raise e => raise e
  end.

Definition lucid_transforms (img : T4) (kw : kwargs) : M T4 :=
  let size := length (hd [] (hd [] (hd [] img))) in
  let jitter := default (Z.of_nat size / 2)%Z (kw_jitter kw) in
  let scale := scale_of kw in
  let degrees := degrees_of kw in
  fastai_image ← lib c_vision_Image (vision_Image L (squeeze (of_T4 img)));
  (* pad *)
  flow ← py (gpu_affine_grid (image_shape L fastai_image));
  let fastai_image := image_set_flow L fastai_image flow in
  fastai_image ← lib (c_vision_pad jitter) (vision_pad L fastai_image jitter);
  (* jitter *)
  row_pct ← np_rand;
  col_pct ← np_rand;
  let crop := (Z.of_nat size + py_int (IZR jitter * (2 / 3)))%Z in
  fastai_image ← lib (c_vision_crop_pad crop row_pct col_pct)
                     (vision_crop_pad L fastai_image crop row_pct col_pct);
  (* scale *)
  let scale_factors := scale_factors scale in
  u ← np_rand;
  rand_scale ← py (py_index scale_factors
                            (py_int (u * INR (length scale_factors))));
  flow ← py (gpu_affine_grid (image_shape L fastai_image));
  let fastai_image := image_set_flow L fastai_image flow in
  fastai_image ← lib (c_vision_zoom rand_scale)
                     (vision_zoom L fastai_image rand_scale);
  (* rotate *)
  let rotate_factors := rotate_factors degrees in
  u ← np_rand;
  rand_rotate ← py (py_index rotate_factors
                             (py_int (u * INR (length rotate_factors))));
  flow ← py (gpu_affine_grid (image_shape L fastai_image));
  let fastai_image := image_set_flow L fastai_image flow in
  fastai_image ← lib (c_vision_rotate rand_rotate)
                     (vision_rotate L fastai_image rand_rotate);
  (* jitter *)
  row_pct ← np_rand;
  col_pct ← np_rand;
  fastai_image ← lib (c_vision_crop_pad (Z.of_nat size) row_pct col_pct)
                     (vision_crop_pad L fastai_image (Z.of_nat size)
                                      row_pct col_pct);
  data ← lib c_image_data (image_data L fastai_image);
  ret [data].

(** ** Leaf tensors, autograd and the optimizer *)

Definition get_world : M World := fun w => (Ok w, w).

(** The data of a leaf tensor, as a 5-D buffer. *)
Definition read (p : positive) : M T5 :=
  fun w => (Ok (to_T5 (default (Nd []) (values w !! p))), w).

(** [t.requires_grad_()] on a newly made tensor [t]: from here on the
    tensor is a leaf that autograd and the optimizer know by identity. *)
Definition requires_grad_ (t : tensor) : M positive :=
  fun w =>
    let p := fresh (dom (values w)) in
    (Ok p,
     log (c_requires_grad p) None
         (set_req_grad ({[p]} ∪ req_grad w)
                       (set_values (<[p := t]> (values w)) w))).

Record Optimizer : Type := {
  opt_params : list positive;
  opt_lr : R;
  opt_weight_decay : R;
  opt_state : gmap positive (Slot L)
}.

Definition AdamW (params : list positive) (lr weight_decay : R) : M Optimizer :=
  lib (c_optim_AdamW params)
      (match optim_AdamW L lr weight_decay with
       | Ok _ => Ok {| opt_params := params; opt_lr := lr;
                       opt_weight_decay := weight_decay; opt_state := ∅ |}
       | Raise e => Raise e
       end).

(** [opt.zero_grad()]: the gradients of the optimizer's own parameters
    are zeroed in place, where they exist. *)
Definition zero_grad (opt : Optimizer) : M unit :=
  fun w =>
    let zero g p :=
      match g !! p with
      | Some x => <[p := tmap (fun _ => 0) x]> g
      | None => g
      end in
    (Ok tt,
     log c_zero_grad None
         (set_grads (fold_left zero (opt_params opt) (grads w)) w)).

(** [loss.backward()], for a loss that is the function [f] of the leaves:
    the gradients are added to the [.grad] of the leaves. *)
Definition backward (loss : R) (f : gmap positive tensor -> result R)
  : M unit :=
  fun w =>
    match autograd L f (values w) (req_grad w) with
    | Ok g =>
        (Ok tt,
         log (c_backward loss) None
             (set_grads
                (union_with (fun old new => Some (grad_accumulate L old new))
                            (grads w) g) w))
    | Raise e => (Raise e, log (c_backward loss) (Some e) w)
    end.

(** [torch.nn.utils.clip_grad_norm_(t, max_norm)] for a single tensor. *)
Definition clip_grad_norm_ (p : positive) (max_norm : R) : M unit :=
  fun w =>
    (Ok tt,
     log (c_clip_grad_norm p) None
         (match grads w !! p with
          | Some g => set_grads (<[p := clip_grad L g max_norm]> (grads w)) w
          | None => w
          end)).

(** [opt.step()]: every parameter of the optimizer that has a gradient is
    updated in place. *)
Definition opt_step (opt : Optimizer) : M Optimizer :=
  fun w =>
    let upd (acc : gmap positive tensor * gmap positive (Slot L)) p
      : gmap positive tensor * gmap positive (Slot L) :=
      match grads w !! p, fst acc !! p with
      | Some g, Some v =>
          let (slot, v') :=
            adamw_update L (opt_lr opt) (opt_weight_decay opt)
                         (snd acc !! p) v g in
          (<[p := v']> (fst acc), <[p := slot]> (snd acc))
      | _, _ => acc
      end in
    let (vals, state) :=
      fold_left upd (opt_params opt) (values w, opt_state opt) in
    (Ok {| opt_params := opt_params opt; opt_lr := opt_lr opt;
           opt_weight_decay := opt_weight_decay opt; opt_state := state |},
     log c_opt_step None (set_values vals w)).

(** ** [tensor_stats] *)

Definition tensor_stats (t : tensor) (label : string) : string :=
  let label := if (0 <? String.length label)%nat
               then (label ++ " ")%string else label in
  (label ++ "mean:" ++ format_2f L (mean t)
         ++ " std:" ++ format_2f L (std (leaves t))
         ++ " max:" ++ format_2f L (np_max (leaves t))
         ++ " min:" ++ format_2f L (np_min (leaves t)))%string.

(** ** The forward pass of one iteration *)

(** The function the script registers on [layer]. *)
Definition callback (m : Module) (o : tensor) : option tensor := Some o.

(** What the hook leaves in [hook_out] when the modules [ran] have run:
    torch calls it after every forward of the module it is registered
    on. *)
Definition hooked (layer : Module) (ran : list (Module * tensor))
           (hook_out : option tensor) : option tensor :=
  fold_left (fun ho '(m, o) => if decide (m = layer) then callback m o else ho)
            ran hook_out.

(** [model(img)], with the hook registered on [layer]. *)
Definition model_call (model layer : Module) (hook_out : option tensor)
           (img : T4) : M (option tensor) :=
  fun w =>
    let '(r, b, s) :=
      model_forward L model (values w) (buffers w) (torch_rng w) img in
    let w' := log (c_model model) (exn_of r) (set_forward b s w) in
    match r with
    | Ok ran => (Ok (hooked layer ran hook_out), w')
    | Raise e => (Raise e, w')
    end.

(** [hook_out[k]]. *)
Definition subscript (hook_out : option tensor) (k : Z) : M tensor :=
  match hook_out with
  | None => raise TypeError
  | Some o => py (tindex o k)
  end.

Definition compute_loss (feature : option Z) (hook_out : option tensor) : M R :=
  match feature with
  | None =>
      o ← subscript hook_out 0;
      ret (-1 * mean (tmap (fun x => x * x) o))
  | Some feature =>
      o ← subscript hook_out 0;
      ch ← py (tindex o feature);
      ret (-1 * mean ch)
  end.

Definition forward_loss (model layer : Module) (feature : option Z)
           (kw : kwargs) (img_buf : positive) (hook_out : option tensor)
  : M (R * string * option tensor) :=
  buf ← read img_buf;
  img ← fft_to_rgb buf kw;
  let img := lucid_colorspace_to_rgb img in
  let stats := tensor_stats (of_T4 img) "" in
  let img := map4 (fun x => sigmoid x * 2 - 1) img in
  img ← lucid_transforms img kw;
  hook_out ← model_call model layer hook_out img;
  loss ← compute_loss feature hook_out;
  ret (loss, stats, hook_out).

(** ** [visualize_feature] *)

Definition loss_of {A B} (r : result (R * A * B) * World) : result R :=
  match fst r with
  | Ok (loss, _, _) => Ok loss
  | Raise e => Raise e
  end.

(** Whether iteration [i] shows a frame:
    [debug and i % int(steps/frames) == 0]. *)
Definition frame_due (debug : bool) (steps frames i : Z) : M bool :=
  if debug then
    if (frames =? 0)%Z then raise ZeroDivisionError
    else
      let every := py_int (IZR steps / IZR frames) in
      if (every =? 0)%Z then raise ZeroDivisionError
      else ret (i mod every =? 0)%Z
  else ret false.

(** One iteration of the optimization loop.  The loop carries the
    optimizer and the variable [hook_out] that the hook assigns. *)
Definition iteration (model layer : Module) (feature : option Z)
           (steps : Z) (grad_clip : R) (debug : bool) (frames : Z)
           (kw : kwargs) (img_buf : positive)
           (i : Z) (st : Optimizer * option tensor)
  : M (Optimizer * option tensor) :=
  let (opt, hook_out0) := st in
  zero_grad opt;;
  w0 ← get_world;
  '(loss, stats, hook_out) ←
    forward_loss model layer feature kw img_buf hook_out0;
  backward loss
           (fun leaves =>
              loss_of (forward_loss model layer feature kw img_buf hook_out0
                                    (set_values leaves w0)));;
  clip_grad_norm_ img_buf grad_clip;;
  opt ← opt_step opt;
  due ← frame_due debug steps frames i;
  (if due : bool then
     lib c_clear_output (display L c_clear_output);;
     let label := ("step: " ++ format_i i ++ " loss: " ++ format_2f L loss
                   ++ " stats: " ++ stats)%string in
     buf ← read img_buf;
     img ← image_buf_to_rgb buf kw;
     match kw_label kw with
     | Some _ => raise TypeError   (* [label] is given twice *)
     | None => show_rgb img (Some label) (kw_ax kw) (dpi_of kw)
     end
   else ret tt : M unit);;
  ret (opt, hook_out).

(** The buffer the optimization starts from. *)
Definition initial_buf (start_image : option T4) (size : Z) (kw : kwargs)
  : M T5 :=
  match start_image with
  | Some start_image =>
      fastai_image ← lib c_vision_Image
                         (vision_Image L (squeeze (of_T4 start_image)));
      let n := Z.to_nat size in
      flow ← py (gpu_affine_grid [3%nat; n; n]);   (* resize *)
      let fastai_image := image_set_flow L fastai_image flow in
      data ← lib c_image_data (image_data L fastai_image);
      let img_buf := normalize [data] in
      img_buf ← rgb_to_lucid_colorspace img_buf;
      rgb_to_fft img_buf kw
  | None => init_fft_buf size kw
  end.

(** The loop, run for the iterations [1 .. n]. *)
Definition optimize (model layer : Module) (feature : option Z)
           (steps : Z) (grad_clip : R) (debug : bool) (frames : Z)
           (kw : kwargs) (img_buf : positive) (n : Z)
           (st : Optimizer * option tensor)
  : M (Optimizer * option tensor) :=
  for_each (py_range 1 (n + 1))
           (iteration model layer feature steps grad_clip debug frames kw
                      img_buf)
           st.

(** The script from the construction of the optimizer over the leaf
    [img_buf] to the end of the loop. *)
Definition optimize_leaf (model layer : Module) (feature : option Z)
           (steps : Z) (lr weight_decay grad_clip : R) (debug : bool)
           (frames : Z) (kw : kwargs) (img_buf : positive) (n : Z)
  : M positive :=
  opt ← AdamW [img_buf] lr weight_decay;
  let hook_out : option tensor := None in
  lib (c_register_forward_hook layer) (Ok tt);;
  optimize model layer feature steps grad_clip debug frames kw img_buf n
           (opt, hook_out);;
  ret img_buf.

(** The script up to the end of the loop. *)
Definition setup_and_optimize (model layer : Module) (feature : option Z)
           (start_image : option T4) (size steps : Z)
           (lr weight_decay grad_clip : R) (debug : bool) (frames : Z)
           (kw : kwargs) (n : Z) : M positive :=
  img_buf ← initial_buf start_image size kw;
  img_buf ← requires_grad_ (of_T5 img_buf);
  optimize_leaf model layer feature steps lr weight_decay grad_clip debug
                frames kw img_buf n.

Definition visualize_feature (model layer : Module) (feature : option Z)
           (start_image : option T4) (size steps : Z)
           (lr weight_decay grad_clip : R) (debug : bool) (frames : Z)
           (show : bool) (kw : kwargs) : M (option T3) :=
  img_buf ← setup_and_optimize model layer feature start_image size steps
                               lr weight_decay grad_clip debug frames kw steps;
  lib (c_hook_remove layer) (Ok tt);;
  buf ← read img_buf;
  retval ← image_buf_to_rgb buf kw;
  if show then
    (if negb debug
     then show_rgb retval (label_of kw) (kw_ax kw) (dpi_of kw)
     else ret tt : M unit);;
    ret None
  else ret (Some retval).

End Optvis.

(** ** Vocabulary of the statements *)

(** What holds of the result and the world after running [m] from [w]. *)
Definition wp {L : Framework} {A} (m : M L A)
           (Q : result A -> World L -> Prop) (w : World L) : Prop :=
  Q (fst (m w)) (snd (m w)).

(** [m] keeps the relation [J] between the world before and the world
    after: [J None] when it returns, with a result that satisfies [Q], and
    [J (Some e)] when it raises [e]. *)
Definition sat {L : Framework} {A}
           (J : option exn -> World L -> World L -> Prop)
           (m : M L A) (Q : A -> Prop) : Prop :=
  forall w,
    wp m (fun r w' => match r with
                      | Ok a => J None w w' /\ Q a
                      | Raise e => J (Some e) w w'
                      end) w.

(** The calls that put an image on the screen. *)
Definition is_imshow (c : call) : bool :=
  match c with
  | c_ax_imshow _ _ => true
  | _ => false
  end.

(** The division of a tensor by a zero entry. *)
Definition is_div (c : call) : bool :=
  match c with
  | c_torch_div => true
  | _ => false
  end.

(** A run from [w] to [w'] that divides no tensor by a zero entry: what
    it computes stays within the real numbers. *)
Definition stays_real {L : Framework} (o : option exn) (w w' : World L)
  : Prop :=
  exists evs, trace L w' = trace L w ++ evs
              /\ Forall (fun ev => is_div (fst ev) = false) evs.

(** Entry [(i, j, k, l)] of a 4-D tensor. *)
Definition nth4 (t : T4) (i j k l : nat) : R :=
  nth l (nth k (nth j (nth i t []) []) []) 0.

(** [a * t1 + b * t2] for two 4-D tensors of the same shape. *)
Definition axpby4 (a : R) (t1 : T4) (b : R) (t2 : T4) : T4 :=
  zipw (zipw (zipw (zipw (fun x y => a * x + b * y)))) t1 t2.

(** The channel vector of pixel [(k, l)] of image [i]. *)
Definition pixel (t : T4) (i k l : nat) : T1 :=
  map (fun ch => nth l (nth k ch []) 0) (nth i t []).

(** What [lucid_colorspace_to_rgb] does to one image of the batch. *)
Definition lucid_image (img : T3) : T3 :=
  permute_201
    (map2 (fun px =>
             map (dot px)
                 (transpose2 (transpose2 color_correlation_normalized)))
          (permute_120 img)).

(** The spectral scale at row [y] and column [x] of the half spectrum:
    1 / max((fx^2 + fy^2)^p, 1 / (size * d)), with d = 0.5^0.5.  For
    [p < 0] the power is [inf] at the zero frequency and the scale is 0
    there. *)
Definition spectral_scale (size : nat) (p : R) (y x : nat) : R :=
  let d := rpow 0.5 0.5 in
  let fy := nth y (np_fftfreq size d) 0 in
  let fx := nth x (np_fftfreq size d) 0 in
  reciprocal (np_maximum (np_power (fx * fx + fy * fy) p)
                         (1 / (INR size * d))).

(** The array [get_fft_scale] builds, of shape
    (1, 1, size, size//2 + 1, 1). *)
Definition fft_scale (size : nat) (p : R) : T5 :=
  [[tab size (fun y =>
      tab (size / 2 + 1) (fun x => [spectral_scale size p y x]))]].

(** [op] applied to every entry of a plane (rows, columns, re/im) and the
    scale of its row and column. *)
Definition scaled_plane (op : R -> R -> R) (s : nat -> nat -> R) (plane : T3)
  : T3 :=
  tab (length plane) (fun y =>
    tab (length (nth y plane [])) (fun x =>
      map (fun v => op v (s y x)) (nth x (nth y plane []) []))).

(** The same on every plane of a buffer. *)
Definition scaled (op : R -> R -> R) (s : nat -> nat -> R) (t : T5) : T5 :=
  map2 (scaled_plane op s) t.

(** All entries of a 3-D tensor satisfy [P]. *)
Definition all_entries (P : R -> Prop) (t : T3) : Prop :=
  Forall (Forall (Forall P)) t.

(** The entries lie in the closed interval from 0 to 1. *)
Definition unit_range (t : T3) : Prop := all_entries (fun v => 0 <= v <= 1) t.

(** The script up to and including [retval = image_buf_to_rgb(img_buf)]:
    what it computes is the synthesized image. *)
Definition final_image (L : Framework) (model layer : Module)
           (feature : option Z) (start_image : option T4) (size steps : Z)
           (lr weight_decay grad_clip : R) (debug : bool) (frames : Z)
           (kw : kwargs) : M L T3 :=
  img_buf ← setup_and_optimize L model layer feature start_image size steps
                               lr weight_decay grad_clip debug frames kw steps;
  lib L (c_hook_remove layer) (Ok tt);;
  buf ← read L img_buf;
  image_buf_to_rgb L buf kw.

(** A run from [w] to [w'] that puts no image on the screen. *)
Definition quiet {L : Framework} (o : option exn) (w w' : World L) : Prop :=
  exists evs, trace L w' = trace L w ++ evs
              /\ Forall (fun ev => is_imshow (fst ev) = false) evs.

(** The data of every leaf is the same after as before. *)
Definition same_values {L : Framework} (o : option exn) (w w' : World L)
  : Prop :=
  values L w' = values L w.

(** The data of every leaf but [p] is the same after as before. *)
Definition frame {L : Framework} (p : positive) (o : option exn)
           (w w' : World L) : Prop :=
  forall k, k <> p -> values L w' !! k = values L w !! k.

(** No call of [evs] raised. *)
Definition clean (evs : list (call * option exn)) : Prop :=
  Forall (fun ev => snd ev = None) evs.

(** The events that a run from [w] to [w'] with outcome [o] may add to the
    trace when nothing is caught: no exception if it returns, and if it
    raises [e], the last call raised [e] and no other call raised. *)
Definition uncaught {L : Framework} (o : option exn) (w w' : World L) : Prop :=
  exists evs,
    trace L w' = trace L w ++ evs
    /\ match o with
       | None => clean evs
       | Some e => exists evs0 c, evs = evs0 ++ [(c, Some e)] /\ clean evs0
       end.

(** [m] neither catches nor retries: when one of its calls raises [e], it
    makes no further call and raises [e] itself; and it raises nothing
    that a call did not raise. *)
Definition transparent {L : Framework} {A} (m : M L A) : Prop :=
  forall w,
    let (r, w') := m w in
    exists evs,
      trace L w' = trace L w ++ evs
      /\ (forall evs0 c e evs1,
            evs = evs0 ++ (c, Some e) :: evs1 -> evs1 = [] /\ r = Raise e)
      /\ (forall e, r = Raise e -> exists evs0 c, evs = evs0 ++ [(c, Some e)]).

(** If [c] puts an image on the screen, the image is in range. *)
Definition in_range (c : call) : Prop :=
  forall ax x, c = c_ax_imshow ax x -> unit_range x.

(** The images that the events [evs] put on the screen are in range. *)
Definition shows_unit_range (evs : list (call * option exn)) : Prop :=
  forall ax x o, In (c_ax_imshow ax x, o) evs -> unit_range x.

(** A run from [w] to [w'] that shows only images in range. *)
Definition shown_in_range {L : Framework} (o : option exn) (w w' : World L)
  : Prop :=
  exists evs, trace L w' = trace L w ++ evs /\ shows_unit_range evs.

(** *** What the theorems assume of the libraries *)

(** [np.random.normal(size=...)] returns an array of the requested size. *)
Definition normal_contract (L : Framework) : Prop :=
  forall (a b c d e : nat) (sd : R) (s : NpState L),
  exists buf s',
    np_random_normal L (map Z.of_nat [a; b; c; d; e]) sd s = (Ok buf, s')
    /\ shape5 a b c d e buf.

(** [torch.irfft(t, 2, signal_sizes=(h, h))] maps a half spectrum
    (b, c, h, h//2 + 1, 2) to a signal (b, c, h, h). *)
Definition irfft_contract (L : Framework) : Prop :=
  forall (b c h : nat) (t : T5),
    shape5 b c h (h / 2 + 1) 2 t ->
    exists u, torch_irfft L t (h, h) = Ok u /\ shape4 b c h h u.

(** [np.random.rand()] returns a number in [0, 1). *)
Definition rand_contract (L : Framework) : Prop :=
  forall s : NpState L, 0 <= fst (np_random_rand L s) < 1.

(** The data of an image that [crop_pad] made for the size [n] has
    [n] rows and [n] columns in every channel. *)
Definition crop_pad_contract (L : Framework) : Prop :=
  forall (im im' : FImage L) (n : nat) (row col : R) (data : T3),
    vision_crop_pad L im (Z.of_nat n) row col = Ok im' ->
    image_data L im' = Ok data ->
    Forall (shape2 n n) data.

(** [torch.rfft(t, signal_ndim=2)] maps a signal (b, c, h, h) to a half
    spectrum (b, c, h, h//2 + 1, 2), and [torch.irfft] with the signal's
    sizes and the same normalization inverts it. *)
Definition rfft_contract (L : Framework) : Prop :=
  forall (b c h : nat) (t : T4),
    shape4 b c h h t ->
    exists f, torch_rfft L t = Ok f /\ shape5 b c h (h / 2 + 1) 2 f
              /\ torch_irfft L f (h, h) = Ok t.

(** The shape of a [vision.Image] is the shape of the tensor it was made
    from, and assigning [_flow] does not change it; [pad] and [zoom] keep
    the number of dimensions, and [crop_pad] to a positive size keeps it
    for an image of three dimensions. *)
Definition image_shape_contract (L : Framework) : Prop :=
  (forall px im, vision_Image L px = Ok im -> image_shape L im = tshape px)
  /\ (forall im flow,
        image_shape L (image_set_flow L im flow) = image_shape L im)
  /\ (forall im j im',
        vision_pad L im j = Ok im' ->
        length (image_shape L im') = length (image_shape L im))
  /\ (forall im n row col im',
        vision_crop_pad L im n row col = Ok im' -> (0 < n)%Z ->
        length (image_shape L im) = 3%nat ->
        length (image_shape L im') = 3%nat)
  /\ (forall im z im',
        vision_zoom L im z = Ok im' ->
        length (image_shape L im') = length (image_shape L im)).

(** ** A stand-in for the libraries

    A small executable [Framework], used to run the script on concrete
    inputs.  Its transforms are not the real ones: the "spectrum" of a row
    is the row regrouped in pairs, an image is the tensor it was made
    from, the model is a single module that returns its input, and
    gradients are the values themselves. *)

Module StandIn.

Definition constant5 (a b c d e : nat) (x : R) : T5 :=
  tab a (fun _ => tab b (fun _ => tab c (fun _ => tab d (fun _ =>
    tab e (fun _ => x))))).

Definition normal (shape : list Z) (sd : R) (s : nat) : result T5 * nat :=
  match map Z.to_nat shape with
  | [a; b; c; d; e] => (Ok (constant5 a b c d e sd), S s)
  | _ => (Raise (LibraryError 1), s)
  end.

Definition pack (row : T1) : T2 :=
  tab (length row / 2 + 1)
      (fun k => [nth (2 * k) row 0; nth (2 * k + 1) row 0]).

Definition unpack (w : nat) (pairs : T2) : T1 :=
  tab w (fun j => nth (j mod 2) (nth (j / 2) pairs []) 0).

Definition resize (n : nat) (im : T3) : T3 :=
  map (fun ch => tab n (fun i => tab n (fun j => nth j (nth i ch []) 0))) im.

Definition lib : Framework := {|
  NpState := nat;
  TorchState := unit;
  Buffers := unit;
  Slot := unit;
  FImage := tensor;
  np_random_normal := normal;
  np_random_rand := fun s => (1 / 2, S s);
  torch_rfft := fun t => Ok (map3 pack t);
  torch_irfft := fun t hw => Ok (map3 (unpack (snd hw)) t);
  torch_inverse := fun m => Ok m;
  vision_Image := fun t => Ok t;
  image_shape := tshape;
  image_set_flow := fun im _ => im;
  image_data := fun im => Ok (to_T3 im);
  vision_pad := fun im _ => Ok im;
  vision_crop_pad :=
    fun im n _ _ => Ok (of_T3 (resize (Z.to_nat n) (to_T3 im)));
  vision_zoom := fun im _ => Ok im;
  vision_rotate := fun im _ => Ok im;
  optim_AdamW := fun _ _ => Ok tt;
  adamw_update := fun _ _ _ v _ => (tt, v);
  clip_grad := fun g _ => g;
  grad_accumulate := fun _ new => new;
  model_forward := fun m _ b s img => (Ok [(m, of_T4 img)], b, s);
  autograd := fun _ vals req => Ok (filter (fun kv => fst kv ∈ req) vals);
  plt_subplots := fun _ => Ok 1%positive;
  display := fun _ => Ok tt;
  format_2f := fun _ => "0.00"%string
|}.

Definition world0 : World lib := {|
  np_rng := 0%nat : NpState lib;
  torch_rng := tt : TorchState lib;
  buffers := tt : Buffers lib;
  values := ∅;
  grads := ∅;
  req_grad := ∅;
  trace := []
|}.

Definition kw0 : kwargs := {|
  kw_rand_sd := None; kw_decay_power := None; kw_jitter := None;
  kw_scale := None; kw_degrees := None; kw_label := None;
  kw_ax := None; kw_dpi := None
|}.

(** The same with [decay_power = -1]. *)
Definition kw_negative : kwargs := {|
  kw_rand_sd := None; kw_decay_power := Some (-1); kw_jitter := None;
  kw_scale := None; kw_degrees := None; kw_label := None;
  kw_ax := None; kw_dpi := None
|}.

End StandIn.

(** ** Further vocabulary

    Definitions used by the properties of the helpers that follow the
    properties of the specification. *)

(** [torch.matmul(a, b)] for two matrices. *)
Definition matmul2 (a b : T2) : T2 :=
  map (fun row => map (dot row) (transpose2 b)) a.

(** The identity matrix. *)
Definition eye (n : nat) : T2 :=
  tab n (fun i => tab n (fun j => if (i =? j)%nat then 1 else 0)).

(** What multiplying the channel dimension by the matrix [m] does to one
    image (C, H, W) of a batch. *)
Definition recolor (m : T2) (img : T3) : T3 :=
  permute_201 (map2 (fun px => map (dot px) (transpose2 m)) (permute_120 img)).

(** [torch.inverse] returns the inverse of an invertible 3x3 matrix. *)
Definition inverse_contract (L : Framework) : Prop :=
  forall m n' : T2,
    shape2 3 3 m -> shape2 3 3 n' -> matmul2 m n' = eye 3 ->
    exists n, torch_inverse L m = Ok n /\ shape2 3 3 n
              /\ matmul2 m n = eye 3 /\ matmul2 n m = eye 3.

(** [m] never returns: from every world it raises. *)
Definition fails {L : Framework} {A} (m : M L A) : Prop :=
  forall w, exists e, fst (m w) = Raise e.

(** The determinant and the inverse of a 3x3 matrix, by cofactors. *)
Definition det3 (m : T2) : R :=
  match m with
  | [[a; b; c]; [d; e; f]; [g; h; i]] =>
      a * (e * i - f * h) - b * (d * i - f * g) + c * (d * h - e * g)
  | _ => 0
  end.

Definition inverse3 (m : T2) : result T2 :=
  match m with
  | [[a; b; c]; [d; e; f]; [g; h; i]] =>
      let det := det3 m in
      if Req_dec_T det 0 then Raise (LibraryError 2)
      else Ok [[(e * i - f * h) / det; (c * h - b * i) / det;
                (b * f - c * e) / det];
               [(f * g - d * i) / det; (a * i - c * g) / det;
                (c * d - a * f) / det];
               [(d * h - e * g) / det; (b * g - a * h) / det;
                (a * e - b * d) / det]]
  | _ => Raise (LibraryError 1)
  end.

(** The stand-in libraries with a matrix inverse that inverts. *)
Module StandInInv.

Definition lib : Framework := {|
  NpState := NpState StandIn.lib;
  TorchState := TorchState StandIn.lib;
  Buffers := Buffers StandIn.lib;
  Slot := Slot StandIn.lib;
  FImage := FImage StandIn.lib;
  np_random_normal := np_random_normal StandIn.lib;
  np_random_rand := np_random_rand StandIn.lib;
  torch_rfft := torch_rfft StandIn.lib;
  torch_irfft := torch_irfft StandIn.lib;
  torch_inverse := inverse3;
  vision_Image := vision_Image StandIn.lib;
  image_shape := image_shape StandIn.lib;
  image_set_flow := image_set_flow StandIn.lib;
  image_data := image_data StandIn.lib;
  vision_pad := vision_pad StandIn.lib;
  vision_crop_pad := vision_crop_pad StandIn.lib;
  vision_zoom := vision_zoom StandIn.lib;
  vision_rotate := vision_rotate StandIn.lib;
  optim_AdamW := optim_AdamW StandIn.lib;
  adamw_update := adamw_update StandIn.lib;
  clip_grad := clip_grad StandIn.lib;
  grad_accumulate := grad_accumulate StandIn.lib;
  model_forward := model_forward StandIn.lib;
  autograd := autograd StandIn.lib;
  plt_subplots := plt_subplots StandIn.lib;
  display := display StandIn.lib;
  format_2f := format_2f StandIn.lib
|}.

Definition world0 : World lib := {|
  np_rng := 0%nat : NpState lib;
  torch_rng := tt : TorchState lib;
  buffers := tt : Buffers lib;
  values := ∅;
  grads := ∅;
  req_grad := ∅;
  trace := []
|}.

End StandInInv.

(** *** The sequence of calls *)

(** The Python name of what each call invokes. *)
Definition call_name (c : call) : string :=
  match c with
  | c_np_random_normal _ _ => "np.random.normal"
  | c_np_random_rand => "np.random.rand"
  | c_np_fft_fftfreq _ => "np.fft.fftfreq"
  | c_torch_rfft => "torch.rfft"
  | c_torch_irfft _ _ => "torch.irfft"
  | c_torch_inverse => "torch.inverse"
  | c_torch_div => "Tensor.__truediv__"
  | c_vision_Image => "vision.Image"
  | c_image_data => "Image.data"
  | c_vision_pad _ => "pad"
  | c_vision_crop_pad _ _ _ => "crop_pad"
  | c_vision_zoom _ => "zoom"
  | c_vision_rotate _ => "rotate"
  | c_requires_grad _ => "requires_grad_"
  | c_optim_AdamW _ => "torch.optim.AdamW"
  | c_register_forward_hook _ => "register_forward_hook"
  | c_hook_remove _ => "hook.remove"
  | c_zero_grad => "opt.zero_grad"
  | c_model _ => "model"
  | c_backward _ => "loss.backward"
  | c_clip_grad_norm _ => "clip_grad_norm_"
  | c_opt_step => "opt.step"
  | c_clear_output => "clear_output"
  | c_plt_subplots _ _ => "plt.subplots"
  | c_ax_imshow _ _ => "ax.imshow"
  | c_ax_axis_off _ => "ax.axis"
  | c_ax_set_title _ _ => "ax.set_title"
  | c_plt_show => "plt.show"
  | c_python => "python"
  end.

(** When [m] returns, the calls it made are those named [names], in this
    order, and none of them raised. *)
Definition calls {L : Framework} {A} (m : M L A) (names : list string)
  : Prop :=
  forall w,
    match m w with
    | (Ok _, w') =>
        exists evs, trace L w' = trace L w ++ evs
                    /\ clean evs
                    /\ map (fun ev => call_name (fst ev)) evs = names
    | (Raise _, _) => True
    end.

(** The calls of [fft_to_rgb], of [lucid_transforms], of one iteration of
    the loop without debug frames, of the set-up, and of [show_rgb]. *)
Definition fft_to_rgb_names : list string :=
  ["np.fft.fftfreq"; "np.fft.fftfreq"; "torch.irfft"]%string.

Definition lucid_transforms_names : list string :=
  ["vision.Image"; "pad"; "np.random.rand"; "np.random.rand"; "crop_pad";
   "np.random.rand"; "zoom"; "np.random.rand"; "rotate";
   "np.random.rand"; "np.random.rand"; "crop_pad"; "Image.data"]%string.

Definition iteration_names : list string :=
  ["opt.zero_grad"]%string ++ fft_to_rgb_names ++ lucid_transforms_names
  ++ ["model"; "loss.backward"; "clip_grad_norm_"; "opt.step"]%string.

Definition initial_buf_names (start_image : option T4) : list string :=
  match start_image with
  | Some _ => ["vision.Image"; "Image.data"; "torch.inverse"; "torch.rfft";
               "np.fft.fftfreq"; "np.fft.fftfreq"]%string
  | None => ["np.random.normal"]%string
  end.

Definition show_rgb_names (ax : option Axes) : list string :=
  match ax with
  | Some _ => ["ax.imshow"; "ax.axis"; "ax.set_title"]%string
  | None => ["plt.subplots"; "ax.imshow"; "ax.axis"; "ax.set_title";
             "plt.show"]%string
  end.

(** The calls of a debug frame, made in iteration [i] when
    [int(steps/frames)] divides [i]. *)
Definition frame_names (steps frames : Z) (kw : kwargs) (i : Z)
  : list string :=
  if (i mod (steps / frames) =? 0)%Z
  then ["clear_output"%string] ++ fft_to_rgb_names
       ++ show_rgb_names (kw_ax kw)
  else [].

(** *** The hook *)

Definition is_hook_remove (c : call) : bool :=
  match c with
  | c_hook_remove _ => true
  | _ => false
  end.

(** [m] does not call [hook.remove()], whether it returns or raises. *)
Definition keeps_hook {L : Framework} {A} (m : M L A) : Prop :=
  forall w,
    exists evs, trace L (snd (m w)) = trace L w ++ evs
                /\ Forall (fun ev => is_hook_remove (fst ev) = false) evs.

(** * Properties *)

(** ** Lists and shapes *)

Section Lists.

Context {A : Type}.

Lemma length_tab (n : nat) (f : nat -> A) : length (tab n f) = n.
Proof. unfold tab. now rewrite length_map, length_seq. Qed.

Lemma nth_tab (n i : nat) (f : nat -> A) (d : A) :
  (i < n)%nat -> nth i (tab n f) d = f i.
Proof.
  intros Hi. unfold tab.
  rewrite (nth_indep _ d (f 0%nat)) by now rewrite length_map, length_seq.
  rewrite map_nth, seq_nth; auto.
Qed.

Lemma tab_ext (n : nat) (f g : nat -> A) :
  (forall i, (i < n)%nat -> f i = g i) -> tab n f = tab n g.
Proof.
  intros H. unfold tab. apply map_ext_in.
  intros i Hi. apply in_seq in Hi. apply H. lia.
Qed.

Lemma list_eq_tab (l : list A) (d : A) :
  l = tab (length l) (fun i => nth i l d).
Proof.
  apply (nth_ext _ _ d d).
  - now rewrite length_tab.
  - intros i Hi. now rewrite nth_tab.
Qed.

End Lists.

Lemma Forall_nth_default {A} (P : A -> Prop) (l : list A) (i : nat) (d : A) :
  Forall P l -> (i < length l)%nat -> P (nth i l d).
Proof. intros H Hi. rewrite List.Forall_forall in H. apply H, nth_In, Hi. Qed.

Lemma length_zipw {A B C} (f : A -> B -> C) l l' :
  length l = length l' -> length (zipw f l l') = length l.
Proof.
  revert l'. induction l as [|a l IH]; intros [|b l'] H; simpl in *; try lia.
  rewrite IH; lia.
Qed.

Lemma nth_zipw {A B C} (f : A -> B -> C) l l' i da db dc :
  length l = length l' -> (i < length l)%nat ->
  nth i (zipw f l l') dc = f (nth i l da) (nth i l' db).
Proof.
  revert l' i. induction l as [|a l IH]; intros [|b l'] i H Hi; simpl in *;
    try lia.
  destruct i; [reflexivity|]. apply IH; lia.
Qed.

(** ** Colour decorrelation *)

Lemma transpose2_ccn :
  transpose2 (transpose2 color_correlation_normalized) = color_correlation_normalized.
Proof. reflexivity. Qed.

Lemma shape3_3 h w (img : T3) :
  shape3 3 h w img ->
  exists c0 c1 c2,
    img = [c0; c1; c2] /\ shape2 h w c0 /\ shape2 h w c1 /\ shape2 h w c2.
Proof.
  intros [Hl Hf]. destruct img as [|c0 [|c1 [|c2 [|]]]]; simpl in Hl; try discriminate.
  exists c0, c1, c2. inversion Hf as [|? ? H0 Hf1]; subst. inversion Hf1 as [|? ? H1 Hf2]; subst.
  inversion Hf2; subst. auto.
Qed.

Lemma hd_shape2 h w (c : T2) : (0 < h)%nat -> shape2 h w c -> length c = h /\ length (hd [] c) = w.
Proof.
  intros Hh [Hl Hf]. split; auto. destruct c; simpl in *; [lia|]. inversion Hf; auto.
Qed.

Lemma permute_120_spec h w (img : T3) :
  (0 < h)%nat -> shape3 3 h w img ->
  permute_120 img = tab h (fun k => tab w (fun l => pixel [img] 0 k l)).
Proof.
  intros Hh Hs. destruct (shape3_3 _ _ _ Hs) as (c0 & c1 & c2 & -> & H0 & H1 & H2).
  unfold permute_120. destruct (hd_shape2 _ _ _ Hh H0) as [E1 E2].
  simpl hd. rewrite E1, E2. reflexivity.
Qed.

Lemma map_tab {A B} (g : A -> B) n (f : nat -> A) : map g (tab n f) = tab n (fun i => g (f i)).
Proof. unfold tab. now rewrite map_map. Qed.

Lemma hd_tab {A} n (f : nat -> A) d : (0 < n)%nat -> hd d (tab n f) = f 0%nat.
Proof. destruct n; [lia|]. reflexivity. Qed.

Lemma zipw_tab {A B C} (g : A -> B -> C) n u v :
  zipw g (tab n u) (tab n v) = tab n (fun i => g (u i) (v i)).
Proof.
  unfold tab. generalize 0%nat. induction n as [|n IH]; intros s; simpl; [reflexivity|].
  now rewrite IH.
Qed.

Lemma ccn_rows : exists r0 r1 r2 : R*R*R,
  color_correlation_normalized =
    [ [fst (fst r0); snd (fst r0); snd r0]; [fst (fst r1); snd (fst r1); snd r1];
      [fst (fst r2); snd (fst r2); snd r2] ].
Proof.
  unfold color_correlation_normalized, color_correlation_svd_sqrt, map2. simpl map.
  eexists (_, _, _), (_, _, _), (_, _, _). simpl. reflexivity.
Qed.

Lemma lucid_colorspace_to_rgb_images t :
  lucid_colorspace_to_rgb t = map lucid_image t.
Proof.
  unfold lucid_colorspace_to_rgb, permute_0312, matmul, map3, permute_0231.
  now rewrite !map_map.
Qed.

Lemma lucid_image_spec h w img :
  (0 < h)%nat -> (0 < w)%nat -> shape3 3 h w img ->
  lucid_image img =
    tab 3 (fun j => tab h (fun k => tab w (fun l =>
      dot (pixel [img] 0 k l) (nth j color_correlation_normalized [])))).
Proof.
  intros Hh Hw Hs. unfold lucid_image.
  rewrite (permute_120_spec h w) by assumption.
  rewrite transpose2_ccn. unfold map2. rewrite map_tab.
  unfold permute_201.
  rewrite hd_tab by assumption. rewrite map_tab, hd_tab by assumption.
  rewrite length_map.
  destruct ccn_rows as (r0 & r1 & r2 & E). rewrite E. simpl length.
  apply tab_ext; intros j Hj. unfold map2. rewrite map_tab.
  apply tab_ext; intros k Hk. rewrite !map_tab.
  apply tab_ext; intros l Hl.
  destruct j as [|[|[|j]]]; try lia; reflexivity.
Qed.

Lemma shape2_zipw g h w (c d : T2) :
  shape2 h w c -> shape2 h w d -> shape2 h w (zipw (zipw g) c d).
Proof.
  intros [Hc Fc] [Hd Fd]. split.
  - rewrite length_zipw; lia.
  - subst h. revert d Hd Fd. induction c as [|x c IH]; intros [|y d] Hd Fd; simpl in *;
      try discriminate; constructor.
    + inversion Fc; inversion Fd; subst. unfold shape1 in *. rewrite length_zipw; lia.
    + inversion Fc; inversion Fd; subst. apply IH; auto.
Qed.

Lemma nth2_zipw g h w (c d : T2) k l :
  shape2 h w c -> shape2 h w d -> (k < h)%nat -> (l < w)%nat ->
  nth l (nth k (zipw (zipw g) c d) []) 0 =
  g (nth l (nth k c []) 0) (nth l (nth k d []) 0).
Proof.
  intros [Hc Fc] [Hd Fd] Hk Hl.
  rewrite (nth_zipw _ _ _ _ [] [] []) by lia.
  assert (length (nth k c []) = w) by (apply (Forall_nth_default (shape1 w)); auto; lia).
  assert (length (nth k d []) = w) by (apply (Forall_nth_default (shape1 w)); auto; lia).
  rewrite (nth_zipw _ _ _ _ 0 0 0) by lia. reflexivity.
Qed.

Lemma lucid_image_linear a b h w (i1 i2 : T3) :
  (0 < h)%nat -> (0 < w)%nat -> shape3 3 h w i1 -> shape3 3 h w i2 ->
  lucid_image (zipw (zipw (zipw (fun x y => a * x + b * y))) i1 i2) =
  zipw (zipw (zipw (fun x y => a * x + b * y))) (lucid_image i1) (lucid_image i2).
Proof.
  intros Hh Hw H1 H2.
  destruct (shape3_3 _ _ _ H1) as (c0 & c1 & c2 & -> & Hc0 & Hc1 & Hc2).
  destruct (shape3_3 _ _ _ H2) as (d0 & d1 & d2 & -> & Hd0 & Hd1 & Hd2).
  set (g := fun x y => a * x + b * y).
  assert (Hz : shape3 3 h w (zipw (zipw (zipw g)) [c0; c1; c2] [d0; d1; d2])).
  { simpl. split; [reflexivity|].
    repeat (constructor; [apply shape2_zipw; assumption|]). constructor. }
  rewrite (lucid_image_spec h w _ Hh Hw Hz), (lucid_image_spec h w _ Hh Hw H1),
    (lucid_image_spec h w _ Hh Hw H2).
  rewrite zipw_tab. apply tab_ext; intros j Hj.
  rewrite zipw_tab. apply tab_ext; intros k Hk.
  rewrite zipw_tab. apply tab_ext; intros l Hl.
  destruct ccn_rows as (r0 & r1 & r2 & E). rewrite E.
  unfold pixel. simpl nth. simpl map.
  rewrite !(nth2_zipw g h w) by assumption.
  destruct j as [|[|[|j]]]; try lia; unfold dot, g; simpl; ring.
Qed.

Lemma lucid_linear a b n h w (t1 t2 : T4) :
  (0 < h)%nat -> (0 < w)%nat -> shape4 n 3 h w t1 -> shape4 n 3 h w t2 ->
  lucid_colorspace_to_rgb (axpby4 a t1 b t2) =
  axpby4 a (lucid_colorspace_to_rgb t1) b (lucid_colorspace_to_rgb t2).
Proof.
  intros Hh Hw. rewrite !lucid_colorspace_to_rgb_images. unfold axpby4.
  revert t1 t2.
  induction n as [|n IH]; intros [|x t1] [|y t2] [L1 F1] [L2 F2]; simpl in *;
    try discriminate; try reflexivity.
  inversion F1; inversion F2; subst.
  rewrite (lucid_image_linear a b h w) by assumption.
  f_equal. apply IH; split; auto.
Qed.

Lemma column_norms :
  norm_axis0 color_correlation_svd_sqrt = [sqrt 0.2134; sqrt 0.0162; sqrt 0.0038].
Proof.
  unfold norm_axis0, color_correlation_svd_sqrt. simpl.
  repeat (f_equal; try lra).
Qed.

Lemma max_column_norm :
  np_max (norm_axis0 color_correlation_svd_sqrt) = sqrt 0.2134.
Proof.
  rewrite column_norms. simpl.
  assert (sqrt 0.0162 <= sqrt 0.2134) by (apply sqrt_le_1_alt; lra).
  assert (sqrt 0.0038 <= sqrt 0.2134) by (apply sqrt_le_1_alt; lra).
  rewrite (Rmax_left (sqrt 0.2134) (sqrt 0.0162)) by assumption.
  now rewrite Rmax_left.
Qed.

Lemma lucid_entry n h w (t : T4) i j k l :
  (0 < h)%nat -> (0 < w)%nat -> shape4 n 3 h w t ->
  (i < n)%nat -> (j < 3)%nat -> (k < h)%nat -> (l < w)%nat ->
  nth4 (lucid_colorspace_to_rgb t) i j k l =
  dot (pixel t i k l) (nth j color_correlation_normalized []).
Proof.
  intros Hh Hw [Hn Hf] Hi Hj Hk Hl. unfold nth4.
  rewrite lucid_colorspace_to_rgb_images.
  rewrite (nth_indep _ [] (lucid_image [])) by (rewrite length_map; lia).
  rewrite map_nth.
  assert (Hs : shape3 3 h w (nth i t [])) by (apply Forall_nth_default; auto; lia).
  rewrite (lucid_image_spec h w) by assumption.
  now rewrite !nth_tab by assumption.
Qed.

(** C5: [lucid_colorspace_to_rgb] is linear on tensors of one shape
    (n, 3, h, w); each output pixel is the product of the input pixel's
    channel vector with the normalized colour-correlation matrix; and that
    matrix is the constant 3x3 matrix divided by the largest of its three
    column norms, which is the norm of its first column. *)
Theorem lucid_colorspace_to_rgb_linear (a b : R) (n h w : nat) (t1 t2 : T4) :
  (0 < h)%nat -> (0 < w)%nat ->
  shape4 n 3 h w t1 -> shape4 n 3 h w t2 ->
  lucid_colorspace_to_rgb (axpby4 a t1 b t2) =
    axpby4 a (lucid_colorspace_to_rgb t1) b (lucid_colorspace_to_rgb t2)
  /\ (forall i j k l, (i < n)%nat -> (j < 3)%nat -> (k < h)%nat -> (l < w)%nat ->
        nth4 (lucid_colorspace_to_rgb t1) i j k l =
        dot (pixel t1 i k l) (nth j color_correlation_normalized []))
  /\ color_correlation_normalized =
       map2 (fun x => x / sqrt 0.2134) color_correlation_svd_sqrt
  /\ norm_axis0 color_correlation_svd_sqrt =
       [sqrt 0.2134; sqrt 0.0162; sqrt 0.0038]
  /\ Forall (fun c => c <= sqrt 0.2134) (norm_axis0 color_correlation_svd_sqrt).
Proof.
  intros Hh Hw H1 H2. split; [|split; [|split; [|split]]].
  - now apply (lucid_linear a b n h w).
  - intros i j k l Hi Hj Hk Hl. now apply (lucid_entry n h w).
  - unfold color_correlation_normalized. now rewrite max_column_norm.
  - apply column_norms.
  - rewrite column_norms.
    constructor; [apply Rle_refl|].
    constructor; [apply sqrt_le_1_alt; lra|].
    constructor; [apply sqrt_le_1_alt; lra|]. constructor.
Qed.

Lemma lucid_colorspace_to_rgb_linear_witness :
  lucid_colorspace_to_rgb
    (axpby4 2 [[[[1]]; [[2]]; [[3]]]] 3 [[[[4]]; [[5]]; [[6]]]]) =
  axpby4 2 (lucid_colorspace_to_rgb [[[[1]]; [[2]]; [[3]]]])
         3 (lucid_colorspace_to_rgb [[[[4]]; [[5]]; [[6]]]]).
Proof.
  refine (proj1 (lucid_colorspace_to_rgb_linear 2 3 1 1 1
                   [[[[1]]; [[2]]; [[3]]]] [[[[4]]; [[5]]; [[6]]]] _ _ _ _));
    try lia; repeat (split || constructor).
Defined.

(** ** The Fourier parameterization *)

Lemma length_py_range lo hi : length (py_range lo hi) = Z.to_nat (hi - lo).
Proof. unfold py_range. now rewrite length_map, length_seq. Qed.

Lemma length_np_fftfreq n d : length (np_fftfreq n d) = n.
Proof.
  unfold np_fftfreq. rewrite length_map, length_app, !length_py_range.
  destruct n as [|n]; [reflexivity|].
  Z.div_mod_to_equations. lia.
Qed.

Lemma map_as_tab {A B} (f : A -> B) (l : list A) (d : A) :
  map f l = tab (length l) (fun i => f (nth i l d)).
Proof. rewrite (list_eq_tab l d) at 1. apply map_tab. Qed.

Lemma bcast_same {A B C} (f : A -> B -> C) l l' :
  length l = length l' -> bcast f l l' = zipw f l l'.
Proof.
  destruct l as [|a [|a' l]], l' as [|b [|b' l']]; simpl; intros H;
    try discriminate; reflexivity.
Qed.

Lemma bcast_r1 {A B C} (f : A -> B -> C) l b :
  bcast f l [b] = map (fun a => f a b) l.
Proof. destruct l as [|a [|a' l]]; reflexivity. Qed.

Lemma zipw_tab_l {A B C} (g : A -> B -> C) n u l d :
  length l = n -> zipw g (tab n u) l = tab n (fun i => g (u i) (nth i l d)).
Proof.
  intros H. rewrite (list_eq_tab l d) at 1. rewrite H. apply zipw_tab.
Qed.

Lemma zipw_tab_r {A B C} (g : A -> B -> C) n u l d :
  length l = n -> zipw g l (tab n u) = tab n (fun i => g (nth i l d) (u i)).
Proof.
  intros H. rewrite (list_eq_tab l d) at 1. rewrite H. apply zipw_tab.
Qed.

Lemma shape3_rows n m k (p : T3) y :
  shape3 n m k p -> (y < n)%nat -> length (nth y p []) = m.
Proof.
  intros [Hl Hf] Hy.
  apply (Forall_nth_default (shape2 m k) p y []); [assumption|lia].
Qed.

Lemma shape3_cells n m k (p : T3) y x :
  shape3 n m k p -> (y < n)%nat -> (x < m)%nat ->
  length (nth x (nth y p []) []) = k.
Proof.
  intros [Hl Hf] Hy Hx.
  assert (H : shape2 m k (nth y p [])) by (apply Forall_nth_default; [assumption|lia]).
  destruct H as [Hm Hk].
  apply (Forall_nth_default (shape1 k) _ x []); [assumption|lia].
Qed.

Lemma scaled_planes op s t : scaled op s t = map2 (scaled_plane op s) t.
Proof. reflexivity. Qed.

Lemma mul_plane n m k (s : nat -> nat -> R) (p : T3) :
  shape3 n m k p ->
  bcast (bcast (bcast Rmult)) (tab n (fun y => tab m (fun x => [s y x]))) p =
  scaled_plane (fun v c => c * v) s p.
Proof.
  intros Hp. pose proof Hp as [Hn _].
  rewrite bcast_same by now rewrite length_tab.
  rewrite (zipw_tab_l _ _ _ _ []) by assumption.
  unfold scaled_plane. rewrite Hn. apply tab_ext; intros y Hy.
  pose proof (shape3_rows _ _ _ _ _ Hp Hy) as Hm.
  rewrite bcast_same by now rewrite length_tab.
  rewrite (zipw_tab_l _ _ _ _ []) by assumption.
  rewrite Hm. apply tab_ext; intros x Hx. reflexivity.
Qed.

Lemma div_plane (op : R -> R -> R) n m k (s : nat -> nat -> R) (p : T3) :
  shape3 n m k p ->
  bcast (bcast (bcast op)) p (tab n (fun y => tab m (fun x => [s y x]))) =
  scaled_plane op s p.
Proof.
  intros Hp. pose proof Hp as [Hn _].
  rewrite bcast_same by now rewrite length_tab.
  rewrite (zipw_tab_r _ _ _ _ []) by assumption.
  unfold scaled_plane. rewrite Hn. apply tab_ext; intros y Hy.
  pose proof (shape3_rows _ _ _ _ _ Hp Hy) as Hm.
  rewrite bcast_same by now rewrite length_tab.
  rewrite (zipw_tab_r _ _ _ _ []) by assumption.
  rewrite Hm. apply tab_ext; intros x Hx. apply bcast_r1.
Qed.

Lemma shape3_scaled_plane op s n m k p :
  shape3 n m k p -> shape3 n m k (scaled_plane op s p).
Proof.
  intros Hp. pose proof Hp as [Hn _]. unfold scaled_plane. split.
  - now rewrite length_tab.
  - rewrite Hn. unfold tab. apply Forall_map, List.Forall_forall.
    intros y Hy. apply in_seq in Hy.
    assert (Hm : length (nth y p []) = m) by (apply (shape3_rows n m k); [assumption|lia]).
    rewrite Hm. split; [now rewrite length_map, length_seq|].
    apply Forall_map, List.Forall_forall. intros x Hx. apply in_seq in Hx.
    unfold shape1. rewrite length_map. apply (shape3_cells n m k); [assumption|lia|lia].
Qed.

Lemma nth_scaled_plane op s n m k p y x :
  shape3 n m k p -> (y < n)%nat -> (x < m)%nat ->
  nth x (nth y (scaled_plane op s p) []) [] =
  map (fun v => op v (s y x)) (nth x (nth y p []) []).
Proof.
  intros Hp Hy Hx. pose proof Hp as [Hn _]. unfold scaled_plane.
  rewrite Hn, nth_tab by assumption.
  rewrite (shape3_rows _ _ _ _ _ Hp Hy). now rewrite nth_tab.
Qed.

Lemma shape3_eq n m k (p q : T3) :
  shape3 n m k p -> shape3 n m k q ->
  (forall y x, (y < n)%nat -> (x < m)%nat ->
     nth x (nth y p []) [] = nth x (nth y q []) []) ->
  p = q.
Proof.
  intros Hp Hq H. pose proof Hp as [Hn _]. pose proof Hq as [Hn' _].
  apply (nth_ext _ _ [] []); [congruence|]. intros y Hy. rewrite Hn in Hy.
  apply (nth_ext _ _ [] []).
  - now rewrite (shape3_rows _ _ _ _ _ Hp Hy), (shape3_rows _ _ _ _ _ Hq Hy).
  - intros x Hx. rewrite (shape3_rows _ _ _ _ _ Hp Hy) in Hx. now apply H.
Qed.

Lemma scaled_plane_cancel s n m k p :
  (forall y x, s y x <> 0) -> shape3 n m k p ->
  scaled_plane (fun v c => c * v) s (scaled_plane Rdiv s p) = p.
Proof.
  intros Hs Hp. pose proof (shape3_scaled_plane Rdiv s _ _ _ _ Hp) as Hq.
  apply (shape3_eq n m k); [now apply shape3_scaled_plane|assumption|].
  intros y x Hy Hx.
  rewrite (nth_scaled_plane _ _ n m k), (nth_scaled_plane _ _ n m k) by assumption.
  rewrite map_map. rewrite <- (map_id (nth x (nth y p []) [])) at 2.
  apply map_ext. intros v. field. apply Hs.
Qed.


Lemma hd_Forall {A} (P : A -> Prop) (l : list A) d :
  (0 < length l)%nat -> Forall P l -> P (hd d l).
Proof. intros Hl Hf. destruct l; simpl in *; [lia|]. now inversion Hf. Qed.

Lemma map2_ext_shape5 (F G : T3 -> T3) b c n m k (t : T5) :
  shape5 b c n m k t ->
  (forall p, shape3 n m k p -> F p = G p) ->
  map2 F t = map2 G t.
Proof.
  intros [_ Hf] H. unfold map2. apply map_ext_in. intros t0 H0.
  rewrite List.Forall_forall in Hf. destruct (Hf _ H0) as [_ Hf0].
  apply map_ext_in. intros p Hp. rewrite List.Forall_forall in Hf0.
  apply H, Hf0, Hp.
Qed.

Lemma bcast5_mul_scale b c n k p (t : T5) :
  shape5 b c n (n / 2 + 1) k t ->
  bcast5 Rmult (fft_scale n p) t =
  scaled (fun v s => s * v) (spectral_scale n p) t.
Proof.
  intros Ht. rewrite scaled_planes. unfold bcast5, fft_scale. cbn [bcast].
  apply (map2_ext_shape5 _ _ b c n (n / 2 + 1) k); [assumption|].
  intros pl Hpl. now apply (mul_plane n (n / 2 + 1) k).
Qed.

Lemma bcast5_div_scale (op : R -> R -> R) b c n k p (t : T5) :
  shape5 b c n (n / 2 + 1) k t ->
  bcast5 op t (fft_scale n p) =
  scaled op (spectral_scale n p) t.
Proof.
  intros Ht. rewrite scaled_planes. unfold bcast5, fft_scale.
  rewrite bcast_r1.
  transitivity (map2 (fun pl => bcast (bcast (bcast op)) pl
     (tab n (fun y => tab (n / 2 + 1) (fun x => [spectral_scale n p y x])))) t).
  { unfold map2. apply map_ext. intros t0. apply bcast_r1. }
  apply (map2_ext_shape5 _ _ b c n (n / 2 + 1) k); [assumption|].
  intros pl Hpl. now apply (div_plane op n (n / 2 + 1) k).
Qed.

Lemma shape5_scaled op s b c n m k (t : T5) :
  shape5 b c n m k t -> shape5 b c n m k (scaled op s t).
Proof.
  intros [Hb Hf]. rewrite scaled_planes. unfold map2. split.
  - now rewrite length_map.
  - apply Forall_map. eapply List.Forall_impl; [|exact Hf].
    intros t0 [Hc Hf0]. split; [now rewrite length_map|].
    apply Forall_map. eapply List.Forall_impl; [|exact Hf0].
    intros pl. apply shape3_scaled_plane.
Qed.

Lemma scaled_cancel s b c n m k (t : T5) :
  (forall y x, s y x <> 0) -> shape5 b c n m k t ->
  scaled (fun v c => c * v) s (scaled Rdiv s t) = t.
Proof.
  intros Hs Ht. rewrite !scaled_planes. unfold map2. rewrite map_map.
  rewrite <- (map_id t) at 2. destruct Ht as [_ Hf].
  apply map_ext_in. intros t0 H0. rewrite map_map.
  rewrite <- (map_id t0) at 2. rewrite List.Forall_forall in Hf.
  destruct (Hf _ H0) as [_ Hf0]. rewrite List.Forall_forall in Hf0.
  apply map_ext_in. intros pl Hpl.
  apply (scaled_plane_cancel s n m k); [assumption|]. now apply Hf0.
Qed.

Lemma rpow_half_pos : 0 < rpow 0.5 0.5.
Proof.
  unfold rpow. destruct (Rlt_dec 0 0.5) as [_|H]; [|lra].
  unfold Rpower. apply exp_pos.
Qed.

Lemma np_power_fin x y : 0 <= y -> np_power x y = Fin (rpow x y).
Proof.
  intros Hy. unfold np_power. destruct (Rlt_dec 0 x); [reflexivity|].
  destruct (Rlt_dec y 0); [lra|reflexivity].
Qed.

Lemma np_power_zero y : y < 0 -> np_power 0 y = PInf.
Proof.
  intros Hy. unfold np_power. destruct (Rlt_dec 0 0); [lra|].
  destruct (Rlt_dec y 0); [reflexivity|lra].
Qed.

(** For a non-negative power the scale is the quotient the script
    writes. *)
Lemma spectral_scale_eq n p y x :
  0 <= p ->
  spectral_scale n p y x =
  1 / Rmax (rpow (nth x (np_fftfreq n (rpow 0.5 0.5)) 0 *
                  nth x (np_fftfreq n (rpow 0.5 0.5)) 0 +
                  nth y (np_fftfreq n (rpow 0.5 0.5)) 0 *
                  nth y (np_fftfreq n (rpow 0.5 0.5)) 0) p)
           (1 / (INR n * rpow 0.5 0.5)).
Proof.
  intros Hp. unfold spectral_scale. cbv zeta. now rewrite np_power_fin.
Qed.

Lemma np_fftfreq_0 (n : nat) (d : R) :
  (0 < n)%nat -> nth 0 (np_fftfreq n d) 0 = 0.
Proof.
  intros Hn. unfold np_fftfreq. cbv zeta.
  assert (0 < (Z.of_nat n - 1) / 2 + 1)%Z as HN.
  { assert (0 <= (Z.of_nat n - 1) / 2)%Z by (apply Z.div_pos; lia). lia. }
  unfold py_range at 1.
  replace (Z.to_nat ((Z.of_nat n - 1) / 2 + 1 - 0))
    with (S (Z.to_nat ((Z.of_nat n - 1) / 2))) by lia.
  cbn [seq map app nth]. change (0 + Z.of_nat 0)%Z with 0%Z.
  apply Rmult_0_l.
Qed.

(** For a negative power the scale is 0 at the zero frequency. *)
Lemma spectral_scale_zero n p :
  (0 < n)%nat -> p < 0 -> spectral_scale n p 0 0 = 0.
Proof.
  intros Hn Hp. unfold spectral_scale. cbv zeta.
  rewrite np_fftfreq_0 by assumption.
  replace (0 * 0 + 0 * 0) with 0 by ring.
  now rewrite np_power_zero.
Qed.

Lemma spectral_scale_pos n p y x :
  (0 < n)%nat -> 0 <= p -> 0 < spectral_scale n p y x.
Proof.
  intros Hn Hp. rewrite spectral_scale_eq by assumption.
  assert (Hd := rpow_half_pos).
  assert (0 < INR n) by (apply lt_0_INR; lia).
  assert (0 < 1 / (INR n * rpow 0.5 0.5)).
  { apply Rdiv_lt_0_compat; [lra|]. now apply Rmult_lt_0_compat. }
  apply Rdiv_lt_0_compat; [lra|].
  eapply Rlt_le_trans; [eassumption|apply Rmax_r].
Qed.

Lemma shape5_size b c n m k (t : T5) :
  (0 < b)%nat -> (0 < c)%nat -> shape5 b c n m k t ->
  length (hd [] (hd [] t)) = n.
Proof.
  intros Hb Hc [Lb Hf].
  assert (H4 : shape4 c n m k (hd [] t)) by (apply hd_Forall; [lia|assumption]).
  destruct H4 as [Lc Hf4].
  assert (H3 : shape3 n m k (hd [] (hd [] t))) by (apply hd_Forall; [lia|assumption]).
  apply H3.
Qed.

Lemma shape4_size b c n m (t : T4) :
  (0 < b)%nat -> (0 < c)%nat -> (0 < n)%nat -> shape4 b c n m t ->
  length (hd [] (hd [] (hd [] t))) = m.
Proof.
  intros Hb Hc Hn [Lb Hf].
  assert (H3 : shape3 c n m (hd [] t)) by (apply hd_Forall; [lia|assumption]).
  destruct H3 as [Lc Hf3].
  assert (H2 : shape2 n m (hd [] (hd [] t))) by (apply hd_Forall; [lia|assumption]).
  destruct H2 as [Ln Hf2].
  apply (hd_Forall (shape1 m)); [lia|assumption].
Qed.

(** *** Division by the scale *)

Lemma in_zipw {A B C} (f : A -> B -> C) l l' z :
  In z (zipw f l l') -> exists a b, In a l /\ In b l' /\ z = f a b.
Proof.
  revert l'. induction l as [|a l IH]; intros [|b l'] H; cbn in H;
    try contradiction.
  destruct H as [<-|H].
  - exists a, b. cbn. auto.
  - destruct (IH _ H) as (a' & b' & ? & ? & ?). exists a', b'. cbn. auto.
Qed.

Lemma in_bcast {A B C} (f : A -> B -> C) l l' z :
  In z (bcast f l l') -> exists a b, In a l /\ In b l' /\ z = f a b.
Proof.
  intros H.
  assert (Hm1 : forall a, In z (map (f a) l') -> In a l ->
                          exists a b, In a l /\ In b l' /\ z = f a b).
  { intros a Hz Ha. apply in_map_iff in Hz as (b & <- & Hb). eauto. }
  assert (Hm2 : forall b, In z (map (fun a => f a b) l) -> In b l' ->
                          exists a b, In a l /\ In b l' /\ z = f a b).
  { intros b Hz Hb. apply in_map_iff in Hz as (a & <- & Ha). eauto. }
  destruct l as [|a [|a' l]].
  - destruct l' as [|b [|b' l']]; cbn in H; contradiction.
  - apply (Hm1 a); [exact H|now left].
  - destruct l' as [|b [|b' l']].
    + cbn in H. contradiction.
    + apply (Hm2 b); [exact H|now left].
    + now apply in_zipw.
Qed.

Lemma in_flat5 s (t : T5) :
  In s (flat5 t) <->
  exists a b c d, In a t /\ In b a /\ In c b /\ In d c /\ In s d.
Proof.
  unfold flat5. split.
  - intros H. apply in_concat in H as (d & Hd & Hs).
    apply in_concat in Hd as (c & Hc & Hd).
    apply in_concat in Hc as (b & Hb & Hc).
    apply in_concat in Hb as (a & Ha & Hb).
    exists a, b, c, d. auto.
  - intros (a & b & c & d & Ha & Hb & Hc & Hd & Hs).
    apply in_concat. exists d. split; [|exact Hs].
    apply in_concat. exists c. split; [|exact Hd].
    apply in_concat. exists b. split; [|exact Hc].
    apply in_concat. exists a. split; [exact Ha|exact Hb].
Qed.

(** The divisors that meet the entries of [t] are entries of [scale]. *)
Lemma divisors_in_scale (t scale : T5) s :
  In s (flat5 (bcast5 (fun _ v => v) t scale)) -> In s (flat5 scale).
Proof.
  rewrite !in_flat5. intros (a & b & c & d & Ha & Hb & Hc & Hd & Hs).
  unfold bcast5 in Ha.
  apply in_bcast in Ha as (a1 & a2 & _ & Ha2 & ->).
  apply in_bcast in Hb as (b1 & b2 & _ & Hb2 & ->).
  apply in_bcast in Hc as (c1 & c2 & _ & Hc2 & ->).
  apply in_bcast in Hd as (d1 & d2 & _ & Hd2 & ->).
  apply in_bcast in Hs as (s1 & s2 & _ & Hs2 & ->).
  exists a2, b2, c2, d2. auto.
Qed.

Lemma true_divide_nonzero (t scale : T5) :
  (forall s, In s (flat5 scale) -> s <> 0) ->
  true_divide t scale = Ok (bcast5 Rdiv t scale).
Proof.
  intros H. unfold true_divide.
  destruct (existsb _ _) eqn:E; [|reflexivity].
  apply existsb_exists in E as (s & Hs & E).
  destruct (Req_dec_T s 0) as [E0|]; [|discriminate].
  exfalso. apply (H s); [|exact E0]. eapply divisors_in_scale, Hs.
Qed.

Lemma true_divide_zero (t scale : T5) :
  In 0 (flat5 (bcast5 (fun _ v => v) t scale)) ->
  true_divide t scale = Raise NonFinite.
Proof.
  intros H. unfold true_divide.
  destruct (existsb _ _) eqn:E; [reflexivity|].
  assert (existsb (fun s => if Req_dec_T s 0 then true else false)
            (flat5 (bcast5 (fun _ v => v) t scale)) = true) as E'.
  { apply existsb_exists. exists 0. split; [exact H|].
    destruct (Req_dec_T 0 0); [reflexivity|contradiction]. }
  rewrite E' in E. discriminate E.
Qed.

Lemma in_fft_scale n p s :
  In s (flat5 (fft_scale n p)) -> exists y x, s = spectral_scale n p y x.
Proof.
  rewrite in_flat5. intros (a & b & c & d & Ha & Hb & Hc & Hd & Hs).
  unfold fft_scale in Ha. destruct Ha as [<-|[]]. destruct Hb as [<-|[]].
  unfold tab in Hc. apply in_map_iff in Hc as (y & <- & _).
  apply in_map_iff in Hd as (x & <- & _).
  destruct Hs as [<-|[]]. eauto.
Qed.

(** In a non-empty buffer scaled by [s], an entry is [op v (s 0 0)]. *)
Lemma scaled_origin (op : R -> R -> R) s b c n m k (t : T5) :
  (0 < b)%nat -> (0 < c)%nat -> (0 < n)%nat -> (0 < m)%nat -> (0 < k)%nat ->
  shape5 b c n m k t ->
  exists v, In (op v (s 0%nat 0%nat)) (flat5 (scaled op s t)).
Proof.
  intros Hb Hc Hn Hm Hk [Lb Hf].
  destruct t as [|t0 t]; [cbn in Lb; lia|].
  inversion Hf as [|? ? H4 _]; subst. destruct H4 as [Lc Hf0].
  destruct t0 as [|pl t0]; [cbn in Lc; lia|].
  inversion Hf0 as [|? ? Hpl _]; subst.
  pose proof Hpl as [Ln Hf1].
  destruct pl as [|row pl]; [cbn in Ln; lia|].
  inversion Hf1 as [|? ? H2 _]; subst. destruct H2 as [Lm Hf2].
  destruct row as [|cell row]; [cbn in Lm; lia|].
  inversion Hf2 as [|? ? Lk _]; subst. unfold shape1 in Lk.
  destruct cell as [|v cell]; [cbn in Lk; lia|].
  exists v. apply in_flat5.
  exists (map (scaled_plane op s) ((((v :: cell) :: row) :: pl) :: t0)).
  exists (scaled_plane op s (((v :: cell) :: row) :: pl)).
  exists (nth 0 (scaled_plane op s (((v :: cell) :: row) :: pl)) []).
  exists (nth 0 (nth 0 (scaled_plane op s (((v :: cell) :: row) :: pl)) []) []).
  split; [now left|]. split; [now left|].
  pose proof (shape3_scaled_plane op s _ _ _ _ Hpl) as [Ln' Hf'].
  split; [apply nth_In; lia|].
  split.
  { apply nth_In.
    rewrite (shape3_rows _ _ _ _ 0 (shape3_scaled_plane op s _ _ _ _ Hpl))
      by lia.
    lia. }
  rewrite (nth_scaled_plane op s _ _ _ _ 0 0 Hpl) by lia.
  cbn [nth map]. now left.
Qed.

Section FFT.
Context (L : Framework).

Lemma fftfreq_run n d (w : World L) :
  (0 < n)%nat ->
  fftfreq L n d w = (Ok (np_fftfreq n d), log L (c_np_fft_fftfreq n) None w).
Proof.
  intros Hn. unfold fftfreq, lib. destruct n; [lia|]. reflexivity.
Qed.

Lemma half_le n : (0 < n)%nat -> (n / 2 + 1 <= n)%nat.
Proof.
  intros Hn. pose proof (Nat.div_mod_eq n 2).
  pose proof (Nat.mod_upper_bound n 2 ltac:(lia)).
  destruct (Nat.eq_dec n 1%nat) as [->|]; [reflexivity|]. lia.
Qed.


Lemma get_fft_scale_run n kw (w : World L) :
  (0 < n)%nat ->
  get_fft_scale L n kw w =
  (Ok (fft_scale n (decay_power kw)),
   log L (c_np_fft_fftfreq n) None (log L (c_np_fft_fftfreq n) None w)).
Proof.
  intros Hn. unfold get_fft_scale. cbv [mbind M_bind bind].
  rewrite fftfreq_run by assumption. rewrite fftfreq_run by assumption.
  cbv [mret M_ret ret]. f_equal. f_equal. unfold fft_scale. f_equal. f_equal.
  unfold map2. rewrite !map_map. rewrite (map_as_tab _ _ 0), length_np_fftfreq.
  apply tab_ext; intros y Hy. rewrite !map_map.
  rewrite (map_as_tab _ _ 0).
  rewrite length_firstn, length_np_fftfreq, Nat.min_l by now apply half_le.
  apply tab_ext; intros x Hx.
  unfold spectral_scale. cbv zeta.
  rewrite nth_firstn.
  assert ((x <? n / 2 + 1)%nat = true) as -> by (apply Nat.ltb_lt; lia).
  reflexivity.
Qed.

Lemma fft_to_rgb_run b c n kw (t : T5) (w : World L) :
  (0 < b)%nat -> (0 < c)%nat -> (0 < n)%nat ->
  shape5 b c n (n / 2 + 1) 2 t ->
  let t' := scaled (fun v s => s * v) (spectral_scale n (decay_power kw)) t in
  fft_to_rgb L t kw w =
  (torch_irfft L t' (n, n),
   log L (c_torch_irfft n n) (exn_of (torch_irfft L t' (n, n)))
       (log L (c_np_fft_fftfreq n) None (log L (c_np_fft_fftfreq n) None w))).
Proof.
  intros Hb Hc Hn Ht t'. unfold fft_to_rgb.
  rewrite (shape5_size b c n (n / 2 + 1) 2) by assumption.
  cbv [mbind M_bind bind]. rewrite get_fft_scale_run by assumption.
  unfold lib. now rewrite (bcast5_mul_scale b c n 2).
Qed.

(** With a non-negative [decay_power] no entry of the scale is zero, and
    the division returns the quotient. *)
Lemma tensor_div_run n p (t : T5) (w : World L) :
  (0 < n)%nat -> 0 <= p ->
  tensor_div L t (fft_scale n p) w = (Ok (bcast5 Rdiv t (fft_scale n p)), w).
Proof.
  intros Hn Hp. unfold tensor_div. rewrite true_divide_nonzero; [reflexivity|].
  intros s Hs. apply in_fft_scale in Hs as (y & x & ->).
  apply Rgt_not_eq. now apply spectral_scale_pos.
Qed.

(** With a negative [decay_power] a buffer of the script's shape meets the
    zero of the scale. *)
Lemma tensor_div_zero b c n k p (t : T5) (w : World L) :
  (0 < b)%nat -> (0 < c)%nat -> (0 < n)%nat -> (0 < k)%nat -> p < 0 ->
  shape5 b c n (n / 2 + 1) k t ->
  tensor_div L t (fft_scale n p) w =
  (Raise NonFinite, log L c_torch_div (Some NonFinite) w).
Proof.
  intros Hb Hc Hn Hk Hp Ht. unfold tensor_div.
  rewrite true_divide_zero; [reflexivity|].
  rewrite (bcast5_div_scale _ b c n k) by assumption.
  destruct (scaled_origin (fun _ v => v) (spectral_scale n p)
              b c n (n / 2 + 1) k t) as (v & Hv); try assumption; [lia|].
  cbv beta in Hv. now rewrite spectral_scale_zero in Hv.
Qed.

Lemma rgb_to_fft_run b c n kw (t : T4) (f : T5) (w : World L) :
  (0 < b)%nat -> (0 < c)%nat -> (0 < n)%nat -> 0 <= decay_power kw ->
  shape4 b c n n t ->
  torch_rfft L t = Ok f -> shape5 b c n (n / 2 + 1) 2 f ->
  rgb_to_fft L t kw w =
  (Ok (scaled Rdiv (spectral_scale n (decay_power kw)) f),
   log L (c_np_fft_fftfreq n) None
       (log L (c_np_fft_fftfreq n) None (log L c_torch_rfft None w))).
Proof.
  intros Hb Hc Hn Hp Ht Hf Hs. unfold rgb_to_fft.
  rewrite (shape4_size b c n n) by assumption.
  cbv [mbind M_bind bind]. unfold lib at 1. rewrite Hf.
  rewrite get_fft_scale_run by assumption.
  rewrite tensor_div_run by assumption.
  now rewrite (bcast5_div_scale _ b c n 2).
Qed.

(** With a negative [decay_power], [rgb_to_fft] divides by zero at the
    zero frequency. *)
Lemma rgb_to_fft_zero b c n kw (t : T4) (f : T5) (w : World L) :
  (0 < b)%nat -> (0 < c)%nat -> (0 < n)%nat -> decay_power kw < 0 ->
  shape4 b c n n t ->
  torch_rfft L t = Ok f -> shape5 b c n (n / 2 + 1) 2 f ->
  rgb_to_fft L t kw w =
  (Raise NonFinite,
   log L c_torch_div (Some NonFinite)
       (log L (c_np_fft_fftfreq n) None
            (log L (c_np_fft_fftfreq n) None (log L c_torch_rfft None w)))).
Proof.
  intros Hb Hc Hn Hp Ht Hf Hs. unfold rgb_to_fft.
  rewrite (shape4_size b c n n) by assumption.
  cbv [mbind M_bind bind]. unfold lib at 1. rewrite Hf.
  rewrite get_fft_scale_run by assumption.
  now rewrite (tensor_div_zero b c n 2) by (assumption || lia).
Qed.

End FFT.

Lemma buf_shape_Z (n : nat) :
  [1; 3; Z.of_nat n; Z.of_nat n / 2 + 1; 2]%Z =
  map Z.of_nat [1; 3; n; n / 2 + 1; 2]%nat.
Proof.
  cbv [map]. now rewrite Nat2Z.inj_add, Nat2Z.inj_div.
Qed.

(** What [get_fft_scale] returns, when it returns. *)
Lemma get_fft_scale_result (L : Framework) n kw (w : World L) scale :
  fst (get_fft_scale L n kw w) = Ok scale ->
  (0 < n)%nat /\ scale = fft_scale n (decay_power kw).
Proof.
  destruct n as [|n]; [discriminate|]. intros E.
  rewrite get_fft_scale_run in E by lia. cbn [fst] in E.
  split; [lia|]. now inversion E.
Qed.

(** C4: the image is parameterized in Fourier space.  [init_fft_buf]
    returns the array numpy's normal generator yields for the size
    (1, 3, size, size//2 + 1, 2) and the scale [rand_sd], which has that
    shape; [fft_to_rgb] maps a buffer of that shape to the inverse real FFT,
    with signal sizes (size, size), of the buffer multiplied entrywise by
    the spectral scale 1 / max((fx^2 + fy^2)^decay_power, 1 / (size * d)),
    which is an image of shape (1, 3, size, size); and [get_fft_scale]
    computes that scale. *)
Theorem fourier_parameterization (L : Framework) (size : nat) (kw : kwargs)
        (w : World L) (t : T5) :
  normal_contract L -> irfft_contract L ->
  (0 < size)%nat -> 0 <= decay_power kw ->
  shape5 1 3 size (size / 2 + 1) 2 t ->
  (exists buf s',
      np_random_normal L [1; 3; Z.of_nat size; Z.of_nat size / 2 + 1; 2]%Z
                       (rand_sd kw) (np_rng L w) = (Ok buf, s')
      /\ fst (init_fft_buf L (Z.of_nat size) kw w) = Ok buf
      /\ shape5 1 3 size (size / 2 + 1) 2 buf)
  /\ (exists img,
      fst (fft_to_rgb L t kw w) = Ok img
      /\ torch_irfft L (scaled (fun v s => s * v)
                               (spectral_scale size (decay_power kw)) t)
                     (size, size) = Ok img
      /\ shape4 1 3 size size img)
  /\ fst (get_fft_scale L size kw w) =
       Ok [[tab size (fun y => tab (size / 2 + 1) (fun x =>
             [1 / Rmax (rpow (nth x (np_fftfreq size (rpow 0.5 0.5)) 0 *
                              nth x (np_fftfreq size (rpow 0.5 0.5)) 0 +
                              nth y (np_fftfreq size (rpow 0.5 0.5)) 0 *
                              nth y (np_fftfreq size (rpow 0.5 0.5)) 0)
                             (decay_power kw))
                       (1 / (INR size * rpow 0.5 0.5))]))]].
Proof.
  intros Hnormal Hirfft Hsize Hp Ht. split; [|split].
  - destruct (Hnormal 1 3 size (size / 2 + 1) 2 (rand_sd kw) (np_rng L w))%nat
      as (buf & s' & E & Hs).
    rewrite <- buf_shape_Z in E. exists buf, s'. split; [assumption|].
    split; [|assumption]. unfold init_fft_buf. now rewrite E.
  - rewrite (fft_to_rgb_run L 1%nat 3%nat size) by (assumption || lia).
    destruct (Hirfft 1%nat 3%nat size
                (scaled (fun v s => s * v) (spectral_scale size (decay_power kw)) t))
      as (u & E & Hu).
    { now apply shape5_scaled. }
    exists u. now rewrite E.
  - rewrite get_fft_scale_run by assumption. cbn [fst]. unfold fft_scale.
    do 3 f_equal. apply tab_ext; intros y _. apply tab_ext; intros x _.
    f_equal. now apply spectral_scale_eq.
Qed.

(** C10, as amended: for a [decay_power] that is not negative,
    [fft_to_rgb] undoes [rgb_to_fft] called with the same keyword
    arguments: on an image of shape (1, 3, size, size) the two in sequence
    give the image back, because the spectral scale is then never zero and
    the inverse real FFT inverts the real FFT. *)
Theorem fft_to_rgb_rgb_to_fft (L : Framework) (size : nat) (kw : kwargs)
        (w : World L) (t : T4) :
  rfft_contract L ->
  (0 < size)%nat -> 0 <= decay_power kw ->
  shape4 1 3 size size t ->
  fst ((f ← rgb_to_fft L t kw; fft_to_rgb L f kw) w) = Ok t.
Proof.
  intros Hrfft Hsize Hp Ht.
  destruct (Hrfft 1%nat 3%nat size t Ht) as (f & Ef & Hf & Einv).
  cbv [mbind M_bind bind].
  rewrite (rgb_to_fft_run L 1%nat 3%nat size kw t f) by (assumption || lia).
  rewrite (fft_to_rgb_run L 1%nat 3%nat size) by (try apply shape5_scaled; assumption || lia).
  cbn [fst].
  rewrite (scaled_cancel _ 1%nat 3%nat size (size / 2 + 1)%nat 2%nat); [assumption| |assumption].
  intros y x. apply Rgt_not_eq. now apply spectral_scale_pos.
Qed.

Lemma Forall_tab {A} (P : A -> Prop) n (f : nat -> A) :
  (forall i, (i < n)%nat -> P (f i)) -> Forall P (tab n f).
Proof.
  intros H. unfold tab. apply Forall_map, List.Forall_forall.
  intros i Hi. apply in_seq in Hi. apply H. lia.
Qed.

Module StandInFacts.
Import StandIn.

Lemma shape5_constant5 a b c d e x : shape5 a b c d e (constant5 a b c d e x).
Proof.
  unfold constant5.
  repeat (split; [apply length_tab|apply Forall_tab; intros ? _]).
  apply length_tab.
Qed.

Lemma normal_ok : normal_contract lib.
Proof.
  intros a b c d e sd s. exists (constant5 a b c d e sd), (S s). split.
  - cbn [np_random_normal lib]. unfold normal. cbn [map].
    now rewrite !Nat2Z.id.
  - apply shape5_constant5.
Qed.

Lemma unpack_pack h (row : T1) : length row = h -> unpack h (pack row) = row.
Proof.
  intros Hl. unfold unpack, pack.
  transitivity (tab h (fun j => nth j row 0));
    [|subst h; symmetry; apply list_eq_tab].
  rewrite Hl. apply tab_ext; intros j Hj.
  assert (j / 2 < h / 2 + 1)%nat.
  { pose proof (Nat.Div0.div_le_mono j h 2 ltac:(lia)). lia. }
  rewrite nth_tab by assumption.
  pose proof (Nat.div_mod_eq j 2) as E.
  pose proof (Nat.mod_upper_bound j 2 ltac:(lia)) as B.
  destruct (j mod 2)%nat as [|[|r]] eqn:Em; [| |lia]; cbn [nth]; f_equal; lia.
Qed.

Lemma shape4_unpack b c h (t : T5) :
  shape5 b c h (h / 2 + 1) 2 t -> shape4 b c h h (map3 (unpack h) t).
Proof.
  intros [Hb Hf].
  unfold map3, map2. split; [now rewrite length_map|].
  apply Forall_map. eapply List.Forall_impl; [|exact Hf].
  intros t0 [Hc Hf0]. split; [now rewrite length_map|].
  apply Forall_map. eapply List.Forall_impl; [|exact Hf0].
  intros pl [Hh Hf1]. split; [now rewrite length_map|].
  apply Forall_map. eapply List.Forall_impl; [|exact Hf1].
  intros row _. apply length_tab.
Qed.

Lemma irfft_ok : irfft_contract lib.
Proof.
  intros b c h t [Hb Hf]. eexists. split; [reflexivity|]. cbn [snd].
  unfold map3, map2. split; [now rewrite length_map|].
  apply Forall_map. eapply List.Forall_impl; [|exact Hf].
  intros t0 [Hc Hf0]. split; [now rewrite length_map|].
  apply Forall_map. eapply List.Forall_impl; [|exact Hf0].
  intros pl [Hh Hf1]. split; [now rewrite length_map|].
  apply Forall_map. eapply List.Forall_impl; [|exact Hf1].
  intros row _. apply length_tab.
Qed.

Lemma rfft_ok : rfft_contract lib.
Proof.
  intros b c h t [Hb Hf]. eexists. split; [reflexivity|]. split.
  - unfold map3, map2. split; [now rewrite length_map|].
    apply Forall_map. eapply List.Forall_impl; [|exact Hf].
    intros t0 [Hc Hf0]. split; [now rewrite length_map|].
    apply Forall_map. eapply List.Forall_impl; [|exact Hf0].
    intros pl [Hh Hf1]. split; [now rewrite length_map|].
    apply Forall_map. eapply List.Forall_impl; [|exact Hf1].
    intros row Hrow. unfold shape1 in Hrow. unfold pack. rewrite Hrow.
    split; [apply length_tab|]. apply Forall_tab. intros; reflexivity.
  - cbn [torch_irfft lib snd]. f_equal. unfold map3, map2.
    rewrite map_map. rewrite <- (map_id t) at 2.
    apply map_ext_in. intros t0 H0. rewrite List.Forall_forall in Hf.
    destruct (Hf _ H0) as [_ Hf0].
    rewrite map_map. rewrite <- (map_id t0) at 2.
    apply map_ext_in. intros pl H1. rewrite List.Forall_forall in Hf0.
    destruct (Hf0 _ H1) as [_ Hf1].
    rewrite map_map. rewrite <- (map_id pl) at 2.
    apply map_ext_in. intros row H2. rewrite List.Forall_forall in Hf1.
    apply unpack_pack, Hf1, H2.
Qed.

Lemma decay_negative : decay_power kw_negative < 0.
Proof. unfold decay_power. cbn. lra. Qed.

End StandInFacts.

Lemma fourier_parameterization_witness :
  exists img,
    fst (fft_to_rgb StandIn.lib (StandIn.constant5 1 3 2 2 2 1) StandIn.kw0
                    StandIn.world0) = Ok img
    /\ shape4 1 3 2 2 img.
Proof.
  destruct (fourier_parameterization StandIn.lib 2 StandIn.kw0 StandIn.world0
              (StandIn.constant5 1 3 2 2 2 1)
              StandInFacts.normal_ok StandInFacts.irfft_ok)
    as (_ & (img & E & _ & Hs) & _).
  - lia.
  - unfold decay_power; simpl; lra.
  - apply (StandInFacts.shape5_constant5 1 3 2 2 2).
  - exists img. split; assumption.
Defined.

Lemma fft_to_rgb_rgb_to_fft_witness :
  fst ((f ← rgb_to_fft StandIn.lib
                       [[[[1; 2]; [3; 4]]; [[5; 6]; [7; 8]]; [[9; 10]; [11; 12]]]]
                       StandIn.kw0;
        fft_to_rgb StandIn.lib f StandIn.kw0) StandIn.world0)
  = Ok [[[[1; 2]; [3; 4]]; [[5; 6]; [7; 8]]; [[9; 10]; [11; 12]]]].
Proof.
  apply (fft_to_rgb_rgb_to_fft StandIn.lib 2 StandIn.kw0 StandIn.world0).
  - apply StandInFacts.rfft_ok.
  - lia.
  - unfold decay_power; simpl; lra.
  - repeat (split || constructor).
Defined.

(** C10, as stated, fails for a negative [decay_power]: the scale is 0 at
    the zero frequency, [rgb_to_fft] divides by it, and the two functions
    in sequence do not give the image back.  (In the script the quotient
    is [inf] or NaN there, and [fft_to_rgb] returns NaN.) *)
Lemma fft_to_rgb_rgb_to_fft_negative_decay :
  fst ((f ← rgb_to_fft StandIn.lib
                       [[[[1; 2]; [3; 4]]; [[5; 6]; [7; 8]]; [[9; 10]; [11; 12]]]]
                       StandIn.kw_negative;
        fft_to_rgb StandIn.lib f StandIn.kw_negative) StandIn.world0)
  <> Ok [[[[1; 2]; [3; 4]]; [[5; 6]; [7; 8]]; [[9; 10]; [11; 12]]]].
Proof.
  assert (Ht : shape4 1 3 2 2
                 [[[[1; 2]; [3; 4]]; [[5; 6]; [7; 8]]; [[9; 10]; [11; 12]]]])
    by repeat (split || constructor).
  destruct (StandInFacts.rfft_ok 1%nat 3%nat 2%nat _ Ht) as (f & Ef & Hf & _).
  cbv [mbind M_bind bind].
  rewrite (rgb_to_fft_zero StandIn.lib 1%nat 3%nat 2%nat
                           StandIn.kw_negative _ f)
    by (assumption || lia || apply StandInFacts.decay_negative).
  discriminate.
Qed.

(** ** From the buffer to the displayed image *)

Lemma bcast2_r1 (f : R -> R -> R) (c : T2) (s : R) :
  bcast (bcast f) c [[s]] = map2 (fun v => f v s) c.
Proof.
  rewrite bcast_r1. unfold map2. apply map_ext. intros row. apply bcast_r1.
Qed.

Lemma map_map_rows {A B C} (f : A -> B) (g : B -> C) (c : list (list A)) :
  map (fun x => map g (map f x)) c = map (map (fun v => g (f v))) c.
Proof. apply map_ext. intros row. apply map_map. Qed.

Lemma denormalize_3 (c0 c1 c2 : T2) :
  denormalize [[c0; c1; c2]] =
  [[map2 (fun v => v * 0.229 + 0.485) c0;
    map2 (fun v => v * 0.224 + 0.456) c1;
    map2 (fun v => v * 0.225 + 0.406) c2]].
Proof.
  unfold denormalize, imagenet_mean_std, bcast4, per_channel.
  cbn [map bcast zipw]. rewrite !bcast2_r1. unfold map2.
  now rewrite !map_map, !map_map_rows.
Qed.

Lemma shape2_map2 (f : R -> R) h w (c : T2) : shape2 h w c -> shape2 h w (map2 f c).
Proof.
  intros [Hl Hf]. unfold map2. split; [now rewrite length_map|].
  apply Forall_map. eapply List.Forall_impl; [|exact Hf].
  intros row Hr. unfold shape1 in *. now rewrite length_map.
Qed.

Lemma shape3_map3 (f : R -> R) c h w (t : T3) : shape3 c h w t -> shape3 c h w (map3 f t).
Proof.
  intros [Hl Hf]. unfold map3. split; [now rewrite length_map|].
  apply Forall_map. eapply List.Forall_impl; [|exact Hf].
  intros ch. apply shape2_map2.
Qed.

Lemma shape4_map4 (f : R -> R) n c h w (t : T4) :
  shape4 n c h w t -> shape4 n c h w (map4 f t).
Proof.
  intros [Hl Hf]. unfold map4. split; [now rewrite length_map|].
  apply Forall_map. eapply List.Forall_impl; [|exact Hf].
  intros img. apply shape3_map3.
Qed.

Lemma shape4_denormalize h w (t : T4) :
  shape4 1 3 h w t -> shape4 1 3 h w (denormalize t).
Proof.
  intros [Hl Hf]. destruct t as [|x [|]]; try discriminate.
  inversion Hf as [|? ? Hx _]; subst.
  destruct (shape3_3 _ _ _ Hx) as (c0 & c1 & c2 & -> & H0 & H1 & H2).
  rewrite denormalize_3. split; [reflexivity|]. constructor; [|constructor].
  split; [reflexivity|]. repeat (constructor; [now apply shape2_map2|]). constructor.
Qed.

Lemma shape3_lucid_image h w (img : T3) :
  (0 < h)%nat -> (0 < w)%nat -> shape3 3 h w img -> shape3 3 h w (lucid_image img).
Proof.
  intros Hh Hw Hs. rewrite (lucid_image_spec h w) by assumption.
  split; [apply length_tab|]. apply Forall_tab; intros j _.
  split; [apply length_tab|]. apply Forall_tab; intros k _. apply length_tab.
Qed.

Lemma shape4_lucid n h w (t : T4) :
  (0 < h)%nat -> (0 < w)%nat -> shape4 n 3 h w t ->
  shape4 n 3 h w (lucid_colorspace_to_rgb t).
Proof.
  intros Hh Hw [Hl Hf]. rewrite lucid_colorspace_to_rgb_images.
  split; [now rewrite length_map|]. apply Forall_map.
  eapply List.Forall_impl; [|exact Hf]. intros img. now apply shape3_lucid_image.
Qed.

Lemma clamp_bounds x : 0 <= clamp 0 1 x <= 1.
Proof.
  unfold clamp. split.
  - apply Rmin_glb; [apply Rmax_r|lra].
  - apply Rmin_r.
Qed.

Lemma unit_range_clamp (t : T3) : unit_range (map3 (clamp 0 1) t).
Proof.
  unfold unit_range, all_entries, map3, map2.
  apply Forall_map, List.Forall_forall. intros ch _.
  apply Forall_map, List.Forall_forall. intros row _.
  apply Forall_map, List.Forall_forall. intros v _. apply clamp_bounds.
Qed.

Section Image.
Context (L : Framework).

(** The entries of whatever [image_buf_to_rgb] returns lie in [0, 1]. *)
Lemma image_buf_to_rgb_bounded buf kw (w : World L) img :
  fst (image_buf_to_rgb L buf kw w) = Ok img ->
  unit_range img.
Proof.
  unfold image_buf_to_rgb. cbv [mbind M_bind bind].
  destruct (fft_to_rgb L buf kw w) as [[u|e] w1]; [|discriminate].
  unfold map4.
  destruct (denormalize (lucid_colorspace_to_rgb u)) as [|x rest]; cbn [map].
  - discriminate.
  - cbv [ret]. cbn [fst]. intros E. inversion E; subst. apply unit_range_clamp.
Qed.

(** On a buffer of the shape the script uses, [image_buf_to_rgb] returns
    an image of shape (3, size, size). *)
Lemma image_buf_to_rgb_shape size buf kw (w : World L) :
  irfft_contract L -> (0 < size)%nat ->
  shape5 1 3 size (size / 2 + 1) 2 buf ->
  exists img, fst (image_buf_to_rgb L buf kw w) = Ok img
              /\ shape3 3 size size img.
Proof.
  intros Hirfft Hsize Hbuf. unfold image_buf_to_rgb. cbv [mbind M_bind bind].
  rewrite (fft_to_rgb_run L 1%nat 3%nat size) by (assumption || lia).
  destruct (Hirfft 1%nat 3%nat size
              (scaled (fun v s => s * v) (spectral_scale size (decay_power kw)) buf))
    as (u & E & Hu); [now apply shape5_scaled|].
  rewrite E.
  pose proof (shape4_denormalize size size _
                (shape4_lucid 1 size size u Hsize Hsize Hu)) as [Hl Hf].
  unfold map4.
  destruct (denormalize (lucid_colorspace_to_rgb u)) as [|x rest]; [discriminate|].
  cbn [map]. eexists. split; [reflexivity|].
  inversion Hf; subst. now apply shape3_map3.
Qed.

End Image.

(** ** Python arithmetic and the augmentation tables *)

Lemma py_int_nonneg x : 0 <= x -> py_int x = Int_part x.
Proof. intros H. unfold py_int. destruct (Rle_dec 0 x); [reflexivity|contradiction]. Qed.

Lemma py_int_two_thirds (j : Z) :
  (0 <= j)%Z -> py_int (IZR j * (2 / 3)) = (2 * j / 3)%Z.
Proof.
  intros Hj. assert (0 <= IZR j) by now apply IZR_le.
  rewrite py_int_nonneg by nra.
  symmetry. apply Int_part_spec.
  pose proof (Z.div_mod (2 * j) 3 ltac:(lia)) as E.
  pose proof (Z.mod_pos_bound (2 * j) 3 ltac:(lia)) as B.
  set (k := (2 * j / 3)%Z) in *. set (r := ((2 * j) mod 3)%Z) in *.
  assert (E' : 2 * IZR j = 3 * IZR k + IZR r).
  { rewrite <- (mult_IZR 2), <- (mult_IZR 3), <- plus_IZR. now f_equal. }
  assert (0 <= IZR r < 3) by (split; [apply IZR_le|apply IZR_lt]; lia).
  lra.
Qed.

Lemma py_int_rand (u : R) (n : nat) :
  0 <= u < 1 -> (0 < n)%nat ->
  (0 <= py_int (u * INR n) < Z.of_nat n)%Z.
Proof.
  intros Hu Hn. assert (0 < INR n) by (apply lt_0_INR; lia).
  rewrite py_int_nonneg by nra.
  destruct (base_Int_part (u * INR n)) as [Hlo Hhi]. split.
  - apply le_IZR. assert (-1 < IZR (Int_part (u * INR n))) by nra.
    assert (-1 < Int_part (u * INR n))%Z by (apply lt_IZR; assumption). 
    apply IZR_le. lia.
  - apply lt_IZR. rewrite <- INR_IZR_INZ. nra.
Qed.

Lemma py_index_rand {A} (l : list A) (u : R) :
  0 <= u < 1 -> (0 < length l)%nat ->
  exists a, py_index l (py_int (u * INR (length l))) = Ok a /\ In a l.
Proof.
  intros Hu Hl. pose proof (py_int_rand u (length l) Hu Hl) as [Hlo Hhi].
  unfold py_index. set (k := py_int (u * INR (length l))) in *.
  assert ((k <? 0)%Z = false) as -> by lia.
  assert ((0 <=? k)%Z && (k <? Z.of_nat (length l))%Z = true) as ->.
  { apply andb_true_iff. split; lia. }
  destruct (nth_error l (Z.to_nat k)) as [a|] eqn:E.
  - exists a. split; [reflexivity|]. eapply nth_error_In, E.
  - apply nth_error_None in E. lia.
Qed.

(** For a drawn [u], the entry that [l[int(u * len(l))]] selects. *)
Lemma py_index_nth_error {A} (l : list A) (u : R) (a : A) :
  0 <= u < 1 -> (0 < length l)%nat ->
  py_index l (py_int (u * INR (length l))) = Ok a ->
  nth_error l (Z.to_nat (py_int (u * INR (length l)))) = Some a.
Proof.
  intros Hu Hl. pose proof (py_int_rand u (length l) Hu Hl) as [Hlo Hhi].
  unfold py_index. set (k := py_int (u * INR (length l))) in *.
  assert ((k <? 0)%Z = false) as -> by lia.
  assert ((0 <=? k)%Z && (k <? Z.of_nat (length l))%Z = true) as ->.
  { apply andb_true_iff. split; lia. }
  destruct (nth_error l (Z.to_nat k)) as [a'|]; [|discriminate].
  intros E. now inversion E.
Qed.

Lemma in_py_range lo hi k : In k (py_range lo hi) <-> (lo <= k < hi)%Z.
Proof.
  unfold py_range. rewrite in_map_iff. split.
  - intros (i & <- & Hi). apply in_seq in Hi. lia.
  - intros H. exists (Z.to_nat (k - lo)). split; [lia|]. apply in_seq. lia.
Qed.

Lemma rotate_factors_bound degrees a :
  (0 <= degrees)%Z -> In a (rotate_factors degrees) ->
  (- degrees <= a <= degrees)%Z.
Proof.
  intros Hd Ha. unfold rotate_factors in Ha. apply in_app_or in Ha as [Ha|Ha].
  - apply in_py_range in Ha. lia.
  - apply repeat_spec in Ha. lia.
Qed.

Lemma length_rotate_factors degrees :
  (0 <= degrees)%Z ->
  length (rotate_factors degrees) = Z.to_nat (2 * degrees + 1 + degrees / 2).
Proof.
  intros Hd. unfold rotate_factors.
  rewrite length_app, length_py_range, repeat_length.
  assert (0 <= degrees / 2)%Z by (apply Z.div_pos; lia). lia.
Qed.

Lemma length_scale_factors scale : length (scale_factors scale) = 11%nat.
Proof. reflexivity. Qed.

Lemma scale_factors_spec scale :
  scale_factors scale =
  map (fun i => (100 - 100 * scale + 20 * scale * IZR i) / 100) (py_range 0 11).
Proof. unfold scale_factors. apply map_ext. intros i. field. Qed.

Lemma scale_factors_default :
  scale_factors 0.5 = [0.5; 0.6; 0.7; 0.8; 0.9; 1; 1.1; 1.2; 1.3; 1.4; 1.5].
Proof.
  unfold scale_factors.
  change (py_range 0 11) with [0; 1; 2; 3; 4; 5; 6; 7; 8; 9; 10]%Z.
  cbn [map]. repeat (f_equal; try lra).
Qed.

Lemma NoDup_py_range lo hi : NoDup (py_range lo hi).
Proof.
  unfold py_range. apply NoDup_fmap_2; [|apply NoDup_seq].
  intros i j H. lia.
Qed.

Lemma NoDup_scale_factors scale : scale <> 0 -> NoDup (scale_factors scale).
Proof.
  intros Hs. rewrite scale_factors_spec.
  apply NoDup_fmap_2; [|apply NoDup_py_range].
  intros i j H. apply eq_IZR.
  assert (20 * scale * IZR i = 20 * scale * IZR j) by lra.
  apply (Rmult_eq_reg_l (20 * scale)); [assumption|lra].
Qed.


(** ** Running the script step by step *)

Section WP.
Context (L : Framework).

Lemma wp_bind {A B} (m : M L A) (k : A -> M L B) Q w :
  wp m (fun r w' => match r with
                    | Ok a => wp (k a) Q w'
                    | Raise e => Q (Raise e) w'
                    end) w ->
  wp (m ≫= k) Q w.
Proof.
  unfold wp. cbv [mbind M_bind bind].
  destruct (m w) as [[a|e] w']; cbn [fst snd]; auto.
Qed.

Lemma mbind_run {A B} (m : M L A) (k : A -> M L B) (w : World L) :
  (m ≫= k) w = match m w with
                | (Ok a, w') => k a w'
                | (Raise e, w') => (Raise e, w')
                end.
Proof. reflexivity. Qed.

Lemma wp_ret {A} (a : A) Q (w : World L) : Q (Ok a) w -> wp (ret L a) Q w.
Proof. auto. Qed.

Lemma wp_mret {A} (a : A) Q (w : World L) : Q (Ok a) w -> wp (mret a) Q w.
Proof. auto. Qed.

Lemma wp_lib {A} c (r : result A) Q (w : World L) :
  Q r (log L c (exn_of r) w) -> wp (lib L c r) Q w.
Proof. auto. Qed.

Lemma wp_raise {A} e (Q : result A -> World L -> Prop) (w : World L) :
  Q (Raise e) (log L c_python (Some e) w) -> wp (raise L e) Q w.
Proof. auto. Qed.

Lemma wp_py {A} (r : result A) Q (w : World L) :
  match r with
  | Ok a => Q (Ok a) w
  | Raise e => Q (Raise e) (log L c_python (Some e) w)
  end -> wp (py L r) Q w.
Proof. destruct r; auto. Qed.

Lemma wp_np_rand Q (w : World L) :
  (forall u s, np_random_rand L (np_rng L w) = (u, s) ->
     Q (Ok u) (log L c_np_random_rand None (set_np_rng L s w))) ->
  wp (np_rand L) Q w.
Proof.
  intros H. unfold wp, np_rand.
  destruct (np_random_rand L (np_rng L w)) as [u s] eqn:E. now apply H.
Qed.

Lemma wp_np_rand_unit Q (w : World L) :
  rand_contract L ->
  (forall u s, 0 <= u < 1 ->
     Q (Ok u) (log L c_np_random_rand None (set_np_rng L s w))) ->
  wp (np_rand L) Q w.
Proof.
  intros Hrand H. apply wp_np_rand. intros u s E. apply H.
  specialize (Hrand (np_rng L w)). now rewrite E in Hrand.
Qed.

Lemma wp_run {A} (m : M L A) (Q : result A -> World L -> Prop) w :
  wp m Q w -> let (r, w') := m w in Q r w'.
Proof. unfold wp. now destruct (m w). Qed.

End WP.

(** ** Tensors of the framework *)

Lemma to_of_T1 (t : T1) : to_T1 (of_T1 t) = t.
Proof. unfold to_T1, of_T1. cbn [items]. rewrite map_map. apply map_id. Qed.

Lemma map_inverse {A B} (f : A -> B) (g : B -> A) (l : list A) :
  (forall a, g (f a) = a) -> map g (map f l) = l.
Proof. intros H. rewrite map_map. rewrite <- (map_id l) at 2. now apply map_ext. Qed.

Lemma to_of_T2 (t : T2) : to_T2 (of_T2 t) = t.
Proof. unfold to_T2, of_T2. cbn [items]. apply map_inverse, to_of_T1. Qed.

Lemma to_of_T3 (t : T3) : to_T3 (of_T3 t) = t.
Proof. unfold to_T3, of_T3. cbn [items]. apply map_inverse, to_of_T2. Qed.

Lemma to_of_T4 (t : T4) : to_T4 (of_T4 t) = t.
Proof. unfold to_T4, of_T4. cbn [items]. apply map_inverse, to_of_T3. Qed.

Lemma to_of_T5 (t : T5) : to_T5 (of_T5 t) = t.
Proof. unfold to_T5, of_T5. cbn [items]. apply map_inverse, to_of_T4. Qed.

(** ** Augmentation *)

(** *** What [squeeze] leaves of an image *)

Lemma tshape_squeeze_row (w : nat) (r : T1) :
  (2 <= w)%nat -> length r = w -> tshape (squeeze (of_T1 r)) = [w].
Proof.
  intros Hw Hl. destruct r as [|x0 [|x1 r]]; cbn in Hl; try lia.
  cbn [of_T1 map squeeze tshape length]. rewrite !length_map. now subst.
Qed.

Lemma tshape_squeeze_channel (h w : nat) (c : T2) :
  (2 <= h)%nat -> (2 <= w)%nat -> shape2 h w c ->
  tshape (squeeze (of_T2 c)) = [h; w].
Proof.
  intros Hh Hw [Hl Hf]. destruct c as [|r0 [|r1 c]]; cbn in Hl; try lia.
  inversion Hf as [|? ? Hr0 _]; subst.
  cbn [of_T2 map squeeze]. cbn [tshape length]. rewrite !length_map.
  f_equal. exact (tshape_squeeze_row w r0 Hw Hr0).
Qed.

(** An image (1, 3, size, size) with [2 <= size] keeps its three
    dimensions. *)
Lemma tshape_squeeze_image (size : nat) (img : T4) :
  (2 <= size)%nat -> shape4 1 3 size size img ->
  tshape (squeeze (of_T4 img)) = [3%nat; size; size].
Proof.
  intros Hs [Hl Hf]. destruct img as [|x [|]]; try discriminate.
  inversion Hf as [|? ? Hx _]; subst.
  destruct (shape3_3 _ _ _ Hx) as (c0 & c1 & c2 & -> & H0 & H1 & H2).
  cbn [of_T4 of_T3 map squeeze]. cbn [tshape length].
  f_equal. now apply tshape_squeeze_channel.
Qed.

Lemma squeeze_image_channels (size : nat) (img : T4) :
  (2 <= size)%nat -> shape4 1 3 size size img ->
  length (to_T3 (squeeze (of_T4 img))) = 3%nat.
Proof.
  intros Hs [Hl Hf]. destruct img as [|x [|]]; try discriminate.
  inversion Hf as [|? ? Hx _]; subst.
  destruct (shape3_3 _ _ _ Hx) as (c0 & c1 & c2 & -> & H0 & H1 & H2).
  reflexivity.
Qed.

(** An image (1, 3, 1, 1) is left with its channels only. *)
Lemma tshape_squeeze_pixel (img : T4) :
  shape4 1 3 1 1 img -> tshape (squeeze (of_T4 img)) = [3%nat].
Proof.
  intros [Hl Hf]. destruct img as [|x [|]]; try discriminate.
  inversion Hf as [|? ? Hx _]; subst.
  destruct (shape3_3 _ _ _ Hx) as (c0 & c1 & c2 & -> & H0 & H1 & H2).
  destruct H0 as [L0 F0]. destruct c0 as [|r0 [|]]; try discriminate.
  inversion F0 as [|? ? Hr0 _]; subst. unfold shape1 in Hr0.
  destruct r0 as [|x0 [|]]; try discriminate.
  reflexivity.
Qed.

Lemma gpu_affine_grid_3 (size : list nat) :
  length size = 3%nat -> exists flow, gpu_affine_grid size = Ok flow.
Proof.
  destruct size as [|C [|H [|W [|]]]]; try discriminate. intros _.
  eexists. reflexivity.
Qed.

Section Aug.
Context (L : Framework).

Ltac wp_fail :=
  cbn [trace log set_np_rng]; eexists; split; [apply last_snoc|discriminate].

(** C3: on an image of spatial size [size], [lucid_transforms] calls, in
    this order: pad by [jitter] (default size//2); a crop with random
    offsets to size + floor(jitter * 2 / 3); a zoom by one of the eleven
    factors (100 - 100*scale + 20*scale*i) / 100, i = 0..10; a rotation by
    an integer angle from range(-degrees, degrees + 1) followed by
    degrees//2 zeros, so of magnitude at most [degrees]; and a crop with
    random offsets to [size], so the result has [size] rows and columns.
    The two tables are as stated, and with the six numbers that
    [np.random.rand] yields in turn, the offsets are the first two and the
    last two, the zoom is entry int(u * 11) of its table for the third, and
    the angle is entry int(u * len) of its table for the fourth.  This
    holds for [2 <= size], where the only way to fail is an exception of
    the image library.  For [size = 1], [img.squeeze()] leaves a tensor of
    shape (3,), and [gpu_affine_grid] raises ValueError before any
    transform is called.  For the default scale 0.5 the factors are 0.5,
    0.6, ..., 1.5, and for any non-zero scale they are pairwise
    different. *)
Theorem lucid_transforms_sequence (img : T4) (kw : kwargs) (w : World L)
        (size : nat) :
  let jitter := default (Z.of_nat size / 2)%Z (kw_jitter kw) in
  let scale := scale_of kw in
  let degrees := degrees_of kw in
  let zooms := map (fun i => (100 - 100 * scale + 20 * scale * IZR i) / 100)
                   (py_range 0 11) in
  let angles := py_range (- degrees) (degrees + 1)
                  ++ repeat 0%Z (Z.to_nat (degrees / 2)) in
  rand_contract L -> crop_pad_contract L -> image_shape_contract L ->
  shape4 1 3 size size img ->
  (0 <= jitter)%Z -> (0 <= degrees)%Z ->
  scale_factors scale = zooms
  /\ rotate_factors degrees = angles
  /\ ((2 <= size)%nat ->
      let '(row1, s1) := np_random_rand L (np_rng L w) in
      let '(col1, s2) := np_random_rand L s1 in
      let '(u1, s3) := np_random_rand L s2 in
      let '(u2, s4) := np_random_rand L s3 in
      let '(row2, s5) := np_random_rand L s4 in
      let '(col2, s6) := np_random_rand L s5 in
      match lucid_transforms L img kw w with
      | (Ok out, w') =>
          exists zoom angle data,
            trace L w' = trace L w ++
              [(c_vision_Image, None);
               (c_vision_pad jitter, None);
               (c_np_random_rand, None); (c_np_random_rand, None);
               (c_vision_crop_pad (Z.of_nat size + 2 * jitter / 3) row1 col1,
                None);
               (c_np_random_rand, None);
               (c_vision_zoom zoom, None);
               (c_np_random_rand, None);
               (c_vision_rotate angle, None);
               (c_np_random_rand, None); (c_np_random_rand, None);
               (c_vision_crop_pad (Z.of_nat size) row2 col2, None);
               (c_image_data, None)]
            /\ nth_error zooms (Z.to_nat (py_int (u1 * 11))) = Some zoom
            /\ nth_error angles
                         (Z.to_nat (py_int (u2 * INR (length angles))))
               = Some angle
            /\ (Z.abs angle <= degrees)%Z
            /\ np_rng L w' = s6
            /\ out = [data] /\ Forall (shape2 size size) data
      | (Raise e, w') =>
          exists c, last (trace L w') = Some (c, Some e) /\ c <> c_python
      end)
  /\ (size = 1%nat ->
      forall im, vision_Image L (squeeze (of_T4 img)) = Ok im ->
      lucid_transforms L img kw w =
      (Raise ValueError,
       log L c_python (Some ValueError) (log L c_vision_Image None w)))
  /\ scale_factors 0.5 = [0.5; 0.6; 0.7; 0.8; 0.9; 1; 1.1; 1.2; 1.3; 1.4; 1.5]
  /\ (scale <> 0 -> NoDup (scale_factors scale)).
Proof.
  intros jitter scale degrees zooms angles Hrand Hcrop Hshape Himg Hjit Hdeg.
  destruct Hshape as (HImage & Hflow & Hpad & Hcropshape & Hzoom).
  split; [apply scale_factors_spec|]. split; [reflexivity|].
  split; [|split; [|split; [apply scale_factors_default
                           |apply NoDup_scale_factors]]].
  - intros Hsize.
    destruct (np_random_rand L (np_rng L w)) as [row1 s1] eqn:E1.
    destruct (np_random_rand L s1) as [col1 s2] eqn:E2.
    destruct (np_random_rand L s2) as [u1 s3] eqn:E3.
    destruct (np_random_rand L s3) as [u2 s4] eqn:E4.
    destruct (np_random_rand L s4) as [row2 s5] eqn:E5.
    destruct (np_random_rand L s5) as [col2 s6] eqn:E6.
    assert (Hu1 : 0 <= u1 < 1).
    { pose proof (Hrand s2) as H. now rewrite E3 in H. }
    assert (Hu2 : 0 <= u2 < 1).
    { pose proof (Hrand s3) as H. now rewrite E4 in H. }
    apply wp_run.
    unfold lucid_transforms.
    rewrite (shape4_size 1 3 size size) by (assumption || lia).
    fold jitter scale degrees.
    apply wp_bind, wp_lib.
    destruct (vision_Image L _) as [im0|e] eqn:Eim; [|wp_fail].
    assert (S0 : length (image_shape L im0) = 3%nat).
    { rewrite (HImage _ _ Eim), (tshape_squeeze_image size) by assumption.
      reflexivity. }
    destruct (gpu_affine_grid_3 _ S0) as (flow0 & ->).
    apply wp_bind, wp_py.
    apply wp_bind, wp_lib.
    destruct (vision_pad L _ jitter) as [im1|e] eqn:Epad; [|wp_fail].
    apply wp_bind, wp_np_rand. intros r1 t1 F1.
    cbn [np_rng log set_np_rng] in F1. rewrite E1 in F1.
    inversion F1; subst r1 t1; clear F1.
    apply wp_bind, wp_np_rand. intros r2 t2 F2.
    cbn [np_rng log set_np_rng] in F2. rewrite E2 in F2.
    inversion F2; subst r2 t2; clear F2.
    apply wp_bind, wp_lib.
    destruct (vision_crop_pad L im1 _ row1 col1) as [im2|e] eqn:Ecrop1;
      [|wp_fail].
    assert (S2 : length (image_shape L im2) = 3%nat).
    { apply (Hcropshape _ _ _ _ _ Ecrop1).
      - rewrite py_int_two_thirds by assumption.
        assert (0 <= 2 * jitter / 3)%Z by (apply Z.div_pos; lia). lia.
      - now rewrite (Hpad _ _ _ Epad), Hflow. }
    apply wp_bind, wp_np_rand. intros r3 t3 F3.
    cbn [np_rng log set_np_rng] in F3. rewrite E3 in F3.
    inversion F3; subst r3 t3; clear F3.
    destruct (py_index_rand (scale_factors scale) u1 Hu1) as (zoom & Ez & Hz);
      [rewrite length_scale_factors; lia|].
    apply wp_bind, wp_py. rewrite Ez.
    destruct (gpu_affine_grid_3 _ S2) as (flow2 & ->).
    apply wp_bind, wp_py.
    apply wp_bind, wp_lib.
    destruct (vision_zoom L _ zoom) as [im3|e] eqn:Ezoom; [|wp_fail].
    assert (S3 : length (image_shape L im3) = 3%nat).
    { now rewrite (Hzoom _ _ _ Ezoom), Hflow. }
    apply wp_bind, wp_np_rand. intros r4 t4 F4.
    cbn [np_rng log set_np_rng] in F4. rewrite E4 in F4.
    inversion F4; subst r4 t4; clear F4.
    destruct (py_index_rand (rotate_factors degrees) u2 Hu2) as (angle & Ea & Ha);
      [rewrite length_rotate_factors by assumption;
       assert (0 <= degrees / 2)%Z by (apply Z.div_pos; lia); lia|].
    apply wp_bind, wp_py. rewrite Ea.
    destruct (gpu_affine_grid_3 _ S3) as (flow3 & ->).
    apply wp_bind, wp_py.
    apply wp_bind, wp_lib.
    destruct (vision_rotate L _ angle) as [im4|e]; [|wp_fail].
    apply wp_bind, wp_np_rand. intros r5 t5 F5.
    cbn [np_rng log set_np_rng] in F5. rewrite E5 in F5.
    inversion F5; subst r5 t5; clear F5.
    apply wp_bind, wp_np_rand. intros r6 t6 F6.
    cbn [np_rng log set_np_rng] in F6. rewrite E6 in F6.
    inversion F6; subst r6 t6; clear F6.
    apply wp_bind, wp_lib.
    destruct (vision_crop_pad L im4 _ row2 col2) as [im5|e] eqn:Ecrop; [|wp_fail].
    apply wp_bind, wp_lib.
    destruct (image_data L im5) as [data|e] eqn:Edata; [|wp_fail].
    apply wp_mret.
    exists zoom, angle, data.
    split; [|split; [|split; [|split; [|split; [|split]]]]].
    + cbn [trace log set_np_rng exn_of]. rewrite <- !app_assoc. cbn [app].
      now rewrite py_int_two_thirds.
    + apply (py_index_nth_error _ _ _ Hu1) in Ez;
        [|rewrite length_scale_factors; lia].
      rewrite length_scale_factors in Ez.
      replace (INR 11) with 11 in Ez by (cbn; lra). unfold zooms.
      rewrite <- scale_factors_spec. exact Ez.
    + apply (py_index_nth_error _ _ _ Hu2) in Ea; [exact Ea|].
      rewrite length_rotate_factors by assumption.
      assert (0 <= degrees / 2)%Z by (apply Z.div_pos; lia). lia.
    + apply rotate_factors_bound in Ha; [lia|assumption].
    + reflexivity.
    + reflexivity.
    + eapply Hcrop; eassumption.
  - intros -> im Eim. unfold lucid_transforms.
    cbv [mbind M_bind bind]. unfold lib at 1. rewrite Eim. cbn [exn_of].
    rewrite (HImage _ _ Eim), (tshape_squeeze_pixel img Himg).
    reflexivity.
Qed.

End Aug.

Module StandInAug.
Import StandIn.

Lemma rand_ok : rand_contract lib.
Proof. intros s. cbn. lra. Qed.

Lemma crop_pad_ok : crop_pad_contract lib.
Proof.
  intros im im' n row col data E1 E2. cbn in E1, E2.
  inversion E1; subst. rewrite to_of_T3 in E2. inversion E2; subst.
  rewrite Nat2Z.id. unfold resize.
  apply Forall_map, List.Forall_forall. intros ch _.
  split; [apply length_tab|]. apply Forall_tab. intros i _. apply length_tab.
Qed.

Lemma tab_S {A} (n : nat) (f : nat -> A) :
  tab (S n) f = f 0%nat :: tab n (fun i => f (S i)).
Proof.
  unfold tab. cbn [seq map]. f_equal. rewrite <- seq_shift. apply map_map.
Qed.

Lemma tshape_resize (n : nat) (im : tensor) :
  (0 < n)%nat -> length (tshape im) = 3%nat ->
  length (tshape (of_T3 (resize n (to_T3 im)))) = 3%nat.
Proof.
  intros Hn Hs. destruct im as [x|[|t' ts]]; try discriminate.
  destruct n as [|n']; [lia|].
  cbn [to_T3 items map resize of_T3 tshape]. rewrite !tab_S.
  reflexivity.
Qed.

Lemma shape_ok : image_shape_contract lib.
Proof.
  split; [|split; [|split; [|split]]].
  - intros px im E. cbn in E. now inversion E.
  - reflexivity.
  - intros im j im' E. cbn in E. now inversion E.
  - intros im n row col im' E Hn Hs. cbn in E. inversion E; subst.
    cbn [image_shape lib] in *. apply tshape_resize; [lia|assumption].
  - intros im z im' E. cbn in E. now inversion E.
Qed.

End StandInAug.

Lemma lucid_transforms_sequence_witness :
  (let (r, w') :=
     lucid_transforms StandIn.lib
       [[[[1; 2]; [3; 4]]; [[5; 6]; [7; 8]]; [[9; 10]; [11; 12]]]]
       StandIn.kw0 StandIn.world0 in
   match r with
   | Ok out => exists data, out = [data] /\ Forall (shape2 2 2) data
   | Raise e => exists c, last (trace StandIn.lib w') = Some (c, Some e)
   end)
  /\ lucid_transforms StandIn.lib [[[[1]]; [[2]]; [[3]]]] StandIn.kw0
                      StandIn.world0
     = (Raise ValueError,
        log StandIn.lib c_python (Some ValueError)
            (log StandIn.lib c_vision_Image None StandIn.world0)).
Proof.
  split.
  - pose proof (lucid_transforms_sequence StandIn.lib
                  [[[[1; 2]; [3; 4]]; [[5; 6]; [7; 8]]; [[9; 10]; [11; 12]]]]
                  StandIn.kw0 StandIn.world0 2
                  StandInAug.rand_ok StandInAug.crop_pad_ok
                  StandInAug.shape_ok) as H.
    cbv zeta in H.
    destruct H as (_ & _ & H & _).
    + repeat (split || constructor).
    + now vm_compute.
    + now vm_compute.
    + specialize (H ltac:(lia)).
      cbn [np_random_rand StandIn.lib] in H.
      destruct (lucid_transforms _ _ _ _) as [[out|e] w'].
      * destruct H as (? & ? & data & _ & _ & _ & _ & _ & E & Hs).
        exists data. split; assumption.
      * destruct H as (c & E & _). exists c. exact E.
  - pose proof (lucid_transforms_sequence StandIn.lib
                  [[[[1]]; [[2]]; [[3]]]]
                  StandIn.kw0 StandIn.world0 1
                  StandInAug.rand_ok StandInAug.crop_pad_ok
                  StandInAug.shape_ok) as H.
    cbv zeta in H.
    destruct H as (_ & _ & _ & H & _).
    + repeat (split || constructor).
    + now vm_compute.
    + now vm_compute.
    + exact (H eq_refl _ eq_refl).
Defined.

(** ** Relations that every step of the script keeps

    [J] relates the world before a run to the world after it.  If [J] is
    reflexive, composes, and holds of every single change of the world
    that the script makes, then it holds of every function of the script.
    [p] is the identity of the image buffer. *)

Section Invariant.

Context (L : Framework).
Variable J : option exn -> World L -> World L -> Prop.
Variable okc : call -> Prop.
Variable p : positive.

Hypothesis J_refl : forall w, J None w w.
Hypothesis J_seq : forall o w1 w2 w3, J None w1 w2 -> J o w2 w3 -> J o w1 w3.
Hypothesis J_log : forall c e w, okc c -> J e w (log L c e w).
Hypothesis J_rng : forall s w, J None w (set_np_rng L s w).
Hypothesis J_forward : forall b s w, J None w (set_forward L b s w).
Hypothesis J_grads : forall g w, J None w (set_grads L g w).
Hypothesis J_values :
  forall v w, (forall k, k <> p -> v !! k = values L w !! k) ->
              J None w (set_values L v w).
Hypothesis okc_lib :
  forall c, is_imshow c = false -> is_div c = false -> okc c.
Hypothesis okc_div : okc c_torch_div.
Hypothesis okc_imshow :
  forall ax img, unit_range img -> okc (c_ax_imshow ax (permute_120 img)).

Lemma sat_ret {A} (a : A) (Q : A -> Prop) : Q a -> sat J (ret L a) Q.
Proof. intros H w. split; [apply J_refl|exact H]. Qed.

Lemma sat_mret {A} (a : A) (Q : A -> Prop) : Q a -> sat J (mret a) Q.
Proof. apply sat_ret. Qed.

Lemma sat_bind {A B} (m : M L A) (k : A -> M L B) (Q : A -> Prop) (Q' : B -> Prop) :
  sat J m Q -> (forall a, Q a -> sat J (k a) Q') -> sat J (m ≫= k) Q'.
Proof.
  intros Hm Hk w. apply wp_bind. specialize (Hm w). unfold wp in *.
  destruct (m w) as [[a|e] w1]; cbv beta iota delta [fst snd] in *; [|exact Hm].
  destruct Hm as [HJ HQ]. specialize (Hk a HQ w1). unfold wp in Hk.
  destruct (k a w1) as [[b|e] w2]; cbv beta iota delta [fst snd] in *.
  - destruct Hk as [HJ' HQ']. split; [eapply J_seq; eassumption|exact HQ'].
  - eapply J_seq; eassumption.
Qed.

Lemma sat_weaken {A} (m : M L A) (Q Q' : A -> Prop) :
  sat J m Q -> (forall a, Q a -> Q' a) -> sat J m Q'.
Proof.
  intros Hm HQ w. specialize (Hm w). unfold wp in *.
  destruct (m w) as [[a|e] w1]; cbv beta iota delta [fst snd] in *; [|exact Hm].
  destruct Hm; auto.
Qed.

(** What a run returns can be added to what is known of its result. *)
Lemma sat_result {A} (m : M L A) (Q Q' : A -> Prop) :
  sat J m Q -> (forall w a, fst (m w) = Ok a -> Q' a) ->
  sat J m (fun a => Q a /\ Q' a).
Proof.
  intros Hm HQ w. specialize (Hm w). specialize (HQ w). unfold wp in *.
  destruct (m w) as [[a|e] w1]; cbv beta iota delta [fst snd] in *; [|exact Hm].
  destruct Hm; auto.
Qed.

Lemma sat_lib {A} c (r : result A) :
  okc c -> sat J (lib L c r) (fun a => r = Ok a).
Proof.
  intros Hc w. unfold wp, lib. cbv beta iota delta [fst snd].
  destruct r as [a|e]; cbn [exn_of]; [split; [|reflexivity]|]; now apply J_log.
Qed.

Lemma sat_raise {A} e (Q : A -> Prop) : sat J (raise L e) Q.
Proof. intros w. unfold wp, raise, lib. cbn. apply J_log, okc_lib; reflexivity. Qed.

Lemma sat_py {A} (r : result A) : sat J (py L r) (fun a => r = Ok a).
Proof. destruct r as [a|e]; [now apply sat_ret|apply sat_raise]. Qed.

Lemma sat_np_rand : sat J (np_rand L) (fun _ => True).
Proof.
  intros w. unfold wp, np_rand.
  destruct (np_random_rand L (np_rng L w)) as [u s]. cbv beta iota delta [fst snd].
  split; [|exact I]. eapply J_seq; [apply J_rng|apply J_log, okc_lib; reflexivity].
Qed.

Lemma sat_for_each {A S} (l : list A) (body : A -> S -> M L S) (Inv : S -> Prop) :
  (forall a s, Inv s -> sat J (body a s) Inv) ->
  forall s, Inv s -> sat J (for_each L l body s) Inv.
Proof.
  intros Hbody. induction l as [|a l IH]; intros s Hs; cbn [for_each].
  - now apply sat_ret.
  - eapply sat_bind; [now apply Hbody|]. intros s' Hs'. now apply IH.
Qed.

Lemma sat_init_fft_buf size kw : sat J (init_fft_buf L size kw) (fun _ => True).
Proof.
  intros w. unfold wp, init_fft_buf.
  destruct (np_random_normal L _ (rand_sd kw) (np_rng L w)) as [[buf|e] s];
    cbv beta iota delta [fst snd exn_of]; [split; [|exact I]|];
    (eapply J_seq; [apply J_rng|apply J_log, okc_lib; reflexivity]).
Qed.

Ltac sat_lib_step := apply sat_lib, okc_lib; reflexivity.
Ltac sat_next := eapply sat_bind; [|intros ? ?].

Lemma sat_fftfreq n d : sat J (fftfreq L n d) (fun _ => True).
Proof. eapply sat_weaken; [sat_lib_step|auto]. Qed.

Lemma sat_get_fft_scale n kw : sat J (get_fft_scale L n kw) (fun _ => True).
Proof.
  unfold get_fft_scale.
  sat_next; [apply sat_fftfreq|]. sat_next; [apply sat_fftfreq|].
  now apply sat_mret.
Qed.

Lemma sat_fft_to_rgb t kw : sat J (fft_to_rgb L t kw) (fun _ => True).
Proof.
  unfold fft_to_rgb. sat_next; [apply sat_get_fft_scale|].
  eapply sat_weaken; [sat_lib_step|auto].
Qed.

Lemma sat_tensor_div t scale : sat J (tensor_div L t scale) (fun _ => True).
Proof.
  unfold tensor_div. destruct (true_divide t scale) as [q|e].
  - now apply sat_ret.
  - eapply sat_weaken; [apply sat_lib, okc_div|auto].
Qed.

Lemma sat_rgb_to_fft t kw : sat J (rgb_to_fft L t kw) (fun _ => True).
Proof.
  unfold rgb_to_fft. sat_next; [sat_lib_step|].
  sat_next; [apply sat_get_fft_scale|]. apply sat_tensor_div.
Qed.

(** With a non-negative [decay_power] the division is by no zero. *)
Lemma sat_rgb_to_fft_real t kw :
  0 <= decay_power kw -> sat J (rgb_to_fft L t kw) (fun _ => True).
Proof.
  intros Hp. unfold rgb_to_fft. sat_next; [sat_lib_step|].
  eapply sat_bind.
  - apply (sat_result _ (fun _ => True)
             (fun scale => exists n, (0 < n)%nat
                                     /\ scale = fft_scale n (decay_power kw)));
      [apply sat_get_fft_scale|].
    intros w scale E. apply get_fft_scale_result in E. eauto.
  - intros scale [_ (n & Hn & ->)] w. unfold wp.
    rewrite tensor_div_run by assumption. cbn [fst snd].
    split; [apply J_refl|exact I].
Qed.

Lemma sat_rgb_to_lucid_colorspace t :
  sat J (rgb_to_lucid_colorspace L t) (fun _ => True).
Proof.
  unfold rgb_to_lucid_colorspace. sat_next; [sat_lib_step|]. now apply sat_mret.
Qed.

Lemma sat_image_buf_to_rgb buf kw :
  sat J (image_buf_to_rgb L buf kw) unit_range.
Proof.
  eapply sat_weaken; [apply (sat_result _ (fun _ => True) unit_range)|].
  - unfold image_buf_to_rgb. sat_next; [apply sat_fft_to_rgb|].
    destruct (map4 _ _); [apply sat_raise|now apply sat_ret].
  - intros w img. apply image_buf_to_rgb_bounded.
  - intros img [_ H]. exact H.
Qed.

Lemma sat_show_rgb img label ax dpi :
  (forall ax', okc (c_ax_imshow ax' (permute_120 img))) ->
  sat J (show_rgb L img label ax dpi) (fun _ => True).
Proof.
  intros Himg. unfold show_rgb.
  sat_next.
  { destruct ax as [ax|]; [apply (sat_ret _ (fun _ => True)); exact I|].
    destruct (Req_dec_T dpi 0); [apply sat_raise|].
    eapply sat_weaken; [sat_lib_step|auto]. }
  sat_next; [apply sat_lib, Himg|].
  sat_next; [sat_lib_step|]. sat_next; [sat_lib_step|].
  destruct ax; [now apply sat_ret|]. eapply sat_weaken; [sat_lib_step|auto].
Qed.

Lemma sat_lucid_transforms img kw :
  sat J (lucid_transforms L img kw) (fun _ => True).
Proof.
  unfold lucid_transforms.
  sat_next; [sat_lib_step|]. sat_next; [apply sat_py|].
  sat_next; [sat_lib_step|].
  sat_next; [apply sat_np_rand|]. sat_next; [apply sat_np_rand|].
  sat_next; [sat_lib_step|].
  sat_next; [apply sat_np_rand|]. sat_next; [apply sat_py|].
  sat_next; [apply sat_py|]. sat_next; [sat_lib_step|].
  sat_next; [apply sat_np_rand|]. sat_next; [apply sat_py|].
  sat_next; [apply sat_py|]. sat_next; [sat_lib_step|].
  sat_next; [apply sat_np_rand|]. sat_next; [apply sat_np_rand|].
  sat_next; [sat_lib_step|]. sat_next; [sat_lib_step|].
  now apply sat_mret.
Qed.

Lemma sat_read q : sat J (read L q) (fun _ => True).
Proof. intros w. split; [apply J_refl|exact I]. Qed.

Lemma sat_get_world : sat J (get_world L) (fun _ => True).
Proof. intros w. split; [apply J_refl|exact I]. Qed.

Lemma sat_AdamW params lr wd :
  sat J (AdamW L params lr wd) (fun opt => opt_params L opt = params).
Proof.
  unfold AdamW. eapply sat_weaken; [sat_lib_step|].
  intros opt E. destruct (optim_AdamW L lr wd); inversion E. reflexivity.
Qed.

Lemma sat_zero_grad opt : sat J (zero_grad L opt) (fun _ => True).
Proof.
  intros w. unfold wp, zero_grad. cbv beta iota delta [fst snd].
  split; [|exact I]. eapply J_seq; [apply J_grads|apply J_log, okc_lib; reflexivity].
Qed.

Lemma sat_backward loss f : sat J (backward L loss f) (fun _ => True).
Proof.
  intros w. unfold wp, backward.
  destruct (autograd L f (values L w) (req_grad L w)) as [g|e];
    cbv beta iota delta [fst snd].
  - split; [|exact I]. eapply J_seq; [apply J_grads|apply J_log, okc_lib; reflexivity].
  - apply J_log, okc_lib; reflexivity.
Qed.

Lemma sat_clip_grad_norm_ q max_norm :
  sat J (clip_grad_norm_ L q max_norm) (fun _ => True).
Proof.
  intros w. unfold wp, clip_grad_norm_. cbv beta iota delta [fst snd].
  split; [|exact I].
  destruct (grads L w !! q).
  - eapply J_seq; [apply J_grads|apply J_log, okc_lib; reflexivity].
  - apply J_log, okc_lib; reflexivity.
Qed.

Lemma sat_opt_step opt :
  opt_params L opt = [p] ->
  sat J (opt_step L opt) (fun opt' => opt_params L opt' = [p]).
Proof.
  intros Hp w. unfold wp, opt_step. rewrite Hp. cbn [fold_left fst snd].
  destruct (grads L w !! p) as [g|]; [destruct (values L w !! p) as [v|]|].
  2,3: cbv beta iota delta [fst snd]; split; [|reflexivity];
    (eapply J_seq; [apply J_values; reflexivity|apply J_log, okc_lib; reflexivity]).
  destruct (adamw_update L _ _ _ v g) as [slot v'].
  cbv beta iota delta [fst snd]. split; [|reflexivity].
  eapply J_seq; [apply J_values|apply J_log, okc_lib; reflexivity].
  intros k Hk. now apply lookup_insert_ne.
Qed.

Lemma sat_model_call model layer hook_out img :
  sat J (model_call L model layer hook_out img) (fun _ => True).
Proof.
  intros w. unfold wp, model_call.
  destruct (model_forward L model (values L w) (buffers L w) (torch_rng L w) img)
    as [[[ran|e] b] s]; cbv beta iota delta [fst snd exn_of].
  - split; [|exact I]. eapply J_seq; [apply J_forward|apply J_log, okc_lib; reflexivity].
  - eapply J_seq; [apply J_forward|apply J_log, okc_lib; reflexivity].
Qed.

Lemma sat_subscript hook_out k : sat J (subscript L hook_out k) (fun _ => True).
Proof.
  destruct hook_out as [o|]; cbn [subscript]; [|apply sat_raise].
  eapply sat_weaken; [apply sat_py|auto].
Qed.

Lemma sat_compute_loss feature hook_out :
  sat J (compute_loss L feature hook_out) (fun _ => True).
Proof.
  destruct feature as [f|]; cbn [compute_loss].
  - sat_next; [apply sat_subscript|]. sat_next; [apply sat_py|].
    now apply sat_mret.
  - sat_next; [apply sat_subscript|]. now apply sat_mret.
Qed.

Lemma sat_forward_loss model layer feature kw q hook_out :
  sat J (forward_loss L model layer feature kw q hook_out) (fun _ => True).
Proof.
  unfold forward_loss.
  sat_next; [apply sat_read|]. sat_next; [apply sat_fft_to_rgb|].
  sat_next; [apply sat_lucid_transforms|]. sat_next; [apply sat_model_call|].
  sat_next; [apply sat_compute_loss|]. now apply sat_mret.
Qed.

Lemma sat_frame_due debug steps frames i :
  sat J (frame_due L debug steps frames i) (fun _ => True).
Proof.
  unfold frame_due. destruct debug; [|now apply sat_ret].
  destruct (frames =? 0)%Z; [apply sat_raise|].
  destruct (py_int _ =? 0)%Z; [apply sat_raise|now apply sat_ret].
Qed.

Lemma sat_iteration model layer feature steps grad_clip debug frames kw i st :
  opt_params L (fst st) = [p] ->
  sat J (iteration L model layer feature steps grad_clip debug frames kw p i st)
      (fun st' => opt_params L (fst st') = [p]).
Proof.
  destruct st as [opt hook_out0]. cbn [fst]. intros Hp. unfold iteration.
  sat_next; [apply sat_zero_grad|]. sat_next; [apply sat_get_world|].
  eapply sat_bind; [apply sat_forward_loss|intros [[loss stats] hook_out] _].
  sat_next; [apply sat_backward|]. sat_next; [apply sat_clip_grad_norm_|].
  eapply sat_bind; [now apply sat_opt_step|intros opt' Hp'].
  eapply sat_bind; [apply sat_frame_due|intros due _].
  sat_next; [|now apply sat_mret].
  destruct due; [|now apply (sat_ret _ (fun _ => True))].
  sat_next; [sat_lib_step|]. sat_next; [apply sat_read|].
  sat_next; [apply sat_image_buf_to_rgb|].
  destruct (kw_label kw); [apply sat_raise|].
  apply sat_show_rgb. intros ax'. now apply okc_imshow.
Qed.

Lemma sat_optimize model layer feature steps grad_clip debug frames kw n st :
  opt_params L (fst st) = [p] ->
  sat J (optimize L model layer feature steps grad_clip debug frames kw p n st)
      (fun st' => opt_params L (fst st') = [p]).
Proof.
  intros Hp. unfold optimize.
  apply (sat_for_each _ _ (fun st => opt_params L (fst st) = [p])); [|exact Hp].
  intros i st' Hst'. now apply sat_iteration.
Qed.

Lemma sat_initial_buf start_image size kw :
  sat J (initial_buf L start_image size kw) (fun _ => True).
Proof.
  unfold initial_buf. destruct start_image as [img|]; [|apply sat_init_fft_buf].
  sat_next; [sat_lib_step|]. sat_next; [apply sat_py|].
  sat_next; [sat_lib_step|].
  sat_next; [apply sat_rgb_to_lucid_colorspace|]. apply sat_rgb_to_fft.
Qed.

Lemma sat_initial_buf_real start_image size kw :
  start_image = None \/ 0 <= decay_power kw ->
  sat J (initial_buf L start_image size kw) (fun _ => True).
Proof.
  intros Hreal. unfold initial_buf.
  destruct start_image as [img|]; [|apply sat_init_fft_buf].
  destruct Hreal as [Hnone|Hp]; [discriminate|].
  sat_next; [sat_lib_step|]. sat_next; [apply sat_py|].
  sat_next; [sat_lib_step|].
  sat_next; [apply sat_rgb_to_lucid_colorspace|].
  now apply sat_rgb_to_fft_real.
Qed.

Lemma sat_optimize_leaf model layer feature steps lr weight_decay grad_clip
      debug frames kw n :
  sat J (optimize_leaf L model layer feature steps lr weight_decay grad_clip
                       debug frames kw p n)
      (fun q => q = p).
Proof.
  unfold optimize_leaf.
  eapply sat_bind; [apply sat_AdamW|intros opt Hopt].
  sat_next; [sat_lib_step|].
  sat_next; [now apply sat_optimize|]. now apply sat_ret.
Qed.

End Invariant.

(** The same for the whole script, where the image buffer is allocated. *)

Section Whole.

Context (L : Framework).
Variable J : option exn -> World L -> World L -> Prop.
Variable okc : call -> Prop.

Hypothesis J_refl : forall w, J None w w.
Hypothesis J_seq : forall o w1 w2 w3, J None w1 w2 -> J o w2 w3 -> J o w1 w3.
Hypothesis J_log : forall c e w, okc c -> J e w (log L c e w).
Hypothesis J_rng : forall s w, J None w (set_np_rng L s w).
Hypothesis J_forward : forall b s w, J None w (set_forward L b s w).
Hypothesis J_grads : forall g w, J None w (set_grads L g w).
Hypothesis J_values : forall v w, J None w (set_values L v w).
Hypothesis J_req_grad : forall s w, J None w (set_req_grad L s w).
Hypothesis okc_lib :
  forall c, is_imshow c = false -> is_div c = false -> okc c.
Hypothesis okc_div : okc c_torch_div.
Hypothesis okc_imshow :
  forall ax img, unit_range img -> okc (c_ax_imshow ax (permute_120 img)).

Lemma sat_requires_grad_ t : sat J (requires_grad_ L t) (fun _ => True).
Proof.
  intros w. unfold wp, requires_grad_. cbv beta iota delta [fst snd].
  split; [|exact I].
  eapply J_seq; [apply J_values|].
  eapply J_seq; [apply J_req_grad|apply J_log, okc_lib; reflexivity].
Qed.

Ltac inv_bind lem :=
  eapply sat_bind; try eassumption; [eapply lem; eassumption|].

(** The script after [initial_buf] makes no division of tensors: what
    [initial_buf] keeps, the script keeps. *)
Lemma sat_setup_and_optimize_from model layer feature start_image size steps
      lr weight_decay grad_clip debug frames kw n :
  sat J (initial_buf L start_image size kw) (fun _ => True) ->
  sat J (setup_and_optimize L model layer feature start_image size steps
                            lr weight_decay grad_clip debug frames kw n)
      (fun _ => True).
Proof.
  intros Hinit. unfold setup_and_optimize.
  eapply sat_bind; try eassumption. intros buf _.
  eapply sat_bind; try eassumption; [apply sat_requires_grad_|intros p _].
  eapply sat_weaken;
    [eapply (sat_optimize_leaf L J okc p); try eassumption; auto|auto].
Qed.

Lemma sat_visualize_feature_from model layer feature start_image size steps
      lr weight_decay grad_clip debug frames show kw :
  sat J (initial_buf L start_image size kw) (fun _ => True) ->
  sat J (visualize_feature L model layer feature start_image size steps
                           lr weight_decay grad_clip debug frames show kw)
      (fun r => forall img, r = Some img -> unit_range img).
Proof.
  intros Hinit. unfold visualize_feature.
  eapply sat_bind; try eassumption;
    [now apply sat_setup_and_optimize_from|intros p _].
  eapply sat_bind; try eassumption;
    [eapply sat_lib; try eassumption; apply okc_lib; reflexivity|intros _ _].
  inv_bind sat_read. intros buf _.
  inv_bind sat_image_buf_to_rgb. intros retval Hretval.
  destruct show.
  - eapply sat_bind; try eassumption;
      [|intros _ _; eapply sat_mret; try eassumption; discriminate].
    destruct debug; cbn [negb].
    + now apply (sat_ret L J J_refl tt (fun _ => True)).
    + eapply sat_show_rgb; try eassumption. intros ax'. now apply okc_imshow.
  - eapply sat_mret; try eassumption. intros img E. now inversion E; subst.
Qed.

Lemma sat_setup_and_optimize model layer feature start_image size steps
      lr weight_decay grad_clip debug frames kw n :
  sat J (setup_and_optimize L model layer feature start_image size steps
                            lr weight_decay grad_clip debug frames kw n)
      (fun _ => True).
Proof.
  apply sat_setup_and_optimize_from.
  eapply sat_initial_buf; eassumption.
Qed.

Lemma sat_visualize_feature model layer feature start_image size steps
      lr weight_decay grad_clip debug frames show kw :
  sat J (visualize_feature L model layer feature start_image size steps
                           lr weight_decay grad_clip debug frames show kw)
      (fun r => forall img, r = Some img -> unit_range img).
Proof.
  apply sat_visualize_feature_from.
  eapply sat_initial_buf; eassumption.
Qed.

End Whole.

(** ** Exceptions *)

Lemma clean_app evs evs' : clean evs -> clean evs' -> clean (evs ++ evs').
Proof. intros H H'. apply Forall_app. now split. Qed.

Lemma clean_no_raise evs evs0 c e evs1 :
  clean evs -> evs = evs0 ++ (c, Some e) :: evs1 -> False.
Proof.
  intros H ->. apply Forall_app in H as [_ H]. inversion H as [|? ? Hc _].
  discriminate Hc.
Qed.

(** In a list whose only raising call is the last one, a raising call is
    the last one. *)
Lemma last_raise evs0 c e evs0' c' e' evs1 :
  clean evs0 ->
  evs0 ++ [(c, Some e)] = evs0' ++ (c', Some e') :: evs1 ->
  evs1 = [] /\ e' = e.
Proof.
  intros Hc E. destruct evs1 as [|x evs1 _] using rev_ind.
  - apply app_inj_tail in E as [_ E]. inversion E. auto.
  - change (evs0' ++ (c', Some e') :: evs1 ++ [x])
      with (evs0' ++ ((c', Some e') :: evs1) ++ [x]) in E.
    rewrite app_assoc in E. apply app_inj_tail in E as [E _].
    exfalso. eapply clean_no_raise; eassumption.
Qed.

Section Uncaught.
Context (L : Framework).

Lemma uncaught_refl (w : World L) : uncaught None w w.
Proof. exists []. split; [now rewrite app_nil_r|constructor]. Qed.

Lemma uncaught_seq o (w1 w2 w3 : World L) :
  uncaught None w1 w2 -> uncaught o w2 w3 -> uncaught o w1 w3.
Proof.
  intros (evs & E & Hc) (evs' & E' & Ho). exists (evs ++ evs').
  split; [now rewrite E', E, app_assoc|].
  destruct o as [e|]; [|now apply clean_app].
  destruct Ho as (evs0 & c & -> & Hc0). exists (evs ++ evs0), c.
  split; [now rewrite app_assoc|now apply clean_app].
Qed.

Lemma uncaught_log c e (w : World L) : uncaught e w (log L c e w).
Proof.
  exists [(c, e)]. split; [reflexivity|]. destruct e as [e|].
  - exists [], c. split; [reflexivity|constructor].
  - now repeat constructor.
Qed.

Lemma uncaught_same o (w w' : World L) :
  trace L w' = trace L w -> o = None -> uncaught o w w'.
Proof. intros E ->. exists []. split; [now rewrite app_nil_r|constructor]. Qed.

Lemma sat_transparent {A} (m : M L A) Q : sat uncaught m Q -> transparent m.
Proof.
  intros H w. specialize (H w). unfold wp in H.
  destruct (m w) as [[a|e] w']; cbv beta iota delta [fst snd] in H.
  - destruct H as [(evs & E & Hc) _]. exists evs. split; [exact E|]. split.
    + intros evs0 c e evs1 E'. exfalso. eapply clean_no_raise; eassumption.
    + intros e E'. discriminate E'.
  - destruct H as (evs & E & evs0 & c & -> & Hc). eexists. split; [exact E|].
    split.
    + intros evs0' c' e' evs1 E'.
      destruct (last_raise _ _ _ _ _ _ _ Hc E') as [-> ->]. auto.
    + intros e' E'. inversion E'; subst. eauto.
Qed.

Ltac uncaught_family lem :=
  eapply sat_transparent, lem;
  first [ exact uncaught_refl | exact uncaught_seq
        | intros; apply uncaught_log
        | intros; now apply uncaught_same
        | intros; exact I ].

(** C7: nothing in the script catches an exception, recovers from it or
    retries.  For [visualize_feature] and for every helper that calls into
    a library: when a call raises [e], no further call is made and the
    function raises the same [e]; and the function raises nothing that a
    call did not raise. *)
Theorem exceptions_propagate :
  (forall model layer feature start_image size steps lr weight_decay grad_clip
          debug frames show kw,
      transparent (visualize_feature L model layer feature start_image size
                                     steps lr weight_decay grad_clip debug
                                     frames show kw))
  /\ (forall size kw, transparent (init_fft_buf L size kw))
  /\ (forall size kw, transparent (get_fft_scale L size kw))
  /\ (forall t kw, transparent (fft_to_rgb L t kw))
  /\ (forall t kw, transparent (rgb_to_fft L t kw))
  /\ (forall t, transparent (rgb_to_lucid_colorspace L t))
  /\ (forall buf kw, transparent (image_buf_to_rgb L buf kw))
  /\ (forall img kw, transparent (lucid_transforms L img kw))
  /\ (forall img label ax dpi, transparent (show_rgb L img label ax dpi)).
Proof.
  repeat split; intros.
  - uncaught_family (sat_visualize_feature L uncaught (fun _ => True)).
  - uncaught_family (sat_init_fft_buf L uncaught (fun _ => True)).
  - uncaught_family (sat_get_fft_scale L uncaught (fun _ => True)).
  - uncaught_family (sat_fft_to_rgb L uncaught (fun _ => True)).
  - uncaught_family (sat_rgb_to_fft L uncaught (fun _ => True)).
  - uncaught_family (sat_rgb_to_lucid_colorspace L uncaught (fun _ => True)).
  - uncaught_family (sat_image_buf_to_rgb L uncaught (fun _ => True)).
  - uncaught_family (sat_lucid_transforms L uncaught (fun _ => True)).
  - uncaught_family (sat_show_rgb L uncaught (fun _ => True)).
Qed.

End Uncaught.

(** ** The range of the images *)

Lemma entry_or_default (P : R -> Prop) (ch : T2) i j :
  P 0 -> Forall (Forall P) ch -> P (nth j (nth i ch []) 0).
Proof.
  intros H0 Hch.
  destruct (nth_in_or_default i ch []) as [Hi|Hi].
  - rewrite List.Forall_forall in Hch. specialize (Hch _ Hi).
    destruct (nth_in_or_default j (nth i ch []) 0) as [Hj|Hj].
    + rewrite List.Forall_forall in Hch. now apply Hch.
    + now rewrite Hj.
  - rewrite Hi. now destruct j.
Qed.

Lemma unit_range_permute_120 img : unit_range img -> unit_range (permute_120 img).
Proof.
  intros H. unfold unit_range, all_entries in *. unfold permute_120.
  apply Forall_tab. intros i _. apply Forall_tab. intros j _.
  apply Forall_map. rewrite List.Forall_forall in H |- *. intros ch Hch.
  apply entry_or_default; [lra|]. now apply H.
Qed.

Section Shown.
Context (L : Framework).

Lemma shown_refl (w : World L) : shown_in_range None w w.
Proof. exists []. split; [now rewrite app_nil_r|]. intros ax x o []. Qed.

Lemma shown_seq o (w1 w2 w3 : World L) :
  shown_in_range None w1 w2 -> shown_in_range o w2 w3 -> shown_in_range o w1 w3.
Proof.
  intros (evs & E & H) (evs' & E' & H'). exists (evs ++ evs').
  split; [now rewrite E', E, app_assoc|].
  intros ax x o' Hin. apply in_app_or in Hin as [Hin|Hin]; eauto.
Qed.

Lemma shown_log c e (w : World L) : in_range c -> shown_in_range e w (log L c e w).
Proof.
  intros Hc. exists [(c, e)]. split; [reflexivity|].
  intros ax x o [E|[]]. inversion E; subst. now apply (Hc ax).
Qed.

Lemma shown_same o (w w' : World L) :
  trace L w' = trace L w -> shown_in_range o w w'.
Proof. intros E. exists []. split; [now rewrite app_nil_r|]. intros ax x o' []. Qed.

Lemma in_range_lib c : is_imshow c = false -> in_range c.
Proof. intros H ax x ->. discriminate H. Qed.

Lemma in_range_imshow ax img :
  unit_range img -> in_range (c_ax_imshow ax (permute_120 img)).
Proof. intros H ax' x E. inversion E; subst. now apply unit_range_permute_120. Qed.

Lemma real_refl (w : World L) : stays_real None w w.
Proof. exists []. split; [now rewrite app_nil_r|constructor]. Qed.

Lemma real_seq o (w1 w2 w3 : World L) :
  stays_real None w1 w2 -> stays_real o w2 w3 -> stays_real o w1 w3.
Proof.
  intros (evs & E & H) (evs' & E' & H'). exists (evs ++ evs').
  split; [now rewrite E', E, app_assoc|]. apply Forall_app. now split.
Qed.

Lemma real_log c e (w : World L) :
  is_div c = false -> stays_real e w (log L c e w).
Proof.
  intros Hc. exists [(c, e)]. split; [reflexivity|]. now repeat constructor.
Qed.

Lemma real_same o (w w' : World L) :
  trace L w' = trace L w -> stays_real o w w'.
Proof. intros E. exists []. split; [now rewrite app_nil_r|constructor]. Qed.


End Shown.


(** A start image with [decay_power = -1]: the set-up ends at the
    division by the scale. *)
Lemma initial_buf_negative_decay :
  exists w1,
    initial_buf StandIn.lib
      (Some [[[[1; 2]; [3; 4]]; [[5; 6]; [7; 8]]; [[9; 10]; [11; 12]]]])
      2 StandIn.kw_negative StandIn.world0 = (Raise NonFinite, w1)
    /\ last (trace StandIn.lib w1) = Some (c_torch_div, Some NonFinite).
Proof.
  unfold initial_buf.
  rewrite mbind_run. unfold lib at 1. cbn [vision_Image StandIn.lib exn_of].
  cbv beta iota.
  rewrite mbind_run.
  change (py StandIn.lib (gpu_affine_grid [3%nat; Z.to_nat 2; Z.to_nat 2]))
    with (ret StandIn.lib
            ((Z.to_nat 2, Z.to_nat 2),
             tab 1 (fun _ => tab (Z.to_nat 2) (fun i => tab (Z.to_nat 2) (fun j =>
               [linear_points (Z.to_nat 2) j; linear_points (Z.to_nat 2) i]))))).
  unfold ret at 1. cbv beta iota.
  rewrite mbind_run. unfold lib at 1.
  cbn [image_data StandIn.lib image_set_flow exn_of]. cbv beta iota.
  rewrite mbind_run. unfold rgb_to_lucid_colorspace. rewrite mbind_run.
  unfold lib at 1. cbn [torch_inverse StandIn.lib exn_of]. cbv beta iota.
  unfold ret at 1. cbv beta iota.
  match goal with
  | |- context [rgb_to_fft StandIn.lib ?t _ _] =>
      assert (Ht : shape4 1 3 2 2 t)
  end.
  { change (to_T3 (squeeze (of_T4
              [[[[1; 2]; [3; 4]]; [[5; 6]; [7; 8]]; [[9; 10]; [11; 12]]]])))
      with [[[1; 2]; [3; 4]]; [[5; 6]; [7; 8]]; [[9; 10]; [11; 12]]].
    apply (shape4_lucid 1 2 2); [lia|lia|].
    unfold normalize, imagenet_mean_std, bcast4, per_channel.
    cbn [bcast map zipw]. repeat (split || constructor). }
  destruct (StandInFacts.rfft_ok 1%nat 3%nat 2%nat _ Ht) as (f & Ef & Hf & _).
  rewrite (rgb_to_fft_zero StandIn.lib 1%nat 3%nat 2%nat
                           StandIn.kw_negative _ f)
    by (assumption || lia || apply StandInFacts.decay_negative).
  eexists. split; [reflexivity|].
  cbn [trace log]. apply last_snoc.
Qed.


(** ** The frozen model *)

Section Frame.
Context (L : Framework).

Lemma frame_refl p (w : World L) : frame p None w w.
Proof. now intros k _. Qed.

Lemma frame_seq p o (w1 w2 w3 : World L) :
  frame p None w1 w2 -> frame p o w2 w3 -> frame p o w1 w3.
Proof. intros H1 H2 k Hk. now rewrite H2, H1. Qed.

Lemma frame_same p o (w w' : World L) :
  values L w' = values L w -> frame p o w w'.
Proof. intros E k _. now rewrite E. Qed.

Lemma frame_values p v (w : World L) :
  (forall k, k <> p -> v !! k = values L w !! k) ->
  frame p None w (set_values L v w).
Proof. intros H k Hk. now apply H. Qed.

Lemma same_values_seq o (w1 w2 w3 : World L) :
  same_values None w1 w2 -> same_values o w2 w3 -> same_values o w1 w3.
Proof. unfold same_values. congruence. Qed.

Ltac frame_side p :=
  first [ exact (frame_refl p) | exact (frame_seq p) | exact (frame_values p)
        | (intros; now apply frame_same) | (intros; exact I) ].

Lemma initial_buf_same_values start_image size kw (w : World L) :
  values L (snd (initial_buf L start_image size kw w)) = values L w.
Proof.
  pose proof (sat_initial_buf L same_values (fun _ => True)
                (fun w => eq_refl) same_values_seq
                (fun c e w _ => eq_refl) (fun s w => eq_refl)
                (fun c _ _ => I) I start_image size kw w) as H.
  unfold wp in H.
  destruct (initial_buf L start_image size kw w) as [[buf|e] w1];
    cbv beta iota delta [fst snd] in *; [apply H|exact H].
Qed.

Lemma sat_frame {A} p (m : M L A) Q (w : World L) :
  sat (frame p) m Q -> frame p None w (snd (m w)).
Proof.
  intros H. specialize (H w). unfold wp in H.
  destruct (m w) as [[a|e] w']; cbv beta iota delta [fst snd] in *.
  - apply H.
  - intros k Hk. now apply H.
Qed.

(** After the image buffer [p] is made a leaf, nothing else is written. *)
Lemma optimize_leaf_frame model layer feature steps lr weight_decay grad_clip
      debug frames kw n p :
  sat (frame p)
      (optimize_leaf L model layer feature steps lr weight_decay grad_clip
                     debug frames kw p n)
      (fun q => q = p).
Proof. apply (sat_optimize_leaf L (frame p) (fun _ => True) p); frame_side p. Qed.

Lemma setup_and_optimize_frame model layer feature start_image size steps
      lr weight_decay grad_clip debug frames kw n (w : World L) :
  let p := fresh (dom (values L w)) in
  let r := setup_and_optimize L model layer feature start_image size steps
                              lr weight_decay grad_clip debug frames kw n w in
  frame p None w (snd r) /\ (forall q, fst r = Ok q -> q = p).
Proof.
  intros p r. subst r.
  remember (setup_and_optimize L model layer feature start_image size steps
              lr weight_decay grad_clip debug frames kw n w) as rw eqn:Erw.
  unfold setup_and_optimize in Erw. rewrite mbind_run in Erw.
  pose proof (initial_buf_same_values start_image size kw w) as E1.
  destruct (initial_buf L start_image size kw w) as [[buf|e] w1];
    cbv beta iota delta [fst snd] in E1.
  2: { subst rw. cbv beta iota delta [fst snd].
       split; [now apply frame_same|discriminate]. }
  rewrite mbind_run in Erw. unfold requires_grad_ in Erw.
  cbv beta iota zeta in Erw. rewrite E1 in Erw. fold p in Erw.
  set (w2 := log L (c_requires_grad p) None _) in Erw.
  assert (H2 : frame p None w w2).
  { subst w2. intros k Hk. cbn [log set_req_grad set_values values].
    rewrite lookup_insert_ne by congruence. reflexivity. }
  pose proof (optimize_leaf_frame model layer feature steps lr weight_decay
                grad_clip debug frames kw n p w2) as H.
  unfold wp in H.
  destruct (optimize_leaf L _ _ _ _ _ _ _ _ _ _ p n w2) as [[q|e] w'];
    subst rw; cbv beta iota delta [fst snd] in *.
  - destruct H as [H Hq]. split; [|intros q' E; congruence].
    eapply frame_seq; eassumption.
  - split; [|discriminate]. intros k Hk. rewrite H by assumption. now apply H2.
Qed.

Lemma sat_after_loop layer (debug show : bool) kw p :
  sat (frame p)
      (lib L (c_hook_remove layer) (Ok tt);;
       buf ← read L p;
       retval ← image_buf_to_rgb L buf kw;
       if show then
         (if negb debug
          then show_rgb L retval (label_of kw) (kw_ax kw) (dpi_of kw)
          else ret L tt : M L unit);;
         ret L (None : option T3)
       else ret L (Some retval))
      (fun _ => True).
Proof.
  eapply sat_bind; [frame_side p| |intros _ _].
  { eapply (sat_lib L (frame p) (fun _ => True)); frame_side p. }
  eapply sat_bind; [frame_side p| |intros buf _].
  { apply sat_read; frame_side p. }
  eapply sat_bind; [frame_side p| |intros retval _].
  { eapply (sat_image_buf_to_rgb L (frame p) (fun _ => True)); frame_side p. }
  destruct show; [|apply sat_ret; [frame_side p|exact I]].
  eapply sat_bind; [frame_side p| |intros _ _; apply sat_ret; [frame_side p|exact I]].
  destruct debug; cbn [negb].
  - apply (sat_ret L (frame p) (frame_refl p) tt (fun _ => True)). exact I.
  - eapply (sat_show_rgb L (frame p) (fun _ => True)); frame_side p.
Qed.

(** C2: the model is frozen.  The optimizer is built over the image buffer
    alone, a leaf that did not exist before the call; with the loop cut
    after any number [n] of iterations, and at the end of
    [visualize_feature], whether it returns or raises, every tensor other
    than the image buffer, so every parameter of the model, holds the data
    it held before the call. *)
Theorem model_is_frozen model layer feature start_image size steps
        lr weight_decay grad_clip debug frames show kw (w : World L) :
  let img_buf := fresh (dom (values L w)) in
  (img_buf ∉ dom (values L w))
  /\ (forall n k, k <> img_buf ->
        values L (snd (setup_and_optimize L model layer feature start_image
                         size steps lr weight_decay grad_clip debug frames kw
                         n w)) !! k
        = values L w !! k)
  /\ (forall k, k <> img_buf ->
        values L (snd (visualize_feature L model layer feature start_image
                         size steps lr weight_decay grad_clip debug frames
                         show kw w)) !! k
        = values L w !! k).
Proof.
  intros p. split; [apply is_fresh|]. split.
  - intros n k Hk.
    now apply (setup_and_optimize_frame model layer feature start_image size
                 steps lr weight_decay grad_clip debug frames kw n w).
  - unfold visualize_feature. rewrite mbind_run.
    destruct (setup_and_optimize_frame model layer feature start_image size
                steps lr weight_decay grad_clip debug frames kw steps w)
      as [H Hq].
    destruct (setup_and_optimize L _ _ _ _ _ _ _ _ _ _ _ _ _ w) as [[q|e] w1];
      cbv beta iota delta [fst snd] in *; [|exact H].
    rewrite (Hq q eq_refl). fold p.
    pose proof (sat_frame p _ _ w1 (sat_after_loop layer debug show kw p)) as H'.
    intros k Hk. rewrite H' by assumption. now apply H.
Qed.

End Frame.

(** ** What is returned and what is shown *)

Section Return.
Context (L : Framework).

Lemma visualize_feature_final model layer feature start_image size steps
      lr weight_decay grad_clip debug frames show kw (w : World L) :
  visualize_feature L model layer feature start_image size steps lr
                    weight_decay grad_clip debug frames show kw w =
  match final_image L model layer feature start_image size steps lr
                    weight_decay grad_clip debug frames kw w with
  | (Ok retval, w1) =>
      if show then
        if debug then (Ok None, w1)
        else match show_rgb L retval (label_of kw) (kw_ax kw) (dpi_of kw) w1 with
             | (Ok _, w2) => (Ok None, w2)
             | (Raise e, w2) => (Raise e, w2)
             end
      else (Ok (Some retval), w1)
  | (Raise e, w1) => (Raise e, w1)
  end.
Proof.
  unfold visualize_feature, final_image. rewrite !mbind_run.
  destruct (setup_and_optimize L _ _ _ _ _ _ _ _ _ _ _ _ _ w) as [[p|e] w1];
    [|reflexivity].
  rewrite !mbind_run.
  destruct (lib L (c_hook_remove layer) (Ok tt) w1) as [[u|e] w2]; [|reflexivity].
  rewrite !mbind_run.
  destruct (read L p w2) as [[buf|e] w3]; [|reflexivity].
  rewrite !mbind_run.
  destruct (image_buf_to_rgb L buf kw w3) as [[retval|e] w4]; [|reflexivity].
  destruct show; [|reflexivity]. rewrite mbind_run.
  destruct debug; cbn [negb]; [reflexivity|].
  destruct (show_rgb L retval _ _ _ w4) as [[u'|e] w5]; reflexivity.
Qed.

(** C8, as amended: [visualize_feature] returns the synthesized image
    only when called with [show=False], and then it returns it with no
    further call.  When [show=True] it returns None; it calls [show_rgb] on
    the final image exactly when [debug] is false, and with [debug=True]
    it makes no call at all after the final image is computed.  An
    exception raised before that is raised unchanged. *)
Theorem visualize_feature_return model layer feature start_image size steps
        lr weight_decay grad_clip debug frames show kw (w : World L) :
  let run := visualize_feature L model layer feature start_image size steps
                               lr weight_decay grad_clip debug frames show kw
                               w in
  let final := final_image L model layer feature start_image size steps lr
                           weight_decay grad_clip debug frames kw w in
  (forall img, fst run = Ok (Some img) ->
               show = false /\ fst final = Ok img /\ snd run = snd final)
  /\ (forall retval, fst final = Ok retval ->
        if show then
          if debug then run = (Ok None, snd final)
          else run = (let (r, w2) := show_rgb L retval (label_of kw) (kw_ax kw)
                                              (dpi_of kw) (snd final) in
                      (match r with
                       | Ok _ => Ok None
                       | Raise e => Raise e
                       end, w2))
        else run = (Ok (Some retval), snd final))
  /\ (forall e, fst final = Raise e -> run = (Raise e, snd final)).
Proof.
  intros run final. subst run final. rewrite visualize_feature_final.
  destruct (final_image L _ _ _ _ _ _ _ _ _ _ _ _ w) as [[retval|e] w1];
    cbn [fst snd].
  - split; [|split; [|discriminate]].
    + intros img. destruct show; [destruct debug|].
      * discriminate.
      * destruct (show_rgb L retval _ _ _ w1) as [[u|e] w2]; discriminate.
      * intros E. inversion E. auto.
    + intros retval' E. inversion E; subst.
      destruct show; [destruct debug|]; try reflexivity.
      now destruct (show_rgb L retval' _ _ _ w1) as [[u|e] w2].
  - split; [discriminate|]. split; [discriminate|].
    intros e' E. now inversion E.
Qed.

End Return.

Lemma read_written (L : Framework) p (buf : T5) (w : World L) :
  values L w !! p = Some (of_T5 buf) -> read L p w = (Ok buf, w).
Proof.
  intros E. unfold read. rewrite E.
  change (default (Nd []) (Some (of_T5 buf))) with (of_T5 buf).
  now rewrite to_of_T5.
Qed.

Section Quiet.
Context (L : Framework).

Lemma quiet_refl (w : World L) : quiet None w w.
Proof. exists []. split; [now rewrite app_nil_r|constructor]. Qed.

Lemma quiet_seq o (w1 w2 w3 : World L) :
  quiet None w1 w2 -> quiet o w2 w3 -> quiet o w1 w3.
Proof.
  intros (evs & E & H) (evs' & E' & H'). exists (evs ++ evs').
  split; [now rewrite E', E, app_assoc|]. apply Forall_app. now split.
Qed.

Lemma quiet_log c e (w : World L) :
  is_imshow c = false -> quiet e w (log L c e w).
Proof. intros Hc. exists [(c, e)]. split; [reflexivity|]. now repeat constructor. Qed.

(** Computing the final image from the buffer shows nothing. *)
Lemma image_buf_to_rgb_quiet buf kw (w : World L) :
  quiet None w (snd (image_buf_to_rgb L buf kw w)).
Proof.
  pose proof (sat_image_buf_to_rgb L quiet (fun c => is_imshow c = false)
                quiet_refl quiet_seq quiet_log (fun c H _ => H) buf kw w) as H.
  unfold wp in H.
  destruct (image_buf_to_rgb L buf kw w) as [[img|e] w'];
    cbv beta iota delta [fst snd] in *; [apply H|].
  destruct H as (evs & E & H). now exists evs.
Qed.

End Quiet.

Module StandInRun.

(** The stand-in run with no iteration, up to the computation of the
    final image. *)
Lemma final_image_steps0 debug :
  exists retval w1,
    final_image StandIn.lib 1%positive 1%positive (Some 0%Z) None 2 0 0.004 0.1 1
                debug 10 StandIn.kw0 StandIn.world0 = (Ok retval, w1)
    /\ Forall (fun ev => is_imshow (fst ev) = false) (trace StandIn.lib w1).
Proof.
  unfold final_image, setup_and_optimize. rewrite !mbind_run.
  change (initial_buf StandIn.lib None 2 StandIn.kw0 StandIn.world0)
    with (init_fft_buf StandIn.lib 2 StandIn.kw0 StandIn.world0).
  replace (init_fft_buf StandIn.lib 2 StandIn.kw0 StandIn.world0)
    with (Ok (StandIn.constant5 1 3 2 2 2 0.01),
          log StandIn.lib (c_np_random_normal [1; 3; 2; 2; 2]%Z 0.01) None
              (set_np_rng StandIn.lib 1%nat StandIn.world0)) by reflexivity.
  rewrite !mbind_run. unfold requires_grad_.
  cbn [values log set_np_rng StandIn.world0 set_values set_req_grad req_grad].
  replace (fresh (dom (∅ : gmap positive tensor))) with 1%positive
    by (vm_compute; reflexivity).
  unfold optimize_leaf. rewrite !mbind_run.
  unfold AdamW at 1. cbn [optim_AdamW StandIn.lib]. unfold lib at 1.
  cbv beta iota. rewrite !mbind_run. unfold lib at 1. cbv beta iota.
  rewrite !mbind_run.
  change (optimize StandIn.lib 1%positive 1%positive (Some 0%Z) 0 1 debug 10
                   StandIn.kw0 1%positive 0)
    with (fun st : Optimizer StandIn.lib * option tensor => ret StandIn.lib st).
  cbv beta. unfold ret at 1 2. cbv beta iota.
  unfold lib at 1. cbv beta iota. rewrite !mbind_run.
  rewrite (read_written StandIn.lib 1%positive
             (StandIn.constant5 1 3 2 2 2 0.01)) by apply lookup_insert_eq.
  set (w3 := log StandIn.lib (c_hook_remove 1%positive) _ _).
  destruct (image_buf_to_rgb_shape StandIn.lib 2
              (StandIn.constant5 1 3 2 2 2 0.01) StandIn.kw0 w3
              StandInFacts.irfft_ok)
    as (retval & E & _); [lia|apply (StandInFacts.shape5_constant5 1 3 2 2 2)|].
  pose proof (image_buf_to_rgb_quiet StandIn.lib
                (StandIn.constant5 1 3 2 2 2 0.01) StandIn.kw0 w3)
    as (evs & Etr & Hq).
  destruct (image_buf_to_rgb StandIn.lib (StandIn.constant5 1 3 2 2 2 0.01)
                             StandIn.kw0 w3) as [r w1].
  cbn [fst snd] in E, Etr. subst r. exists retval, w1. split; [reflexivity|].
  rewrite Etr. apply Forall_app. split; [|exact Hq].
  subst w3. cbn [trace log set_req_grad set_values set_np_rng StandIn.world0 app].
  now repeat constructor.
Qed.

(** C8, as stated, fails: with [show] and [debug] both set and no
    iteration, the call returns None and has put no image on the screen. *)
Lemma final_display_skipped :
  let r := visualize_feature StandIn.lib 1%positive 1%positive (Some 0%Z) None 2 0
                             0.004 0.1 1 true 10 true StandIn.kw0 StandIn.world0 in
  fst r = Ok None
  /\ ~ exists ax x o, In (c_ax_imshow ax x, o) (trace StandIn.lib (snd r)).
Proof.
  cbv zeta. rewrite visualize_feature_final.
  destruct (final_image_steps0 true) as (retval & w1 & E & H).
  rewrite E. split; [reflexivity|].
  intros (ax & x & o & Hin). rewrite List.Forall_forall in H.
  specialize (H _ Hin). discriminate H.
Qed.

End StandInRun.

(** ** The loss *)

Lemma hooked_app layer ran ran' ho :
  hooked layer (ran ++ ran') ho = hooked layer ran' (hooked layer ran ho).
Proof. unfold hooked. apply fold_left_app. Qed.

Lemma hooked_other layer post ho :
  Forall (fun mo => fst mo <> layer) post -> hooked layer post ho = ho.
Proof.
  induction 1 as [|[m o] post Hm _ IH]; [reflexivity|].
  cbn in Hm. unfold hooked in *. cbn [fold_left].
  destruct (decide (m = layer)); [contradiction|exact IH].
Qed.

(** After a forward pass, [hook_out] holds the output of the last forward
    of the hooked layer. *)
Lemma hooked_last layer pre o post ho :
  Forall (fun mo => fst mo <> layer) post ->
  hooked layer (pre ++ (layer, o) :: post) ho = Some o.
Proof.
  intros Hpost. rewrite hooked_app.
  change ((layer, o) :: post) with ([(layer, o)] ++ post).
  rewrite hooked_app, (hooked_other layer post) by assumption.
  unfold hooked. cbn [fold_left]. destruct (decide (layer = layer)); [reflexivity|contradiction].
Qed.

Section Loss.
Context (L : Framework).

Lemma wp_any {A} (m : M L A) (Q : result A -> World L -> Prop) w :
  (forall r w', Q r w') -> wp m Q w.
Proof. intros H. apply H. Qed.

Lemma compute_loss_spec feature hook_out (w : World L) :
  let (r, w') := compute_loss L feature hook_out w in
  match r with
  | Ok loss =>
      w' = w
      /\ exists o o0,
          hook_out = Some o /\ tindex o 0 = Ok o0
          /\ match feature with
             | Some f => exists ch, tindex o0 f = Ok ch /\ loss = - mean ch
             | None => loss = - mean (tmap (fun x => x * x) o0)
             end
  | Raise e => True
  end.
Proof.
  apply wp_run. unfold compute_loss.
  destruct hook_out as [o|]; [|destruct feature; apply wp_bind, wp_raise; exact I].
  destruct feature as [f|]; cbn [subscript].
  - apply wp_bind, wp_py. destruct (tindex o 0) as [o0|e] eqn:E0; [|exact I].
    apply wp_bind, wp_py. destruct (tindex o0 f) as [ch|e] eqn:Ef; [|exact I].
    apply wp_mret. split; [reflexivity|]. exists o, o0. repeat split; try assumption.
    exists ch. split; [assumption|ring].
  - apply wp_bind, wp_py. destruct (tindex o 0) as [o0|e] eqn:E0; [|exact I].
    apply wp_mret. split; [reflexivity|]. exists o, o0. repeat split; try assumption.
    ring.
Qed.

(** C1: the loss of an iteration.  [forward_loss] is the part of every
    iteration of the loop that computes the loss, which the iteration then
    hands to [backward].  When it returns, [hook_out] is what the hook
    left there during this iteration's forward pass, the output of the
    last forward of the hooked layer, and the loss is minus the mean of
    channel [feature] of its first batch element; when [feature] is None,
    minus the mean of the squares of its first batch element.  A smaller
    loss is a larger mean activation. *)
Theorem loss_is_minus_mean_activation model layer feature kw img_buf hook_out0
        (w : World L) :
  (let (r, w') := forward_loss L model layer feature kw img_buf hook_out0 w in
   match r with
   | Ok (loss, stats, hook_out) =>
       (exists img w1 ran,
           model_forward L model (values L w1) (buffers L w1) (torch_rng L w1)
                         img
           = (Ok ran, buffers L w', torch_rng L w')
           /\ hook_out = hooked layer ran hook_out0
           /\ forall pre o post,
               ran = pre ++ (layer, o) :: post ->
               Forall (fun mo => fst mo <> layer) post ->
               hook_out = Some o)
       /\ exists o o0,
           hook_out = Some o /\ tindex o 0 = Ok o0
           /\ match feature with
              | Some f => exists ch, tindex o0 f = Ok ch /\ loss = - mean ch
              | None => loss = - mean (tmap (fun x => x * x) o0)
              end
   | Raise e => True
   end)
  /\ (forall a b : tensor, - mean a <= - mean b <-> mean b <= mean a).
Proof.
  split; [|intros a b; lra].
  apply wp_run. unfold forward_loss.
  apply wp_bind. unfold wp at 1, read. cbv beta iota delta [fst snd].
  apply wp_bind. unfold wp at 1.
  destruct (fft_to_rgb L _ kw w) as [[img0|e] w1];
    cbv beta iota delta [fst snd]; [|exact I].
  apply wp_bind. unfold wp at 1.
  destruct (lucid_transforms L _ kw w1) as [[img|e] w2];
    cbv beta iota delta [fst snd]; [|exact I].
  apply wp_bind. unfold wp at 1, model_call.
  destruct (model_forward L model (values L w2) (buffers L w2) (torch_rng L w2) img)
    as [[[ran|e] b] s] eqn:Efw; cbv beta iota delta [fst snd]; [|exact I].
  apply wp_bind. unfold wp at 1.
  pose proof (compute_loss_spec feature (hooked layer ran hook_out0)
                (log L (c_model model) (exn_of (Ok (A:=list (Module * tensor)) ran))
                     (set_forward L b s w2))) as Hloss.
  destruct (compute_loss L feature _ _) as [[loss|e] w3];
    cbv beta iota delta [fst snd]; [|exact I].
  destruct Hloss as [-> Hloss]. apply wp_mret. split; [|exact Hloss].
  exists img, w2, ran. split; [exact Efw|]. split; [reflexivity|].
  intros pre o post -> Hpost. now apply hooked_last.
Qed.

End Loss.

(** *** A run of the forward pass *)

Module StandInLoss.

(** With the stand-in libraries the augmentation returns its input
    resized twice. *)
Lemma lucid_transforms_returns (size : nat) (img : T4)
      (w : World StandIn.lib) :
  (2 <= size)%nat -> shape4 1 3 size size img ->
  exists data,
    fst (lucid_transforms StandIn.lib img StandIn.kw0 w) = Ok [data]
    /\ length data = 3%nat.
Proof.
  intros Hsize Himg.
  change (wp (lucid_transforms StandIn.lib img StandIn.kw0)
             (fun r _ => exists data,
                  r = Ok [data] /\ length data = 3%nat) w).
  unfold lucid_transforms.
  rewrite (shape4_size 1 3 size size) by (assumption || lia).
  change (default (Z.of_nat size / 2)%Z (kw_jitter StandIn.kw0))
    with (Z.of_nat size / 2)%Z.
  assert (Hj : (0 <= Z.of_nat size / 2)%Z) by (apply Z.div_pos; lia).
  rewrite py_int_two_thirds by assumption.
  assert (0 <= 2 * (Z.of_nat size / 2) / 3)%Z by (apply Z.div_pos; lia).
  apply wp_bind, wp_lib. cbn [vision_Image StandIn.lib].
  assert (S0 : length (tshape (squeeze (of_T4 img))) = 3%nat).
  { now rewrite (tshape_squeeze_image size). }
  cbn [image_shape StandIn.lib].
  destruct (gpu_affine_grid_3 _ S0) as (flow0 & ->).
  apply wp_bind, wp_py.
  apply wp_bind, wp_lib. cbn [vision_pad StandIn.lib].
  apply wp_bind, wp_np_rand. intros row1 s1 _.
  apply wp_bind, wp_np_rand. intros col1 s2 _.
  apply wp_bind, wp_lib. cbn [vision_crop_pad StandIn.lib image_set_flow].
  apply wp_bind, wp_np_rand_unit; [apply StandInAug.rand_ok|]. intros u1 s3 Hu1.
  destruct (py_index_rand (scale_factors (scale_of StandIn.kw0)) u1 Hu1)
    as (zoom & Ez & _); [rewrite length_scale_factors; lia|].
  apply wp_bind, wp_py. rewrite Ez.
  match goal with
  | |- context [gpu_affine_grid (tshape ?im)] =>
      assert (S2 : length (tshape im) = 3%nat)
        by (apply StandInAug.tshape_resize; [lia|exact S0]);
      destruct (gpu_affine_grid_3 _ S2) as (flow2 & E2)
  end.
  rewrite E2.
  apply wp_bind, wp_py.
  apply wp_bind, wp_lib. cbn [vision_zoom StandIn.lib image_set_flow].
  apply wp_bind, wp_np_rand_unit; [apply StandInAug.rand_ok|]. intros u2 s4 Hu2.
  destruct (py_index_rand (rotate_factors (degrees_of StandIn.kw0)) u2 Hu2)
    as (angle & Ea & _);
    [rewrite length_rotate_factors by (now vm_compute); vm_compute; lia|].
  apply wp_bind, wp_py. rewrite Ea.
  rewrite E2.
  apply wp_bind, wp_py.
  apply wp_bind, wp_lib. cbn [vision_rotate StandIn.lib image_set_flow].
  apply wp_bind, wp_np_rand. intros row2 s5 _.
  apply wp_bind, wp_np_rand. intros col2 s6 _.
  apply wp_bind, wp_lib. cbn [vision_crop_pad StandIn.lib].
  apply wp_bind, wp_lib. cbn [image_data StandIn.lib].
  apply wp_mret. eexists. split; [reflexivity|].
  rewrite !to_of_T3. unfold StandIn.resize. rewrite !length_map.
  now apply (squeeze_image_channels size).
Qed.


(** The forward pass runs to the end on a concrete input: with the
    stand-in libraries, a model whose only module is the hooked layer and
    a buffer of size 2, an iteration computes a loss, minus the mean of
    channel 0 of what the hook recorded. *)
Lemma forward_loss_returns :
  let w := set_values StandIn.lib
             {[1%positive := of_T5 (StandIn.constant5 1 3 2 2 2 0.01)]}
             StandIn.world0 in
  exists loss stats o o0 ch,
    fst (forward_loss StandIn.lib 1%positive 1%positive (Some 0%Z)
                      StandIn.kw0 1%positive None w)
    = Ok (loss, stats, Some o)
    /\ tindex o 0 = Ok o0 /\ tindex o0 0 = Ok ch /\ loss = - mean ch.
Proof.
  cbv zeta. unfold forward_loss.
  rewrite mbind_run.
  rewrite (read_written StandIn.lib 1%positive
             (StandIn.constant5 1 3 2 2 2 0.01))
    by apply lookup_singleton_eq.
  rewrite mbind_run.
  rewrite (fft_to_rgb_run StandIn.lib 1 3 2)
    by (try lia; apply (StandInFacts.shape5_constant5 1 3 2 2 2)).
  cbn [torch_irfft StandIn.lib].
  rewrite mbind_run.
  match goal with
  | |- context [lucid_transforms StandIn.lib ?img ?kw ?w] =>
      destruct (lucid_transforms_returns 2 img w) as (data & E & Hlen);
      [lia
      |apply shape4_map4, (shape4_lucid 1 2 2); [lia|lia|];
       apply (StandInFacts.shape4_unpack 1 3 2),
             (shape5_scaled _ _ 1 3 2 2 2),
             (StandInFacts.shape5_constant5 1 3 2 2 2)
      |];
      destruct (lucid_transforms StandIn.lib img kw w) as [r w2]
  end.
  cbn [fst] in E. subst r. 
  rewrite mbind_run. unfold model_call at 1. cbn [model_forward StandIn.lib].
  cbv beta iota.
  destruct data as [|c0 data]; [discriminate|].
  unfold hooked. cbn [fold_left]. rewrite decide_True by reflexivity.
  unfold callback, compute_loss, subscript.
  rewrite !mbind_run.
  change (tindex (of_T4 [c0 :: data]) 0) with (Ok (of_T3 (c0 :: data))).
  cbn [py]. unfold ret at 1. cbv beta iota.
  change (tindex (of_T3 (c0 :: data)) 0) with (Ok (of_T2 c0)).
  cbn [py]. unfold ret at 1. cbv beta iota.
  do 5 eexists. split; [reflexivity|].
  split; [reflexivity|]. split; [reflexivity|]. ring.
Qed.

End StandInLoss.

(** * Properties of the helpers *)

(** ** More on the ImageNet statistics *)

Lemma map2_id_ext (f : R -> R) (c : T2) :
  (forall v, f v = v) -> map2 f c = c.
Proof.
  intros H. unfold map2. rewrite <- (map_id c) at 2. apply map_ext.
  intros row. rewrite <- (map_id row) at 2. now apply map_ext.
Qed.

Lemma map2_map2 (f g : R -> R) (c : T2) :
  map2 g (map2 f c) = map2 (fun v => g (f v)) c.
Proof. unfold map2. rewrite map_map. apply map_ext. intros; apply map_map. Qed.

(** A per-channel operand acts on every image of a batch, channel by
    channel. *)
Lemma bcast4_per_channel (f : R -> R -> R) (x : T4) (v0 v1 v2 : R) h w n :
  shape4 n 3 h w x ->
  bcast4 f x (per_channel [v0; v1; v2]) =
  map (fun img => zipw (fun ch v => map2 (fun a => f a v) ch) img [v0; v1; v2])
      x.
Proof.
  intros [_ Hf]. unfold bcast4, per_channel. rewrite bcast_r1.
  apply map_ext_in. intros img Hin.
  rewrite List.Forall_forall in Hf. specialize (Hf _ Hin).
  destruct (shape3_3 _ _ _ Hf) as (c0 & c1 & c2 & -> & _).
  cbn [map bcast zipw]. now rewrite !bcast2_r1.
Qed.

Lemma shape4_per_channel (f : R -> R -> R) (x : T4) (v0 v1 v2 : R) h w n :
  shape4 n 3 h w x ->
  shape4 n 3 h w
    (map (fun img =>
            zipw (fun ch v => map2 (fun a => f a v) ch) img [v0; v1; v2])
         x).
Proof.
  intros [Hl Hf]. split; [now rewrite length_map|]. apply Forall_map.
  eapply List.Forall_impl; [|exact Hf]. intros img Hs.
  destruct (shape3_3 _ _ _ Hs) as (c0 & c1 & c2 & -> & H0 & H1 & H2).
  cbn [zipw]. split; [reflexivity|].
  repeat (constructor; [now apply shape2_map2|]). constructor.
Qed.

Lemma denormalize_of_normalize (n h w : nat) (x : T4) :
  shape4 n 3 h w x -> denormalize (normalize x) = x.
Proof.
  intros Hx. unfold denormalize, normalize, imagenet_mean_std.
  rewrite (bcast4_per_channel Rminus x _ _ _ h w n Hx).
  pose proof (shape4_per_channel Rminus x 0.485 0.456 0.406 h w n Hx) as H1.
  rewrite (bcast4_per_channel Rdiv _ _ _ _ h w n H1).
  pose proof (shape4_per_channel Rdiv _ 0.229 0.224 0.225 h w n H1) as H2.
  rewrite (bcast4_per_channel Rmult _ _ _ _ h w n H2).
  pose proof (shape4_per_channel Rmult _ 0.229 0.224 0.225 h w n H2) as H3.
  rewrite (bcast4_per_channel Rplus _ _ _ _ h w n H3).
  rewrite !map_map. rewrite <- (map_id x) at 2. apply map_ext_in.
  intros img Hin. destruct Hx as [_ Hf].
  rewrite List.Forall_forall in Hf.
  destruct (shape3_3 _ _ _ (Hf _ Hin)) as (c0 & c1 & c2 & -> & _).
  cbn [zipw]. rewrite !map2_map2.
  cbv beta. now rewrite !map2_id_ext by (intros v; field; lra).
Qed.

Lemma normalize_of_denormalize (n h w : nat) (x : T4) :
  shape4 n 3 h w x -> normalize (denormalize x) = x.
Proof.
  intros Hx. unfold denormalize, normalize, imagenet_mean_std.
  rewrite (bcast4_per_channel Rmult x _ _ _ h w n Hx).
  pose proof (shape4_per_channel Rmult x 0.229 0.224 0.225 h w n Hx) as H1.
  rewrite (bcast4_per_channel Rplus _ _ _ _ h w n H1).
  pose proof (shape4_per_channel Rplus _ 0.485 0.456 0.406 h w n H1) as H2.
  rewrite (bcast4_per_channel Rminus _ _ _ _ h w n H2).
  pose proof (shape4_per_channel Rminus _ 0.485 0.456 0.406 h w n H2) as H3.
  rewrite (bcast4_per_channel Rdiv _ _ _ _ h w n H3).
  rewrite !map_map. rewrite <- (map_id x) at 2. apply map_ext_in.
  intros img Hin. destruct Hx as [_ Hf].
  rewrite List.Forall_forall in Hf.
  destruct (shape3_3 _ _ _ (Hf _ Hin)) as (c0 & c1 & c2 & -> & _).
  cbn [zipw]. rewrite !map2_map2.
  cbv beta. now rewrite !map2_id_ext by (intros v; field; lra).
Qed.

Lemma shape4_normalize (n h w : nat) (x : T4) :
  shape4 n 3 h w x -> shape4 n 3 h w (normalize x).
Proof.
  intros Hx. unfold normalize, imagenet_mean_std.
  rewrite (bcast4_per_channel Rminus x _ _ _ h w n Hx).
  pose proof (shape4_per_channel Rminus x 0.485 0.456 0.406 h w n Hx) as H1.
  rewrite (bcast4_per_channel Rdiv _ _ _ _ h w n H1).
  now apply shape4_per_channel.
Qed.

(** X1: [normalize] and [denormalize] undo each other, in both orders, on
    batches of three-channel images: the ImageNet standard deviations are
    not zero. *)
Theorem denormalize_normalize (n h w : nat) (x : T4) :
  shape4 n 3 h w x ->
  denormalize (normalize x) = x /\ normalize (denormalize x) = x.
Proof.
  intros Hx. split.
  - now apply (denormalize_of_normalize n h w).
  - now apply (normalize_of_denormalize n h w).
Qed.

Lemma denormalize_normalize_witness :
  denormalize (normalize [[[[1; 2]]; [[3; 4]]; [[5; 6]]]])
  = [[[[1; 2]]; [[3; 4]]; [[5; 6]]]]
  /\ normalize (denormalize [[[[1; 2]]; [[3; 4]]; [[5; 6]]]])
     = [[[[1; 2]]; [[3; 4]]; [[5; 6]]]].
Proof.
  apply (denormalize_normalize 1 1 2). repeat (split || constructor).
Defined.

(** ** The inverse colour transform *)

Lemma shape2_33 (m : T2) :
  shape2 3 3 m ->
  exists a b c d e f g h i, m = [[a; b; c]; [d; e; f]; [g; h; i]].
Proof.
  intros [Hl Hf].
  destruct m as [|r0 [|r1 [|r2 [|]]]]; try discriminate.
  inversion Hf as [|? ? H0 Hf1]; subst. inversion Hf1 as [|? ? H1 Hf2]; subst.
  inversion Hf2 as [|? ? H2 _]; subst.
  destruct r0 as [|a [|b [|c [|]]]]; try discriminate.
  destruct r1 as [|d [|e [|f [|]]]]; try discriminate.
  destruct r2 as [|g [|h [|i [|]]]]; try discriminate.
  now exists a, b, c, d, e, f, g, h, i.
Qed.

Lemma recolor_spec h w (m : T2) (img : T3) :
  (0 < h)%nat -> (0 < w)%nat -> shape2 3 3 m -> shape3 3 h w img ->
  recolor m img
  = tab 3 (fun j => tab h (fun k => tab w (fun l =>
      dot (pixel [img] 0 k l) (nth j (transpose2 m) [])))).
Proof.
  intros Hh Hw Hm Hs. unfold recolor.
  rewrite (permute_120_spec h w) by assumption.
  unfold map2. rewrite map_tab. unfold permute_201.
  rewrite hd_tab by assumption. rewrite map_tab, hd_tab by assumption.
  rewrite length_map.
  destruct (shape2_33 m Hm) as (a & b & c & d & e & f & g & i & j & ->).
  cbn [transpose2 hd length tab seq map nth].
  f_equal; [|f_equal; [|f_equal]];
    unfold map2; rewrite map_tab; apply tab_ext; intros k Hk;
    rewrite !map_tab; apply tab_ext; intros l Hl'; reflexivity.
Qed.

Lemma shape3_recolor h w (m : T2) (img : T3) :
  (0 < h)%nat -> (0 < w)%nat -> shape2 3 3 m -> shape3 3 h w img ->
  shape3 3 h w (recolor m img).
Proof.
  intros Hh Hw Hm Hs. rewrite (recolor_spec h w) by assumption.
  split; [apply length_tab|]. apply Forall_tab; intros j _.
  split; [apply length_tab|]. apply Forall_tab; intros k _. apply length_tab.
Qed.

Lemma shape2_entries h w (c : T2) :
  shape2 h w c ->
  c = tab h (fun k => tab w (fun l => nth l (nth k c []) 0)).
Proof.
  intros [Hl Hf]. rewrite (list_eq_tab c []) at 1. rewrite Hl.
  apply tab_ext. intros k Hk.
  assert (length (nth k c []) = w) as Hw.
  { apply (Forall_nth_default (shape1 w)); [exact Hf|lia]. }
  rewrite (list_eq_tab (nth k c []) 0) at 1. now rewrite Hw.
Qed.

(** Two matrices whose product is the identity cancel on every image. *)
Lemma recolor_inverse h w (m1 m2 : T2) (img : T3) :
  (0 < h)%nat -> (0 < w)%nat ->
  shape2 3 3 m1 -> shape2 3 3 m2 -> matmul2 m1 m2 = eye 3 ->
  shape3 3 h w img ->
  recolor m2 (recolor m1 img) = img.
Proof.
  intros Hh Hw H1 H2 E Hs.
  pose proof (shape3_recolor h w m1 img Hh Hw H1 Hs) as Hs1.
  rewrite (recolor_spec h w m2 _ Hh Hw H2 Hs1).
  rewrite (recolor_spec h w m1 _ Hh Hw H1 Hs).
  destruct (shape3_3 _ _ _ Hs) as (c0 & c1 & c2 & -> & Hc0 & Hc1 & Hc2).
  destruct (shape2_33 m1 H1) as (a & b & c & d & e & f & g & i & j & ->).
  destruct (shape2_33 m2 H2)
    as (a' & b' & c' & d' & e' & f' & g' & i' & j' & ->).
  cbv [matmul2 eye tab seq map transpose2 hd length nth dot zipw rsum
       fold_right Nat.eqb] in E.
  injection E as E00 E01 E02 E10 E11 E12 E20 E21 E22.
  change (tab 3 ?F) with [F 0%nat; F 1%nat; F 2%nat]. cbv beta.
  f_equal; [|f_equal; [|f_equal]];
    (etransitivity; [|symmetry; eapply (shape2_entries h w); eassumption]);
    apply tab_ext; intros k Hk; apply tab_ext; intros l Hl;
    unfold pixel; cbn [nth map];
    change (tab 3 ?F) with [F 0%nat; F 1%nat; F 2%nat]; cbv beta; cbn [map];
    rewrite !nth_tab by assumption;
    cbn [transpose2 hd length tab seq map nth dot zipw rsum fold_right].
  - set (p0 := nth l (nth k c0 []) 0). set (p1 := nth l (nth k c1 []) 0).
    set (p2 := nth l (nth k c2 []) 0).
    transitivity (p0 * (a * a' + (b * d' + (c * g' + 0)))
                  + p1 * (d * a' + (e * d' + (f * g' + 0)))
                  + p2 * (g * a' + (i * d' + (j * g' + 0)))); [ring|].
    rewrite E00, E10, E20. ring.
  - set (p0 := nth l (nth k c0 []) 0). set (p1 := nth l (nth k c1 []) 0).
    set (p2 := nth l (nth k c2 []) 0).
    transitivity (p0 * (a * b' + (b * e' + (c * i' + 0)))
                  + p1 * (d * b' + (e * e' + (f * i' + 0)))
                  + p2 * (g * b' + (i * e' + (j * i' + 0)))); [ring|].
    rewrite E01, E11, E21. ring.
  - set (p0 := nth l (nth k c0 []) 0). set (p1 := nth l (nth k c1 []) 0).
    set (p2 := nth l (nth k c2 []) 0).
    transitivity (p0 * (a * c' + (b * f' + (c * j' + 0)))
                  + p1 * (d * c' + (e * f' + (f * j' + 0)))
                  + p2 * (g * c' + (i * f' + (j * j' + 0)))); [ring|].
    rewrite E02, E12, E22. ring.
Qed.

Lemma shape2_eye3 : shape2 3 3 (eye 3).
Proof. repeat (split || constructor). Qed.

(** The cofactor formula inverts every 3x3 matrix with a non-zero
    determinant, on both sides. *)
Lemma inverse3_inverts (m : T2) :
  shape2 3 3 m -> det3 m <> 0 ->
  exists n, inverse3 m = Ok n /\ shape2 3 3 n
            /\ matmul2 m n = eye 3 /\ matmul2 n m = eye 3.
Proof.
  intros Hm Hd.
  destruct (shape2_33 m Hm) as (a & b & c & d & e & f & g & h & i & ->).
  unfold inverse3. destruct (Req_dec_T _ 0) as [E|_]; [contradiction|].
  eexists. split; [reflexivity|]. split; [repeat (split || constructor)|].
  cbv [det3] in *.
  split; cbv [matmul2 eye tab seq map transpose2 hd length nth dot zipw rsum
              fold_right Nat.eqb];
    repeat (f_equal; try (field; exact Hd)).
Qed.

Lemma det3_matmul2 (m n : T2) :
  shape2 3 3 m -> shape2 3 3 n -> det3 (matmul2 m n) = det3 m * det3 n.
Proof.
  intros Hm Hn.
  destruct (shape2_33 m Hm) as (a & b & c & d & e & f & g & h & i & ->).
  destruct (shape2_33 n Hn)
    as (a' & b' & c' & d' & e' & f' & g' & h' & i' & ->).
  cbv [matmul2 det3 tab seq map transpose2 hd length nth dot zipw rsum
       fold_right]. ring.
Qed.

(** A matrix with a right inverse has a non-zero determinant. *)
Lemma det3_invertible (m n : T2) :
  shape2 3 3 m -> shape2 3 3 n -> matmul2 m n = eye 3 -> det3 m <> 0.
Proof.
  intros Hm Hn E Hz. pose proof (det3_matmul2 m n Hm Hn) as H.
  rewrite E, Hz in H. cbv [det3 eye tab seq map Nat.eqb] in H. lra.
Qed.

Lemma shape2_ccn_T : shape2 3 3 (transpose2 color_correlation_normalized).
Proof. repeat (split || constructor). Qed.

(** The colour matrix is invertible. *)
Lemma det3_ccn_T : det3 (transpose2 color_correlation_normalized) <> 0.
Proof.
  unfold color_correlation_normalized. rewrite max_column_norm.
  assert (0 < sqrt 0.2134) as Hs by (apply sqrt_lt_R0; lra).
  set (s := sqrt 0.2134) in *.
  cbv [color_correlation_svd_sqrt map2 map transpose2 hd length tab seq nth
       det3].
  clearbody s. unfold Rdiv.
  assert (0 < / s) as Hi by now apply Rinv_0_lt_compat.
  set (u := / s) in *. clearbody u.
  match goal with
  | |- ?d <> 0 => assert (d = -0.0036 * (u * u * u)) as -> by nra
  end.
  assert (0 < u * u * u) by (repeat apply Rmult_lt_0_compat; exact Hi).
  nra.
Qed.

Section Inverse.
Context (L : Framework).

Lemma rgb_to_lucid_colorspace_run (t : T4) (w : World L) :
  inverse_contract L ->
  exists inv,
    shape2 3 3 inv
    /\ matmul2 (transpose2 color_correlation_normalized) inv = eye 3
    /\ matmul2 inv (transpose2 color_correlation_normalized) = eye 3
    /\ rgb_to_lucid_colorspace L t w
       = (Ok (map (recolor inv) t), log L c_torch_inverse None w).
Proof.
  intros HL.
  destruct (inverse3_inverts _ shape2_ccn_T det3_ccn_T)
    as (n' & _ & Hn' & En' & _).
  destruct (HL _ n' shape2_ccn_T Hn' En') as (inv & E & Hinv & E1 & E2).
  exists inv. repeat (split; [assumption|]).
  unfold rgb_to_lucid_colorspace. rewrite mbind_run. unfold lib at 1.
  rewrite E. cbv beta iota.
  unfold permute_0312, matmul, map3, permute_0231, recolor.
  cbn [exn_of mret M_ret ret]. now rewrite !map_map.
Qed.

Lemma map_recolor_inverse n h w (m1 m2 : T2) (t : T4) :
  (0 < h)%nat -> (0 < w)%nat ->
  shape2 3 3 m1 -> shape2 3 3 m2 -> matmul2 m1 m2 = eye 3 ->
  shape4 n 3 h w t ->
  map (recolor m2) (map (recolor m1) t) = t.
Proof.
  intros Hh Hw H1 H2 E [_ Hf]. rewrite map_map.
  rewrite <- (map_id t) at 2. apply map_ext_in. intros img Hin.
  rewrite List.Forall_forall in Hf.
  apply (recolor_inverse h w); auto.
Qed.

Lemma shape4_map_recolor n h w (m : T2) (t : T4) :
  (0 < h)%nat -> (0 < w)%nat -> shape2 3 3 m ->
  shape4 n 3 h w t -> shape4 n 3 h w (map (recolor m) t).
Proof.
  intros Hh Hw Hm [Hl Hf]. split; [now rewrite length_map|].
  apply Forall_map. eapply List.Forall_impl; [|exact Hf].
  intros img. now apply shape3_recolor.
Qed.

Lemma lucid_colorspace_to_rgb_recolor (t : T4) :
  lucid_colorspace_to_rgb t
  = map (recolor (transpose2 color_correlation_normalized)) t.
Proof. apply lucid_colorspace_to_rgb_images. Qed.

(** X2: [rgb_to_lucid_colorspace] and [lucid_colorspace_to_rgb] undo each
    other on batches of three-channel images, when [torch.inverse]
    inverts. *)
Theorem rgb_to_lucid_colorspace_inverse (n h w : nat) (t : T4) (wd : World L) :
  inverse_contract L ->
  (0 < h)%nat -> (0 < w)%nat -> shape4 n 3 h w t ->
  fst (rgb_to_lucid_colorspace L (lucid_colorspace_to_rgb t) wd) = Ok t
  /\ exists t', fst (rgb_to_lucid_colorspace L t wd) = Ok t'
                /\ shape4 n 3 h w t'
                /\ lucid_colorspace_to_rgb t' = t.
Proof.
  intros HL Hh Hw Ht. split.
  - destruct (rgb_to_lucid_colorspace_run (lucid_colorspace_to_rgb t) wd HL)
      as (inv & Hinv & E1 & E2 & ->).
    cbn [fst]. f_equal. rewrite lucid_colorspace_to_rgb_recolor.
    now apply (map_recolor_inverse n h w); try apply shape2_ccn_T.
  - destruct (rgb_to_lucid_colorspace_run t wd HL)
      as (inv & Hinv & E1 & E2 & ->).
    cbn [fst]. eexists. split; [reflexivity|].
    split; [now apply shape4_map_recolor|].
    rewrite lucid_colorspace_to_rgb_recolor.
    now apply (map_recolor_inverse n h w); try apply shape2_ccn_T.
Qed.

End Inverse.

Module StandInInvFacts.

Lemma inverse_ok : inverse_contract StandInInv.lib.
Proof.
  intros m n' Hm Hn' E. cbn [torch_inverse StandInInv.lib].
  apply inverse3_inverts; [assumption|].
  now apply (det3_invertible m n').
Qed.

End StandInInvFacts.

Lemma rgb_to_lucid_colorspace_inverse_witness :
  fst (rgb_to_lucid_colorspace StandInInv.lib
         (lucid_colorspace_to_rgb [[[[1; 2]]; [[3; 4]]; [[5; 6]]]])
         StandInInv.world0)
  = Ok [[[[1; 2]]; [[3; 4]]; [[5; 6]]]].
Proof.
  apply (rgb_to_lucid_colorspace_inverse StandInInv.lib 1 1 2).
  - apply StandInInvFacts.inverse_ok.
  - lia.
  - lia.
  - repeat (split || constructor).
Defined.
(** ** The identity sampling grid *)

Lemma INR_two_le (n : nat) : (1 < n)%nat -> 2 <= INR n.
Proof.
  intros H. assert (INR 2 <= INR n) as H' by (apply le_INR; lia).
  simpl in H'. lra.
Qed.

Lemma INR_le_pred (n k : nat) : (k < n)%nat -> INR k <= INR n - 1.
Proof.
  intros H. assert (INR (S k) <= INR n) as H' by (apply le_INR; lia).
  rewrite S_INR in H'. lra.
Qed.

Lemma linear_points_range (n k : nat) :
  (k < n)%nat -> -1 <= linear_points n k <= 1.
Proof.
  intros Hk. unfold linear_points.
  destruct (1 <? n)%nat eqn:E; [|lra].
  apply Nat.ltb_lt in E.
  pose proof (INR_two_le n E) as Hn.
  pose proof (INR_le_pred n k Hk) as Hk'.
  pose proof (pos_INR k) as Hk0.
  assert (INR k * (2 / (INR n - 1)) = 2 * (INR k / (INR n - 1))) as ->
    by (field; lra).
  assert (0 <= INR k / (INR n - 1) <= 1).
  { split.
    - apply Rmult_le_pos; [lra|]. apply Rlt_le, Rinv_0_lt_compat. lra.
    - apply (Rmult_le_reg_r (INR n - 1)); [lra|].
      unfold Rdiv. rewrite Rmult_assoc, Rinv_l by lra. lra. }
  lra.
Qed.

Lemma linear_points_first (n : nat) : linear_points n 0 = -1.
Proof.
  unfold linear_points. destruct (1 <? n)%nat; [|reflexivity].
  change (INR 0) with 0. lra.
Qed.

Lemma linear_points_last (n : nat) :
  (1 < n)%nat -> linear_points n (n - 1) = 1.
Proof.
  intros Hn. unfold linear_points.
  apply Nat.ltb_lt in Hn as E. rewrite E.
  rewrite minus_INR by lia. change (INR 1) with 1.
  pose proof (INR_two_le n Hn). field. lra.
Qed.

Lemma linear_points_increasing (n k k' : nat) :
  (1 < n)%nat -> (k < k')%nat -> linear_points n k < linear_points n k'.
Proof.
  intros Hn Hk. unfold linear_points.
  apply Nat.ltb_lt in Hn as E. rewrite E.
  pose proof (INR_two_le n Hn).
  assert (INR k < INR k') by now apply lt_INR.
  assert (0 < 2 / (INR n - 1)).
  { apply Rmult_lt_0_compat; [lra|]. apply Rinv_0_lt_compat. lra. }
  nra.
Qed.

(** X3: [gpu_affine_grid] builds the identity sampling grid: for an image
    of H rows and W columns, a (1, H, W, 2) array whose entry (i, j) is
    the pair (x, y) of the coordinate of column j and of row i.  Both lie
    between -1 and 1; the first column is at -1, the last at 1 when there
    is more than one, and x grows with j (likewise y with i); a single
    column or row sits at -1.  A shape that does not have three entries
    raises ValueError. *)
Theorem gpu_affine_grid_spec (C H W : nat) :
  match gpu_affine_grid [C; H; W] with
  | Raise _ => False
  | Ok (size, grid) =>
  let x i j := nth 0 (nth j (nth i (nth 0 grid []) []) []) 0 in
  let y i j := nth 1 (nth j (nth i (nth 0 grid []) []) []) 0 in
  size = (H, W)
  /\ shape4 1 H W 2 grid
  /\ (forall i j, (i < H)%nat -> (j < W)%nat ->
        -1 <= x i j <= 1 /\ -1 <= y i j <= 1
        /\ (W = 1%nat -> x i j = -1) /\ (H = 1%nat -> y i j = -1)
        /\ ((1 < W)%nat -> x i j = -1 + INR j * (2 / (INR W - 1)))
        /\ ((1 < H)%nat -> y i j = -1 + INR i * (2 / (INR H - 1))))
  /\ (forall i, (i < H)%nat -> (0 < W)%nat ->
        x i 0%nat = -1 /\ ((1 < W)%nat -> x i (W - 1)%nat = 1))
  /\ (forall j, (j < W)%nat -> (0 < H)%nat ->
        y 0%nat j = -1 /\ ((1 < H)%nat -> y (H - 1)%nat j = 1))
  /\ (forall i j j', (i < H)%nat -> (j < j')%nat -> (j' < W)%nat ->
        x i j < x i j')
  /\ (forall i i' j, (i < i')%nat -> (i' < H)%nat -> (j < W)%nat ->
        y i j < y i' j)
  end
  /\ (forall size, length size <> 3%nat ->
        gpu_affine_grid size = Raise ValueError).
Proof.
  split;
    [|intros [|? [|? [|? [|? size]]]] Hl; try reflexivity; now cbn in Hl].
  change (gpu_affine_grid [C; H; W])
    with (Ok ((H, W), [tab H (fun i => tab W (fun j =>
            [linear_points W j; linear_points H i]))])).
  cbv zeta.
  assert (forall i j, (i < H)%nat -> (j < W)%nat ->
            nth j (nth i (nth 0 [tab H (fun i => tab W (fun j =>
              [linear_points W j; linear_points H i]))] []) []) []
            = [linear_points W j; linear_points H i]) as Hent.
  { intros i j Hi Hj. cbn [nth]. now rewrite !nth_tab. }
  split; [reflexivity|]. split.
  { split; [reflexivity|]. constructor; [|constructor].
    split; [apply length_tab|]. apply Forall_tab. intros i _.
    split; [apply length_tab|]. apply Forall_tab. intros j _. reflexivity. }
  split.
  { intros i j Hi Hj. rewrite Hent by assumption. cbn [nth].
    split; [now apply linear_points_range|].
    split; [now apply linear_points_range|].
    unfold linear_points. repeat split.
    - now intros ->.
    - now intros ->.
    - intros H1. apply Nat.ltb_lt in H1. now rewrite H1.
    - intros H1. apply Nat.ltb_lt in H1. now rewrite H1. }
  split.
  { intros i Hi HW. rewrite !Hent by lia. cbn [nth].
    split; [apply linear_points_first|].
    intros H1. now apply linear_points_last. }
  split.
  { intros j Hj HH. rewrite !Hent by lia. cbn [nth].
    split; [apply linear_points_first|].
    intros H1. now apply linear_points_last. }
  split.
  { intros i j j' Hi Hj Hj'. rewrite !Hent by lia. cbn [nth].
    apply linear_points_increasing; lia. }
  intros i i' j Hi Hi' Hj. rewrite !Hent by lia. cbn [nth].
  apply linear_points_increasing; lia.
Qed.
(** ** Display *)

Lemma permute_120_entry (img : T3) (i j k : nat) :
  (i < length (hd [] img))%nat -> (j < length (hd [] (hd [] img)))%nat ->
  nth k (nth j (nth i (permute_120 img) []) []) 0
  = nth j (nth i (nth k img []) []) 0.
Proof.
  intros Hi Hj. unfold permute_120. rewrite !nth_tab by assumption.
  destruct (Nat.lt_ge_cases k (length img)) as [Hk|Hk].
  - rewrite (nth_indep _ 0 ((fun ch : T2 => nth j (nth i ch []) 0) []))
      by (rewrite length_map; lia).
    exact (map_nth (fun ch : T2 => nth j (nth i ch []) 0) img [] k).
  - rewrite (nth_overflow (map _ img)) by (rewrite length_map; lia).
    rewrite (nth_overflow img) by lia. now destruct i, j.
Qed.

Section Display.
Context (L : Framework).

(** X5: what [show_rgb] draws.  The image goes to [imshow] with the
    channels last: entry (i, j, k) of what is shown is entry (k, i, j) of
    the image.  On given axes it calls imshow, axis('off') and set_title
    on them and nothing else, so [dpi] is not used; without axes it first
    makes a figure of (H / dpi, W / dpi) inches and ends with plt.show();
    and without axes and with [dpi = 0] it raises ZeroDivisionError
    before any call to matplotlib. *)
Theorem show_rgb_calls (img : T3) (label : label) (ax : option Axes) (dpi : R)
        (w : World L) :
  let x := permute_120 img in
  let H := INR (length (hd [] img)) in
  let W := INR (length (hd [] (hd [] img))) in
  let (r, w') := show_rgb L img label ax dpi w in
  (forall i j k,
      (i < length (hd [] img))%nat -> (j < length (hd [] (hd [] img)))%nat ->
      nth k (nth j (nth i x []) []) 0 = nth j (nth i (nth k img []) []) 0)
  /\ (forall a, ax = Some a -> r = Ok tt ->
        trace L w' = trace L w ++
          [(c_ax_imshow a x, None); (c_ax_axis_off a, None);
           (c_ax_set_title a label, None)])
  /\ (ax = None -> dpi <> 0 -> r = Ok tt ->
        exists a, plt_subplots L (H / dpi, W / dpi) = Ok a
          /\ trace L w' = trace L w ++
               [(c_plt_subplots (H / dpi) (W / dpi), None);
                (c_ax_imshow a x, None); (c_ax_axis_off a, None);
                (c_ax_set_title a label, None); (c_plt_show, None)])
  /\ (ax = None -> dpi = 0 ->
        r = Raise ZeroDivisionError
        /\ trace L w' = trace L w ++ [(c_python, Some ZeroDivisionError)]).
Proof.
  cbv zeta. apply wp_run. unfold show_rgb.
  destruct ax as [a|].
  - apply wp_bind, wp_mret.
    apply wp_bind, wp_lib.
    destruct (display L (c_ax_imshow a _)) as [[]|e];
      [|repeat split; try discriminate; apply permute_120_entry; assumption].
    apply wp_bind, wp_lib.
    destruct (display L (c_ax_axis_off a)) as [[]|e];
      [|repeat split; try discriminate; apply permute_120_entry; assumption].
    apply wp_bind, wp_lib.
    destruct (display L (c_ax_set_title a label)) as [[]|e];
      [|repeat split; try discriminate; apply permute_120_entry; assumption].
    apply wp_mret.
    split; [intros; now apply permute_120_entry|].
    split; [|split; discriminate].
    intros a' [= <-] _. cbn [trace log exn_of]. now rewrite <- !app_assoc.
  - destruct (Req_dec_T dpi 0) as [Ez|Hnz].
    + apply wp_bind, wp_raise.
      split; [intros; now apply permute_120_entry|].
      split; [discriminate|]. split; [contradiction|].
      intros _ _. split; reflexivity.
    + apply wp_bind, wp_lib.
      destruct (plt_subplots L _) as [a|e] eqn:Esub;
        [|repeat split; try discriminate; try contradiction;
          apply permute_120_entry; assumption].
      apply wp_bind, wp_lib.
      destruct (display L (c_ax_imshow a _)) as [[]|e];
        [|repeat split; try discriminate; try contradiction;
          apply permute_120_entry; assumption].
      apply wp_bind, wp_lib.
      destruct (display L (c_ax_axis_off a)) as [[]|e];
        [|repeat split; try discriminate; try contradiction;
          apply permute_120_entry; assumption].
      apply wp_bind, wp_lib.
      destruct (display L (c_ax_set_title a label)) as [[]|e];
        [|repeat split; try discriminate; try contradiction;
          apply permute_120_entry; assumption].
      apply wp_lib.
      destruct (display L c_plt_show) as [[]|e];
        [|repeat split; try discriminate; try contradiction;
          apply permute_120_entry; assumption].
      split; [intros; now apply permute_120_entry|].
      split; [discriminate|]. split; [|contradiction].
      intros _ _ _. exists a. split; [reflexivity|].
      cbn [trace log exn_of]. now rewrite <- !app_assoc.
Qed.

End Display.

(** ** Runs that cannot return *)

(** [int(a / b)] for two non-negative Python integers is [a // b]. *)
Lemma py_int_div (a b : Z) :
  (0 <= a)%Z -> (0 < b)%Z -> py_int (IZR a / IZR b) = (a / b)%Z.
Proof.
  intros Ha Hb.
  assert (0 < IZR b) as Hb' by now apply (IZR_lt 0).
  assert (0 <= IZR a) as Ha' by now apply (IZR_le 0).
  assert (0 <= IZR a / IZR b) as Hq.
  { apply Rmult_le_pos; [assumption|]. now apply Rlt_le, Rinv_0_lt_compat. }
  rewrite py_int_nonneg by assumption. symmetry. apply Int_part_spec.
  pose proof (Z.div_mod a b ltac:(lia)) as E.
  pose proof (Z.mod_pos_bound a b Hb) as Hm.
  assert (IZR a = IZR b * IZR (a / b) + IZR (a mod b)) as ER.
  { rewrite <- mult_IZR, <- plus_IZR. now f_equal. }
  assert (0 <= IZR (a mod b) < IZR b) as [Hm0 Hm1].
  { split; [apply (IZR_le 0)|apply IZR_lt]; lia. }
  assert (IZR a / IZR b = IZR (a / b) + IZR (a mod b) / IZR b) as ->.
  { rewrite ER. field. lra. }
  assert (0 <= IZR (a mod b) / IZR b < 1).
  { split.
    - apply Rmult_le_pos; [assumption|]. now apply Rlt_le, Rinv_0_lt_compat.
    - apply (Rmult_lt_reg_r (IZR b)); [assumption|].
      unfold Rdiv. rewrite Rmult_assoc, Rinv_l by lra. lra. }
  lra.
Qed.

Section Fails.
Context (L : Framework).

Lemma fails_bind_l {A B} (m : M L A) (k : A -> M L B) :
  fails m -> fails (m ≫= k).
Proof.
  intros Hm w. rewrite mbind_run. destruct (Hm w) as [e E].
  destruct (m w) as [[a|e'] w']; cbn [fst] in *; [discriminate|].
  now exists e'.
Qed.

Lemma fails_bind_r {A B} (m : M L A) (k : A -> M L B) :
  (forall a, fails (k a)) -> fails (m ≫= k).
Proof.
  intros Hk w. rewrite mbind_run.
  destruct (m w) as [[a|e] w']; [apply Hk|now exists e].
Qed.

(** The continuation only has to fail on the results [m] can return. *)
Lemma fails_bind_post {A B} (P : A -> Prop) (m : M L A) (k : A -> M L B) :
  (forall w a, fst (m w) = Ok a -> P a) ->
  (forall a, P a -> fails (k a)) -> fails (m ≫= k).
Proof.
  intros Hm Hk w. rewrite mbind_run. specialize (Hm w).
  destruct (m w) as [[a|e] w']; [|now exists e].
  apply Hk, Hm. reflexivity.
Qed.

Lemma fails_raise {A} (e : exn) : fails (raise L e : M L A).
Proof. intros w. now exists e. Qed.

Lemma fails_for_each_head {A S} (a : A) (l : list A) (body : A -> S -> M L S)
      (s : S) :
  fails (body a s) -> fails (for_each L (a :: l) body s).
Proof. intros H. cbn [for_each]. now apply fails_bind_l. Qed.

(** A loop one of whose iterations always raises never returns. *)
Lemma fails_for_each {A S} (a : A) (l : list A) (body : A -> S -> M L S) :
  In a l -> (forall s, fails (body a s)) ->
  forall s, fails (for_each L l body s).
Proof.
  intros Hin Hbody. induction l as [|b l IH]; [contradiction|].
  intros s. cbn [for_each]. destruct Hin as [->|Hin].
  - apply fails_bind_l, Hbody.
  - apply fails_bind_r. intros s'. now apply IH.
Qed.

(** What fails in the loop fails in [visualize_feature]. *)
Lemma fails_visualize_feature model layer feature start_image size steps lr
      weight_decay grad_clip debug frames show kw :
  (forall img_buf opt,
      fails (optimize L model layer feature steps grad_clip debug frames kw
                      img_buf steps (opt, None))) ->
  fails (visualize_feature L model layer feature start_image size steps lr
                           weight_decay grad_clip debug frames show kw).
Proof.
  intros H. unfold visualize_feature. apply fails_bind_l.
  unfold setup_and_optimize. apply fails_bind_r. intros buf.
  apply fails_bind_r. intros img_buf. unfold optimize_leaf.
  apply fails_bind_r. intros opt. apply fails_bind_r. intros _.
  apply fails_bind_l, H.
Qed.

Lemma in_py_range_iff lo hi i :
  In i (py_range lo hi) <-> (lo <= i < hi)%Z.
Proof.
  unfold py_range. rewrite in_map_iff. split.
  - intros (k & <- & Hk). apply in_seq in Hk. lia.
  - intros H. exists (Z.to_nat (i - lo)). split; [lia|]. apply in_seq. lia.
Qed.

Lemma frame_due_zero steps frames i :
  (frames = 0 \/ 0 <= steps < frames)%Z ->
  fails (frame_due L true steps frames i).
Proof.
  intros H. unfold frame_due.
  destruct (frames =? 0)%Z eqn:E; [apply fails_raise|].
  apply Z.eqb_neq in E. destruct H as [H|H]; [contradiction|].
  rewrite py_int_div by lia. rewrite Z.div_small by lia.
  cbn [Z.eqb]. apply fails_raise.
Qed.

(** X6: with [debug=True], a call with [frames = 0], or with fewer steps
    than frames (the default is ten frames), does not return: the frame
    test [i % int(steps/frames)] divides by zero in the first iteration,
    unless something else raised before. *)
Theorem debug_frames_exceed_steps model layer feature start_image size steps
        lr weight_decay grad_clip frames show kw (w : World L) :
  (1 <= steps)%Z -> (frames = 0 \/ steps < frames)%Z ->
  exists e,
    fst (visualize_feature L model layer feature start_image size steps lr
                           weight_decay grad_clip true frames show kw w)
    = Raise e.
Proof.
  intros Hs Hf. apply fails_visualize_feature. intros img_buf opt0.
  unfold optimize. apply (fails_for_each 1%Z).
  - apply in_py_range_iff. lia.
  - intros [opt ho]. unfold iteration.
    apply fails_bind_r. intros _. apply fails_bind_r. intros w0.
    apply fails_bind_r. intros [[loss stats] ho'].
    apply fails_bind_r. intros _. apply fails_bind_r. intros _.
    apply fails_bind_r. intros opt'.
    apply fails_bind_l, frame_due_zero. lia.
Qed.

Lemma fails_ret_bind {A B} (a : A) (k : A -> M L B) :
  fails (k a) -> fails (ret L a ≫= k).
Proof. intros H w. rewrite mbind_run. apply H. Qed.

Lemma frame_due_every steps frames :
  (1 <= frames <= steps)%Z ->
  (1 <= steps / frames <= steps)%Z
  /\ frame_due L true steps frames (steps / frames) = ret L true.
Proof.
  intros H.
  assert (1 <= steps / frames <= steps)%Z as Hq.
  { split.
    - apply Z.div_le_lower_bound; lia.
    - apply Z.div_le_upper_bound; nia. }
  split; [exact Hq|]. unfold frame_due.
  destruct (frames =? 0)%Z eqn:E; [lia|].
  rewrite py_int_div by lia.
  destruct (steps / frames =? 0)%Z eqn:E'; [lia|].
  rewrite Z.mod_same by lia. reflexivity.
Qed.

(** X7: with [debug=True] and a [label] among the keyword arguments, a
    call with 1 <= frames <= steps does not return: at the first frame,
    iteration int(steps/frames), [show_rgb] is handed [label] twice, which
    raises TypeError, unless something else raised before. *)
Theorem debug_label_conflict model layer feature start_image size steps lr
        weight_decay grad_clip frames show kw l (w : World L) :
  kw_label kw = Some l -> (1 <= frames <= steps)%Z ->
  exists e,
    fst (visualize_feature L model layer feature start_image size steps lr
                           weight_decay grad_clip true frames show kw w)
    = Raise e.
Proof.
  intros Hl Hf. destruct (frame_due_every steps frames Hf) as [Hq Hdue].
  apply fails_visualize_feature. intros img_buf opt0.
  unfold optimize. apply (fails_for_each (steps / frames)%Z).
  - apply in_py_range_iff. lia.
  - intros [opt ho]. unfold iteration.
    apply fails_bind_r. intros _. apply fails_bind_r. intros w0.
    apply fails_bind_r. intros [[loss stats] ho'].
    apply fails_bind_r. intros _. apply fails_bind_r. intros _.
    apply fails_bind_r. intros opt'.
    rewrite Hdue. apply fails_ret_bind. apply fails_bind_l.
    apply fails_bind_r. intros _. apply fails_bind_r. intros buf.
    apply fails_bind_r. intros img. rewrite Hl. apply fails_raise.
Qed.

Lemma py_range_cons lo hi :
  (lo < hi)%Z -> py_range lo hi = lo :: py_range (lo + 1) hi.
Proof.
  intros H. unfold py_range.
  replace (Z.to_nat (hi - lo)) with (S (Z.to_nat (hi - (lo + 1)))) by lia.
  cbn [seq map]. f_equal; [lia|].
  rewrite <- seq_shift, map_map. apply map_ext. intros k. lia.
Qed.

(** X8: when the forward pass of the model never runs [layer], the hook
    never fires, [hook_out] stays None, and a call with at least one step
    does not return: the loss of the first iteration subscripts None,
    which raises TypeError, unless something else raised before. *)
Theorem hook_never_fired model layer feature start_image size steps lr
        weight_decay grad_clip debug frames show kw (w : World L) :
  (forall vals b s img ran b' s',
      model_forward L model vals b s img = (Ok ran, b', s') ->
      Forall (fun mo => fst mo <> layer) ran) ->
  (1 <= steps)%Z ->
  exists e,
    fst (visualize_feature L model layer feature start_image size steps lr
                           weight_decay grad_clip debug frames show kw w)
    = Raise e.
Proof.
  intros Hmodel Hs. apply fails_visualize_feature. intros img_buf opt0.
  unfold optimize. rewrite py_range_cons by lia.
  apply fails_for_each_head. unfold iteration.
  apply fails_bind_r. intros _. apply fails_bind_r. intros w0.
  apply fails_bind_l. unfold forward_loss.
  apply fails_bind_r. intros buf. apply fails_bind_r. intros img.
  apply fails_bind_r. intros img'.
  apply (fails_bind_post (fun ho => ho = None)).
  - intros w1 ho. unfold model_call.
    destruct (model_forward L model _ _ _ img') as [[[ran|e] b] s] eqn:E;
      cbn [fst]; [|discriminate].
    intros [= <-]. apply hooked_other. eapply Hmodel, E.
  - intros ho ->. apply fails_bind_l. unfold compute_loss.
    destruct feature; apply fails_bind_l; apply fails_raise.
Qed.

Lemma rotate_factors_negative degrees :
  (degrees < 0)%Z -> rotate_factors degrees = [].
Proof.
  intros H. unfold rotate_factors, py_range.
  replace (Z.to_nat (degrees + 1 - - degrees)) with 0%nat by lia.
  assert (degrees / 2 < 0)%Z by (apply Z.div_lt_upper_bound; lia).
  now replace (Z.to_nat (degrees / 2)) with 0%nat by lia.
Qed.

Lemma py_index_nil {A} (k : Z) : py_index (@nil A) k = Raise IndexError.
Proof.
  unfold py_index. cbn [length Z.of_nat].
  destruct ((0 <=? _)%Z && _) eqn:E; [|reflexivity].
  now destruct (Z.to_nat _).
Qed.

Lemma fails_lucid_transforms img kw :
  (degrees_of kw < 0)%Z -> fails (lucid_transforms L img kw).
Proof.
  intros Hd. unfold lucid_transforms.
  apply fails_bind_r. intros im0. apply fails_bind_r. intros flow0.
  apply fails_bind_r. intros im1.
  apply fails_bind_r. intros row1. apply fails_bind_r. intros col1.
  apply fails_bind_r. intros im2. apply fails_bind_r. intros u1.
  apply fails_bind_r. intros zoom. apply fails_bind_r. intros flow2.
  apply fails_bind_r. intros im3.
  apply fails_bind_r. intros u2. apply fails_bind_l.
  rewrite rotate_factors_negative by assumption. rewrite py_index_nil.
  apply fails_raise.
Qed.

(** X9: with a negative [degrees] the table of rotation angles,
    range(-degrees, degrees + 1) + degrees//2 * [0], is empty, so
    [lucid_transforms] does not return: drawing the angle raises
    IndexError, unless a transform raised before.  A call of
    [visualize_feature] with at least one step then does not return
    either. *)
Theorem negative_degrees model layer feature start_image size steps lr
        weight_decay grad_clip debug frames show kw :
  (degrees_of kw < 0)%Z ->
  rotate_factors (degrees_of kw) = []
  /\ (forall img (w : World L),
        exists e, fst (lucid_transforms L img kw w) = Raise e)
  /\ ((1 <= steps)%Z ->
      forall w : World L,
        exists e,
          fst (visualize_feature L model layer feature start_image size steps
                                 lr weight_decay grad_clip debug frames show
                                 kw w)
          = Raise e).
Proof.
  intros Hd. split; [now apply rotate_factors_negative|].
  split; [intros img; now apply fails_lucid_transforms|].
  intros Hs. apply fails_visualize_feature. intros img_buf opt0.
  unfold optimize. rewrite py_range_cons by lia.
  apply fails_for_each_head. unfold iteration.
  apply fails_bind_r. intros _. apply fails_bind_r. intros w0.
  apply fails_bind_l. unfold forward_loss.
  apply fails_bind_r. intros buf. apply fails_bind_r. intros img.
  apply fails_bind_l. now apply fails_lucid_transforms.
Qed.

End Fails.

Lemma debug_frames_exceed_steps_witness :
  exists e,
    fst (visualize_feature StandIn.lib 1%positive 1%positive (Some 0%Z) None
                           2 5 0.004 0.1 1 true 10 true StandIn.kw0
                           StandIn.world0)
    = Raise e.
Proof.
  apply (debug_frames_exceed_steps StandIn.lib); [lia|right; lia].
Defined.

Lemma debug_label_conflict_witness :
  exists e,
    fst (visualize_feature StandIn.lib 1%positive 1%positive (Some 0%Z) None
                           2 20 0.004 0.1 1 true 10 true
                           {| kw_rand_sd := None; kw_decay_power := None;
                              kw_jitter := None; kw_scale := None;
                              kw_degrees := None; kw_label := Some "unit"%string;
                              kw_ax := None; kw_dpi := None |}
                           StandIn.world0)
    = Raise e.
Proof.
  apply (debug_label_conflict StandIn.lib) with (l := "unit"%string);
    [reflexivity|lia].
Defined.

Lemma hook_never_fired_witness :
  exists e,
    fst (visualize_feature StandIn.lib 1%positive 2%positive (Some 0%Z) None
                           2 5 0.004 0.1 1 false 10 true StandIn.kw0
                           StandIn.world0)
    = Raise e.
Proof.
  apply (hook_never_fired StandIn.lib); [|lia].
  intros vals b s img ran b' s' E. cbn in E. injection E as <- _ _.
  constructor; [cbn; discriminate|constructor].
Defined.

Lemma negative_degrees_witness :
  exists e,
    fst (lucid_transforms StandIn.lib
           [[[[1; 2]; [3; 4]]; [[5; 6]; [7; 8]]; [[9; 10]; [11; 12]]]]
           {| kw_rand_sd := None; kw_decay_power := None;
              kw_jitter := None; kw_scale := None;
              kw_degrees := Some (-1)%Z; kw_label := None;
              kw_ax := None; kw_dpi := None |}
           StandIn.world0)
    = Raise e.
Proof.
  destruct (negative_degrees StandIn.lib 1%positive 1%positive (Some 0%Z)
              None 2 5 0.004 0.1 1 false 10 true
              {| kw_rand_sd := None; kw_decay_power := None;
                 kw_jitter := None; kw_scale := None;
                 kw_degrees := Some (-1)%Z; kw_label := None;
                 kw_ax := None; kw_dpi := None |}) as (_ & H & _).
  - cbn. lia.
  - apply H.
Defined.
(** ** The channel index *)

Lemma py_index_in_range {A} (l : list A) (k : Z) (d : A) :
  (- Z.of_nat (length l) <= k < Z.of_nat (length l))%Z ->
  py_index l k = Ok (nth (Z.to_nat (k mod Z.of_nat (length l))%Z) l d).
Proof.
  intros H. unfold py_index. set (n := Z.of_nat (length l)) in *.
  assert ((k mod n)%Z = if (k <? 0)%Z then (k + n)%Z else k) as E.
  { destruct (k <? 0)%Z eqn:Ek.
    - apply Z.ltb_lt in Ek. symmetry. apply (Z.mod_unique k n (-1)); lia.
    - apply Z.ltb_ge in Ek. apply Z.mod_small. lia. }
  rewrite <- E.
  assert (0 <= k mod n < n)%Z as Hm by (apply Z.mod_pos_bound; lia).
  assert ((0 <=? k mod n)%Z && (k mod n <? n)%Z = true) as ->.
  { apply andb_true_iff. split; lia. }
  destruct (nth_error l (Z.to_nat (k mod n)%Z)) as [a|] eqn:En.
  - f_equal. symmetry. now apply nth_error_nth.
  - apply nth_error_None in En. lia.
Qed.

Lemma py_index_out_of_range {A} (l : list A) (k : Z) :
  ~ (- Z.of_nat (length l) <= k < Z.of_nat (length l))%Z ->
  py_index l k = Raise IndexError.
Proof.
  intros H. unfold py_index. set (n := Z.of_nat (length l)) in *.
  destruct (k <? 0)%Z eqn:Ek.
  - apply Z.ltb_lt in Ek.
    assert ((0 <=? k + n)%Z = false) as -> by lia. reflexivity.
  - apply Z.ltb_ge in Ek.
    assert ((k <? n)%Z = false) as -> by lia. now rewrite andb_false_r.
Qed.

Section Channel.
Context (L : Framework).

(** X10: the channel index of the loss.  When the hook recorded an output
    whose first batch element has C channels, an index [feature] with
    -C <= feature < C selects channel [feature mod C], so a negative index
    counts from the last channel, and the loss is minus that channel's
    mean; any other index raises IndexError, and so does indexing an
    output without dimensions. *)
Theorem feature_index (chans rest : list tensor) (x : R) (feature : Z)
        (w : World L) :
  let C := Z.of_nat (length chans) in
  let hook_out := Some (Nd (Nd chans :: rest)) in
  ((- C <= feature < C)%Z ->
     compute_loss L (Some feature) hook_out w
     = (Ok (- mean (nth (Z.to_nat (feature mod C)%Z) chans (Sc 0))), w))
  /\ (~ (- C <= feature < C)%Z ->
        compute_loss L (Some feature) hook_out w
        = (Raise IndexError, log L c_python (Some IndexError) w))
  /\ compute_loss L (Some feature) (Some (Sc x)) w
     = (Raise IndexError, log L c_python (Some IndexError) w).
Proof.
  cbv zeta. unfold compute_loss, subscript. split; [|split].
  - intros H. rewrite mbind_run. cbn [tindex].
    change (py_index (Nd chans :: rest) 0) with (Ok (Nd chans)).
    cbn [py]. unfold ret at 1. cbv beta iota. rewrite mbind_run. cbn [tindex].
    rewrite (py_index_in_range chans feature (Sc 0)) by assumption.
    cbn [py]. unfold ret at 1. cbv beta iota.
    unfold mret, M_ret, ret. do 2 f_equal. ring.
  - intros H. rewrite mbind_run. cbn [tindex].
    change (py_index (Nd chans :: rest) 0) with (Ok (Nd chans)).
    cbn [py]. unfold ret at 1. cbv beta iota. rewrite mbind_run. cbn [tindex].
    rewrite (py_index_out_of_range chans feature) by assumption.
    reflexivity.
  - rewrite !mbind_run. reflexivity.
Qed.

End Channel.

(** ** The spectral scale *)

Section Scale.
Context (L : Framework).

(** X11: the array [get_fft_scale] returns has shape
    (1, 1, size, size//2 + 1, 1), and every entry lies in the interval
    (0, size * d], d = 0.5 ** 0.5: the maximum with 1 / (size * d) caps
    the scale.  With a positive [decay_power] the cap is reached at the
    zero frequency. *)
Theorem get_fft_scale_bounds (size : nat) (kw : kwargs) (w : World L) :
  (0 < size)%nat -> 0 <= decay_power kw ->
  exists scale,
    fst (get_fft_scale L size kw w) = Ok scale
    /\ shape5 1 1 size (size / 2 + 1) 1 scale
    /\ (forall y x, (y < size)%nat -> (x < size / 2 + 1)%nat ->
          0 < nth 0 (nth x (nth y (nth 0 (nth 0 scale []) []) []) []) 0
            <= INR size * rpow 0.5 0.5)
    /\ (0 < decay_power kw ->
        nth 0 (nth 0 (nth 0 (nth 0 (nth 0 scale []) []) []) []) 0
        = INR size * rpow 0.5 0.5).
Proof.
  intros Hn Hp. exists (fft_scale size (decay_power kw)).
  rewrite get_fft_scale_run by assumption. split; [reflexivity|].
  assert (Hd := rpow_half_pos).
  assert (0 < INR size) as Hs by (apply lt_0_INR; lia).
  assert (0 < INR size * rpow 0.5 0.5) as Hc by now apply Rmult_lt_0_compat.
  assert (0 < 1 / (INR size * rpow 0.5 0.5)) as Hc'.
  { apply Rdiv_lt_0_compat; [lra|assumption]. }
  split.
  { unfold fft_scale. split; [reflexivity|]. constructor; [|constructor].
    split; [reflexivity|]. constructor; [|constructor].
    split; [apply length_tab|]. apply Forall_tab. intros y _.
    split; [apply length_tab|]. apply Forall_tab. intros x _. reflexivity. }
  split.
  - intros y x Hy Hx. unfold fft_scale. cbn [nth].
    rewrite !nth_tab by assumption. cbn [nth].
    split; [now apply spectral_scale_pos|].
    rewrite spectral_scale_eq by assumption.
    set (f := rpow _ (decay_power kw)).
    pose proof (Rmax_r f (1 / (INR size * rpow 0.5 0.5))) as Hm.
    set (m := Rmax f _) in *.
    assert (0 < m) by lra.
    apply (Rmult_le_reg_r m); [assumption|].
    unfold Rdiv in *. rewrite Rmult_assoc, Rinv_l by lra.
    rewrite Rmult_1_l in *.
    apply (Rmult_le_compat_l (INR size * rpow 0.5 0.5)) in Hm; [|lra].
    rewrite Rinv_r in Hm by lra. lra.
  - intros Hp'. unfold fft_scale. cbn [nth].
    assert (0 < size / 2 + 1)%nat by lia.
    rewrite !nth_tab by assumption. cbn [nth].
    rewrite spectral_scale_eq by assumption.
    rewrite np_fftfreq_0 by assumption.
    replace (0 * 0 + 0 * 0) with 0 by ring.
    unfold rpow at 1. destruct (Rlt_dec 0 0) as [H0|_]; [lra|].
    destruct (Req_dec_T (decay_power kw) 0) as [E|_]; [lra|].
    rewrite Rmax_right by lra. field. lra.
Qed.

End Scale.

Lemma get_fft_scale_bounds_witness :
  exists scale,
    fst (get_fft_scale StandIn.lib 4 StandIn.kw0 StandIn.world0) = Ok scale
    /\ shape5 1 1 4 3 1 scale.
Proof.
  destruct (get_fft_scale_bounds StandIn.lib 4 StandIn.kw0 StandIn.world0)
    as (scale & E & Hs & _).
  - lia.
  - unfold decay_power; simpl; lra.
  - exists scale. split; assumption.
Defined.
(** ** Starting from an image *)

Section Start.
Context (L : Framework).

Lemma py_range_empty lo hi : (hi <= lo)%Z -> py_range lo hi = [].
Proof.
  intros H. unfold py_range. now replace (Z.to_nat (hi - lo)) with 0%nat by lia.
Qed.

(** The buffer made from a start image decodes to the resized image,
    clamped. *)
Lemma initial_buf_start (start_image : T4) (size : nat) (kw : kwargs)
      (im : FImage L) (flow : (nat * nat) * T4) (data : T3) (w : World L) :
  rfft_contract L -> inverse_contract L ->
  (0 < size)%nat -> 0 <= decay_power kw ->
  vision_Image L (squeeze (of_T4 start_image)) = Ok im ->
  gpu_affine_grid [3%nat; size; size] = Ok flow ->
  image_data L (image_set_flow L im flow) = Ok data ->
  shape3 3 size size data ->
  exists buf w1,
    initial_buf L (Some start_image) (Z.of_nat size) kw w = (Ok buf, w1)
    /\ forall w', fst (image_buf_to_rgb L buf kw w')
                  = Ok (map3 (clamp 0 1) data).
Proof.
  intros Hrfft Hinv Hsize Hp Eim Eflow Edata Hdata. unfold initial_buf.
  rewrite mbind_run. unfold lib at 1. rewrite Eim. cbv beta iota.
  rewrite Nat2Z.id. rewrite Eflow.
  rewrite mbind_run. cbn [py]. unfold ret at 1. cbv beta iota.
  rewrite mbind_run. unfold lib at 1. rewrite Edata. cbv beta iota.
  assert (shape4 1 3 size size [data]) as Hx.
  { split; [reflexivity|]. constructor; [assumption|constructor]. }
  pose proof (shape4_normalize 1 size size _ Hx) as Hn.
  rewrite mbind_run.
  match goal with
  | |- context [rgb_to_lucid_colorspace L ?t ?w] =>
      destruct (rgb_to_lucid_colorspace_run L t w Hinv)
        as (inv & Hi & E1 & E2 & ->)
  end.
  pose proof (shape4_map_recolor 1 size size inv _ Hsize Hsize Hi Hn) as Hy.
  destruct (Hrfft 1%nat 3%nat size _ Hy) as (f & Ef & Hf & Eirfft).
  rewrite (rgb_to_fft_run L 1 3 size kw _ f) by (assumption || lia).
  eexists. eexists. split; [reflexivity|].
  intros w'. unfold image_buf_to_rgb. rewrite mbind_run.
  rewrite (fft_to_rgb_run L 1 3 size)
    by (try apply shape5_scaled; assumption || lia).
  rewrite (scaled_cancel _ 1 3 size (size / 2 + 1) 2);
    [|intros y x; apply Rgt_not_eq; now apply spectral_scale_pos|assumption].
  rewrite Eirfft. cbv beta iota.
  rewrite lucid_colorspace_to_rgb_recolor.
  rewrite (map_recolor_inverse 1 size size inv) by
    (assumption || apply shape2_ccn_T).
  rewrite (denormalize_of_normalize 1 size size) by assumption.
  reflexivity.
Qed.

(** X12: a start image survives the trip through the parameterization,
    for a positive [size] and a [decay_power] that is not negative.  With
    no step to run, [visualize_feature(..., start_image=img, show=False)]
    then returns the image that fastai resized to (3, size, size), clamped
    to [0, 1]: normalization, the inverse colour transform and the scaled
    FFT that build the buffer are undone exactly by [image_buf_to_rgb].
    (For a negative [decay_power] the scale has a zero, and the division
    in [rgb_to_fft] leaves the real numbers.) *)
Theorem start_image_round_trip model layer feature (start_image : T4)
        (size : nat) steps lr weight_decay grad_clip debug frames kw
        (im : FImage L) (flow : (nat * nat) * T4) (data : T3) (w : World L) :
  rfft_contract L -> inverse_contract L ->
  (0 < size)%nat -> 0 <= decay_power kw ->
  vision_Image L (squeeze (of_T4 start_image)) = Ok im ->
  gpu_affine_grid [3%nat; size; size] = Ok flow ->
  image_data L (image_set_flow L im flow) = Ok data ->
  shape3 3 size size data ->
  optim_AdamW L lr weight_decay = Ok tt ->
  (steps <= 0)%Z ->
  fst (visualize_feature L model layer feature (Some start_image)
                         (Z.of_nat size) steps lr weight_decay grad_clip
                         debug frames false kw w)
  = Ok (Some (map3 (clamp 0 1) data)).
Proof.
  intros Hrfft Hinv Hsize Hp Eim Eflow Edata Hdata Eopt Hsteps.
  destruct (initial_buf_start start_image size kw im flow data w
              Hrfft Hinv Hsize Hp Eim Eflow Edata Hdata)
    as (buf & w1 & Ebuf & Himg).
  unfold visualize_feature, setup_and_optimize.
  rewrite !mbind_run. rewrite Ebuf. rewrite !mbind_run.
  unfold requires_grad_ at 1. cbv beta iota zeta.
  set (p := fresh (dom (values L w1))).
  unfold optimize_leaf. rewrite !mbind_run.
  unfold AdamW at 1. rewrite Eopt. unfold lib at 1. cbv beta iota.
  rewrite !mbind_run. unfold lib at 1. cbv beta iota.
  rewrite !mbind_run. unfold optimize.
  rewrite py_range_empty by lia. cbn [for_each]. unfold ret at 1.
  cbv beta iota. unfold mret, M_ret, ret at 1. cbv beta iota.
  unfold lib at 1. cbv beta iota. rewrite !mbind_run.
  rewrite (read_written L p buf)
    by (cbn [values log set_req_grad set_values]; apply lookup_insert_eq).
  rewrite mbind_run.
  match goal with
  | |- context [image_buf_to_rgb L buf kw ?w'] =>
      specialize (Himg w');
      destruct (image_buf_to_rgb L buf kw w') as [r w2]
  end.
  cbn [fst] in Himg. subst r. reflexivity.
Qed.

End Start.

Lemma start_image_round_trip_witness :
  fst (visualize_feature StandInInv.lib 1%positive 1%positive (Some 0%Z)
         (Some [[[[1; 2]; [3; 4]]; [[5; 6]; [7; 8]]; [[9; 10]; [11; 12]]]])
         (Z.of_nat 2) 0 0.004 0.1 1 false 10 false StandIn.kw0
         StandInInv.world0)
  = Ok (Some (map3 (clamp 0 1)
                   [[[1; 2]; [3; 4]]; [[5; 6]; [7; 8]]; [[9; 10]; [11; 12]]])).
Proof.
  eapply (start_image_round_trip StandInInv.lib).
  - exact StandInFacts.rfft_ok.
  - exact StandInInvFacts.inverse_ok.
  - lia.
  - unfold decay_power; simpl; lra.
  - reflexivity.
  - reflexivity.
  - reflexivity.
  - repeat (split || constructor).
  - reflexivity.
  - lia.
Defined.
(** ** The calls of a run, in order *)

Section Calls.
Context (L : Framework).

Lemma calls_ret {A} (a : A) : calls (ret L a) [].
Proof.
  intros w. exists []. split; [now rewrite app_nil_r|].
  split; [constructor|reflexivity].
Qed.

Lemma calls_mret {A} (a : A) : calls (mret a : M L A) [].
Proof. apply calls_ret. Qed.

Lemma calls_bind {A B} (m : M L A) (k : A -> M L B) n1 n2 :
  calls m n1 -> (forall a, calls (k a) n2) -> calls (m ≫= k) (n1 ++ n2).
Proof.
  intros Hm Hk w. rewrite mbind_run. specialize (Hm w).
  destruct (m w) as [[a|e] w1]; [|exact I].
  destruct Hm as (evs1 & E1 & C1 & N1). specialize (Hk a w1).
  destruct (k a w1) as [[b|e] w2]; [|exact I].
  destruct Hk as (evs2 & E2 & C2 & N2). exists (evs1 ++ evs2).
  split; [now rewrite E2, E1, app_assoc|].
  split; [apply Forall_app; now split|].
  now rewrite map_app, N1, N2.
Qed.

Lemma calls_ret_bind {A B} (a : A) (k : A -> M L B) names :
  calls (k a) names -> calls (ret L a ≫= k) names.
Proof. intros H w. rewrite mbind_run. apply H. Qed.

Lemma calls_event {A} (r : result A) c name (w w' : World L) :
  trace L w' = trace L w ++ [(c, exn_of r)] ->
  call_name c = name ->
  match r with
  | Ok _ =>
      exists evs, trace L w' = trace L w ++ evs /\ clean evs
                  /\ map (fun ev => call_name (fst ev)) evs = [name]
  | Raise _ => True
  end.
Proof.
  intros E <-. destruct r as [a|e]; [|exact I].
  exists [(c, None)]. split; [exact E|]. split; [|reflexivity].
  constructor; [reflexivity|constructor].
Qed.

Lemma calls_lib {A} c (r : result A) : calls (lib L c r) [call_name c].
Proof. intros w. unfold lib. now apply (calls_event r c). Qed.

Lemma calls_raise {A} e names : calls (raise L e : M L A) names.
Proof. intros w. exact I. Qed.

Lemma calls_py {A} (r : result A) : calls (py L r) [].
Proof. destruct r; [apply calls_ret|apply calls_raise]. Qed.

Lemma calls_np_rand : calls (np_rand L) ["np.random.rand"%string].
Proof.
  intros w. unfold np_rand. destruct (np_random_rand L _) as [u s].
  eapply (calls_event (Ok u)); reflexivity.
Qed.

Lemma calls_for_each {A S} (l : list A) (body : A -> S -> M L S) names s :
  (forall a s, calls (body a s) names) ->
  calls (for_each L l body s) (concat (repeat names (length l))).
Proof.
  intros Hbody. revert s. induction l as [|a l IH]; intros s.
  - apply calls_ret.
  - cbn [for_each length repeat concat]. apply calls_bind; [apply Hbody|].
    intros s'. apply IH.
Qed.

Lemma calls_init_fft_buf size kw :
  calls (init_fft_buf L size kw) ["np.random.normal"%string].
Proof.
  intros w. unfold init_fft_buf. cbv zeta.
  destruct (np_random_normal L _ _ _) as [r s].
  eapply (calls_event r); reflexivity.
Qed.

Lemma calls_fftfreq n d : calls (fftfreq L n d) ["np.fft.fftfreq"%string].
Proof. apply calls_lib. Qed.

Lemma calls_get_fft_scale size kw :
  calls (get_fft_scale L size kw) ["np.fft.fftfreq"; "np.fft.fftfreq"]%string.
Proof.
  unfold get_fft_scale.
  apply (calls_bind _ _ [_] [_]); [apply calls_fftfreq|intros fy].
  apply (calls_bind _ _ [_] []); [apply calls_fftfreq|intros fx].
  apply calls_mret.
Qed.

Lemma calls_fft_to_rgb t kw : calls (fft_to_rgb L t kw) fft_to_rgb_names.
Proof.
  unfold fft_to_rgb.
  apply (calls_bind _ _ [_; _] [_]); [apply calls_get_fft_scale|intros scale].
  apply calls_lib.
Qed.

Lemma calls_tensor_div t scale : calls (tensor_div L t scale) [].
Proof.
  unfold tensor_div. destruct (true_divide t scale) as [q|e].
  - apply calls_ret.
  - intros w. exact I.
Qed.

Lemma calls_rgb_to_fft t kw :
  calls (rgb_to_fft L t kw)
        ["torch.rfft"; "np.fft.fftfreq"; "np.fft.fftfreq"]%string.
Proof.
  unfold rgb_to_fft.
  apply (calls_bind _ _ [_] [_; _]); [apply calls_lib|intros f].
  apply (calls_bind _ _ [_; _] []); [apply calls_get_fft_scale|intros scale].
  apply calls_tensor_div.
Qed.

Lemma calls_rgb_to_lucid_colorspace t :
  calls (rgb_to_lucid_colorspace L t) ["torch.inverse"%string].
Proof.
  unfold rgb_to_lucid_colorspace.
  apply (calls_bind _ _ [_] []); [apply calls_lib|intros inv].
  apply calls_mret.
Qed.

Lemma calls_image_buf_to_rgb buf kw :
  calls (image_buf_to_rgb L buf kw) fft_to_rgb_names.
Proof.
  unfold image_buf_to_rgb. rewrite <- (app_nil_r fft_to_rgb_names).
  apply calls_bind; [apply calls_fft_to_rgb|intros img].
  destruct (map4 _ _); [apply calls_raise|apply calls_mret].
Qed.

Lemma calls_show_rgb img label ax dpi :
  calls (show_rgb L img label ax dpi) (show_rgb_names ax).
Proof.
  unfold show_rgb. destruct ax as [a|]; cbn [show_rgb_names].
  - apply (calls_bind _ _ [] [_; _; _]); [apply calls_mret|intros a'].
    apply (calls_bind _ _ [_] [_; _]); [apply calls_lib|intros _].
    apply (calls_bind _ _ [_] [_]); [apply calls_lib|intros _].
    apply (calls_bind _ _ [_] []); [apply calls_lib|intros _].
    apply calls_mret.
  - apply (calls_bind _ _ [_] [_; _; _; _]).
    { destruct (Req_dec_T dpi 0); [apply calls_raise|apply calls_lib]. }
    intros a.
    apply (calls_bind _ _ [_] [_; _; _]); [apply calls_lib|intros _].
    apply (calls_bind _ _ [_] [_; _]); [apply calls_lib|intros _].
    apply (calls_bind _ _ [_] [_]); [apply calls_lib|intros _].
    apply calls_lib.
Qed.

Lemma calls_lucid_transforms img kw :
  calls (lucid_transforms L img kw) lucid_transforms_names.
Proof.
  unfold lucid_transforms, lucid_transforms_names.
  apply (calls_bind _ _ [_] (_ :: _)); [apply calls_lib|intros im0].
  apply (calls_bind _ _ [] (_ :: _)); [apply calls_py|intros flow0].
  apply (calls_bind _ _ [_] (_ :: _)); [apply calls_lib|intros im1].
  apply (calls_bind _ _ [_] (_ :: _)); [apply calls_np_rand|intros row1].
  apply (calls_bind _ _ [_] (_ :: _)); [apply calls_np_rand|intros col1].
  apply (calls_bind _ _ [_] (_ :: _)); [apply calls_lib|intros im2].
  apply (calls_bind _ _ [_] (_ :: _)); [apply calls_np_rand|intros u1].
  apply (calls_bind _ _ [] (_ :: _)); [apply calls_py|intros zoom].
  apply (calls_bind _ _ [] (_ :: _)); [apply calls_py|intros flow2].
  apply (calls_bind _ _ [_] (_ :: _)); [apply calls_lib|intros im3].
  apply (calls_bind _ _ [_] (_ :: _)); [apply calls_np_rand|intros u2].
  apply (calls_bind _ _ [] (_ :: _)); [apply calls_py|intros angle].
  apply (calls_bind _ _ [] (_ :: _)); [apply calls_py|intros flow3].
  apply (calls_bind _ _ [_] (_ :: _)); [apply calls_lib|intros im4].
  apply (calls_bind _ _ [_] (_ :: _)); [apply calls_np_rand|intros row2].
  apply (calls_bind _ _ [_] (_ :: _)); [apply calls_np_rand|intros col2].
  apply (calls_bind _ _ [_] [_]); [apply calls_lib|intros im5].
  apply (calls_bind _ _ [_] []); [apply calls_lib|intros data].
  apply calls_mret.
Qed.

Lemma calls_read p : calls (read L p) [].
Proof. intros w. apply (calls_ret (to_T5 _) w). Qed.

Lemma calls_get_world : calls (get_world L) [].
Proof. intros w. apply (calls_ret w w). Qed.

Lemma calls_requires_grad_ t :
  calls (requires_grad_ L t) ["requires_grad_"%string].
Proof.
  intros w. unfold requires_grad_. cbv zeta.
  eapply (calls_event (Ok (fresh (dom (values L w))))); reflexivity.
Qed.

Lemma calls_AdamW params lr weight_decay :
  calls (AdamW L params lr weight_decay) ["torch.optim.AdamW"%string].
Proof. apply calls_lib. Qed.

Lemma calls_zero_grad opt : calls (zero_grad L opt) ["opt.zero_grad"%string].
Proof. intros w. eapply (calls_event (Ok tt)); reflexivity. Qed.

Lemma calls_backward loss f :
  calls (backward L loss f) ["loss.backward"%string].
Proof.
  intros w. unfold backward. destruct (autograd L f _ _) as [g|e]; [|exact I].
  eapply (calls_event (Ok tt)); reflexivity.
Qed.

Lemma calls_clip_grad_norm_ p max_norm :
  calls (clip_grad_norm_ L p max_norm) ["clip_grad_norm_"%string].
Proof.
  intros w. unfold clip_grad_norm_.
  eapply (calls_event (Ok tt) (c_clip_grad_norm p)); [|reflexivity].
  now destruct (grads L w !! p).
Qed.

Lemma calls_opt_step opt : calls (opt_step L opt) ["opt.step"%string].
Proof.
  intros w. unfold opt_step. cbv zeta.
  destruct (fold_left _ _ _) as [vals state].
  eapply (calls_event (Ok opt)); reflexivity.
Qed.

Lemma calls_model_call model layer ho img :
  calls (model_call L model layer ho img) ["model"%string].
Proof.
  intros w. unfold model_call.
  destruct (model_forward L model _ _ _ img) as [[[ran|e] b] s]; [|exact I].
  eapply (calls_event (Ok ran)); reflexivity.
Qed.

Lemma calls_compute_loss feature ho : calls (compute_loss L feature ho) [].
Proof.
  unfold compute_loss, subscript. destruct feature.
  - apply (calls_bind _ _ [] []).
    { destruct ho; [apply calls_py|apply calls_raise]. }
    intros o. apply (calls_bind _ _ [] []); [apply calls_py|intros ch].
    apply calls_mret.
  - apply (calls_bind _ _ [] []).
    { destruct ho; [apply calls_py|apply calls_raise]. }
    intros o. apply calls_mret.
Qed.

Lemma calls_forward_loss model layer feature kw p ho :
  calls (forward_loss L model layer feature kw p ho)
        (fft_to_rgb_names ++ lucid_transforms_names ++ ["model"%string]).
Proof.
  unfold forward_loss.
  apply (calls_bind _ _ [] (fft_to_rgb_names ++ lucid_transforms_names
                            ++ ["model"%string]));
    [apply calls_read|intros buf].
  apply (calls_bind _ _ fft_to_rgb_names
           (lucid_transforms_names ++ ["model"%string]));
    [apply calls_fft_to_rgb|intros img].
  apply (calls_bind _ _ lucid_transforms_names ["model"%string]);
    [apply calls_lucid_transforms|intros img'].
  apply (calls_bind _ _ [_] []); [apply calls_model_call|intros ho'].
  apply (calls_bind _ _ [] []); [apply calls_compute_loss|intros loss].
  apply calls_mret.
Qed.

Lemma iteration_names_eq :
  iteration_names
  = ["opt.zero_grad"%string]
    ++ (fft_to_rgb_names ++ lucid_transforms_names ++ ["model"%string])
    ++ ["loss.backward"; "clip_grad_norm_"; "opt.step"]%string.
Proof. reflexivity. Qed.

Lemma calls_iteration model layer feature steps grad_clip frames kw p i st :
  calls (iteration L model layer feature steps grad_clip false frames kw p i st)
        iteration_names.
Proof.
  unfold iteration. rewrite iteration_names_eq. destruct st as [opt ho].
  apply (calls_bind _ _ [_] (_ ++ _)); [apply calls_zero_grad|intros _].
  apply (calls_bind _ _ [] (_ ++ _)); [apply calls_get_world|intros w0].
  apply (calls_bind _ _ (_ ++ _ ++ _) [_; _; _]);
    [apply calls_forward_loss|intros [[loss stats] ho']].
  apply (calls_bind _ _ [_] [_; _]); [apply calls_backward|intros _].
  apply (calls_bind _ _ [_] [_]); [apply calls_clip_grad_norm_|intros _].
  apply (calls_bind _ _ [_] []); [apply calls_opt_step|intros opt'].
  cbn [frame_due]. apply calls_ret_bind.
  apply (calls_bind _ _ [] []); [apply calls_mret|intros _].
  apply calls_mret.
Qed.

Lemma calls_initial_buf start_image size kw :
  calls (initial_buf L start_image size kw) (initial_buf_names start_image).
Proof.
  unfold initial_buf. destruct start_image as [start_image|];
    [|apply calls_init_fft_buf].
  cbn [initial_buf_names].
  apply (calls_bind _ _ [_] [_; _; _; _; _]); [apply calls_lib|intros im].
  apply (calls_bind _ _ [] [_; _; _; _; _]); [apply calls_py|intros flow].
  apply (calls_bind _ _ [_] [_; _; _; _]); [apply calls_lib|intros data].
  apply (calls_bind _ _ [_] [_; _; _]);
    [apply calls_rgb_to_lucid_colorspace|intros t].
  apply calls_rgb_to_fft.
Qed.

Lemma calls_optimize model layer feature steps grad_clip frames kw p n st :
  calls (optimize L model layer feature steps grad_clip false frames kw p n st)
        (concat (repeat iteration_names (Z.to_nat n))).
Proof.
  unfold optimize.
  replace (Z.to_nat n) with (length (py_range 1 (n + 1)))
    by (rewrite length_py_range; lia).
  apply calls_for_each. intros i s. apply calls_iteration.
Qed.

Lemma calls_visualize_feature model layer feature start_image size steps lr
      weight_decay grad_clip frames show kw :
  calls (visualize_feature L model layer feature start_image size steps lr
                           weight_decay grad_clip false frames show kw)
        (initial_buf_names start_image
         ++ ["requires_grad_"; "torch.optim.AdamW";
             "register_forward_hook"]%string
         ++ concat (repeat iteration_names (Z.to_nat steps))
         ++ ["hook.remove"%string] ++ fft_to_rgb_names
         ++ (if show then show_rgb_names (kw_ax kw) else [])).
Proof.
  unfold visualize_feature.
  rewrite (app_assoc (initial_buf_names start_image)).
  rewrite (app_assoc (initial_buf_names start_image ++ _)).
  apply calls_bind.
  - unfold setup_and_optimize. rewrite <- !app_assoc.
    apply calls_bind; [apply calls_initial_buf|intros buf].
    apply (calls_bind _ _ [_] (_ :: _ :: _));
      [apply calls_requires_grad_|intros p].
    unfold optimize_leaf.
    apply (calls_bind _ _ [_] (_ :: _)); [apply calls_AdamW|intros opt].
    apply (calls_bind _ _ [_] _); [apply calls_lib|intros _].
    rewrite <- (app_nil_r (concat _)).
    apply calls_bind; [apply calls_optimize|intros _]. apply calls_mret.
  - intros p.
    apply (calls_bind _ _ [_] (_ ++ _)); [apply calls_lib|intros _].
    apply (calls_bind _ _ [] (_ ++ _)); [apply calls_read|intros buf].
    apply calls_bind; [apply calls_image_buf_to_rgb|intros retval].
    destruct show; [|apply calls_mret].
    rewrite <- (app_nil_r (show_rgb_names _)).
    apply calls_bind; [|intros _; apply calls_mret].
    cbn [negb]. apply calls_show_rgb.
Qed.

End Calls.

Lemma count_occ_concat_repeat (names : list string) (x : string) (n : nat) :
  count_occ string_dec (concat (repeat names n)) x
  = (n * count_occ string_dec names x)%nat.
Proof.
  induction n as [|n IH]; [reflexivity|].
  cbn [repeat concat]. rewrite count_occ_app, IH. lia.
Qed.

(** X13: the calls of a run without debug frames.  When
    [visualize_feature(..., debug=False)] returns, it has made, in this
    order and with no exception: the calls that build the buffer, then
    [requires_grad_], the construction of AdamW and the registration of
    the hook; for every step the same 21 calls, from [opt.zero_grad()]
    through the Fourier transform, the five augmentations with their six
    random draws, the model, [loss.backward()] and gradient clipping to
    [opt.step()]; then [hook.remove()], the transform of the final buffer
    and, if [show], the calls of [show_rgb].  So the model runs once per
    step, and so do backward and the optimizer, and one image is shown if
    [show] and none otherwise. *)
Theorem call_sequence (L : Framework) model layer feature
        (start_image : option T4) size (steps : Z) lr weight_decay grad_clip
        frames (show : bool) (kw : kwargs) :
  let names :=
    initial_buf_names start_image
    ++ ["requires_grad_"; "torch.optim.AdamW"; "register_forward_hook"]%string
    ++ concat (repeat iteration_names (Z.to_nat steps))
    ++ ["hook.remove"%string] ++ fft_to_rgb_names
    ++ (if show then show_rgb_names (kw_ax kw) else []) in
  calls (visualize_feature L model layer feature start_image size steps lr
                           weight_decay grad_clip false frames show kw)
        names
  /\ length iteration_names = 21%nat
  /\ count_occ string_dec names "model"%string = Z.to_nat steps
  /\ count_occ string_dec names "loss.backward"%string = Z.to_nat steps
  /\ count_occ string_dec names "opt.step"%string = Z.to_nat steps
  /\ count_occ string_dec names "np.random.rand"%string
     = (6 * Z.to_nat steps)%nat
  /\ count_occ string_dec names "ax.imshow"%string
     = (if show then 1 else 0)%nat.
Proof.
  cbv zeta. split; [apply calls_visualize_feature|].
  split; [reflexivity|].
  repeat split; rewrite !count_occ_app, count_occ_concat_repeat;
    destruct start_image, show; try destruct (kw_ax kw);
    cbn [initial_buf_names show_rgb_names];
    repeat match goal with
           | |- context [count_occ string_dec ?l ?x] =>
               let v := eval vm_compute in (count_occ string_dec l x) in
               change (count_occ string_dec l x) with v
           end; cbv beta iota; lia.
Qed.
(** *** A run with one step *)

Module StandInStep.

Abbreviation buf0 := (StandIn.constant5 1 3 2 2 2 0.01).

Lemma forward_loss_ok ho (w : World StandIn.lib) :
  values StandIn.lib w !! 1%positive = Some (of_T5 buf0) ->
  exists x w',
    forward_loss StandIn.lib 1%positive 1%positive (Some 0%Z) StandIn.kw0
                 1%positive ho w = (Ok x, w').
Proof.
  intros Hv. unfold forward_loss.
  rewrite mbind_run. rewrite (read_written StandIn.lib 1%positive buf0 w Hv).
  rewrite mbind_run.
  rewrite (fft_to_rgb_run StandIn.lib 1 3 2)
    by (try lia; apply (StandInFacts.shape5_constant5 1 3 2 2 2)).
  cbn [torch_irfft StandIn.lib].
  rewrite mbind_run.
  match goal with
  | |- context [lucid_transforms StandIn.lib ?img ?kw ?w] =>
      destruct (StandInLoss.lucid_transforms_returns 2 img w)
        as (data & E & Hlen);
      [lia
      |apply shape4_map4, (shape4_lucid 1 2 2); [lia|lia|];
       apply (StandInFacts.shape4_unpack 1 3 2),
             (shape5_scaled _ _ 1 3 2 2 2),
             (StandInFacts.shape5_constant5 1 3 2 2 2)
      |];
      destruct (lucid_transforms StandIn.lib img kw w) as [r w2]
  end.
  cbn [fst] in E. subst r.
  rewrite mbind_run. unfold model_call at 1. cbn [model_forward StandIn.lib].
  cbv beta iota.
  destruct data as [|c0 data]; [discriminate|].
  unfold compute_loss, subscript.
  match goal with
  | |- context [hooked ?l ?ran ?h] =>
      assert (hooked l ran h = Some (of_T4 [c0 :: data])) as ->
  end.
  { unfold hooked. cbn [fold_left]. now rewrite decide_True. }
  rewrite !mbind_run.
  change (tindex (of_T4 [c0 :: data]) 0) with (Ok (of_T3 (c0 :: data))).
  cbn [py]. unfold ret at 1. cbv beta iota.
  change (tindex (of_T3 (c0 :: data)) 0) with (Ok (of_T2 c0)).
  cbn [py]. unfold ret at 1. cbv beta iota.
  unfold mret, M_ret, ret. cbv beta. eexists. eexists. reflexivity.
Qed.

(** The forward pass returns whenever the image buffer is in place, and
    leaves every leaf as it was. *)
Lemma forward_loss_runs ho (w : World StandIn.lib) :
  values StandIn.lib w !! 1%positive = Some (of_T5 buf0) ->
  exists x w',
    forward_loss StandIn.lib 1%positive 1%positive (Some 0%Z) StandIn.kw0
                 1%positive ho w = (Ok x, w')
    /\ values StandIn.lib w' = values StandIn.lib w.
Proof.
  intros Hv. destruct (forward_loss_ok ho w Hv) as (x & w' & E).
  exists x, w'. split; [exact E|].
  pose proof (sat_forward_loss StandIn.lib same_values (fun _ => True)
                (fun _ => eq_refl) (same_values_seq StandIn.lib)
                (fun _ _ _ _ => eq_refl) (fun _ _ => eq_refl)
                (fun _ _ _ => eq_refl) (fun _ _ _ => I)
                1%positive 1%positive (Some 0%Z) StandIn.kw0 1%positive ho w)
    as Hsame.
  unfold wp in Hsame. rewrite E in Hsame. apply Hsame.
Qed.

Lemma zero_grad_runs opt (w : World StandIn.lib) :
  exists w', zero_grad StandIn.lib opt w = (Ok tt, w')
             /\ values StandIn.lib w' = values StandIn.lib w.
Proof. eexists. split; reflexivity. Qed.

Lemma backward_runs loss f (w : World StandIn.lib) :
  exists w', backward StandIn.lib loss f w = (Ok tt, w')
             /\ values StandIn.lib w' = values StandIn.lib w.
Proof. eexists. split; reflexivity. Qed.

Lemma clip_grad_norm_runs p max_norm (w : World StandIn.lib) :
  exists w', clip_grad_norm_ StandIn.lib p max_norm w = (Ok tt, w')
             /\ values StandIn.lib w' = values StandIn.lib w.
Proof.
  eexists. split; [reflexivity|]. cbn [snd values log].
  now destruct (grads StandIn.lib w !! p).
Qed.

(** The stand-in optimizer writes back the value it read. *)
Lemma opt_step_runs opt v (w : World StandIn.lib) :
  opt_params StandIn.lib opt = [1%positive] ->
  values StandIn.lib w !! 1%positive = Some v ->
  exists opt' w',
    opt_step StandIn.lib opt w = (Ok opt', w')
    /\ opt_params StandIn.lib opt' = [1%positive]
    /\ values StandIn.lib w' !! 1%positive = Some v.
Proof.
  intros Hp Hv. unfold opt_step. rewrite Hp. cbn [fold_left fst snd].
  rewrite Hv. destruct (grads StandIn.lib w !! 1%positive) as [g|].
  - cbn [adamw_update StandIn.lib]. eexists. eexists.
    split; [reflexivity|]. split; [reflexivity|].
    cbn [values log set_values]. apply lookup_insert_eq.
  - eexists. eexists. split; [reflexivity|]. split; [reflexivity|].
    exact Hv.
Qed.

(** One iteration returns and leaves the image buffer in place. *)
Lemma iteration_runs steps grad_clip frames i opt ho (w : World StandIn.lib) :
  values StandIn.lib w !! 1%positive = Some (of_T5 buf0) ->
  opt_params StandIn.lib opt = [1%positive] ->
  exists st w',
    iteration StandIn.lib 1%positive 1%positive (Some 0%Z) steps grad_clip
              false frames StandIn.kw0 1%positive i (opt, ho) w = (Ok st, w')
    /\ values StandIn.lib w' !! 1%positive = Some (of_T5 buf0)
    /\ opt_params StandIn.lib (fst st) = [1%positive].
Proof.
  intros Hv Hp. unfold iteration.
  rewrite mbind_run.
  destruct (zero_grad_runs opt w) as (w1 & -> & V1). rewrite <- V1 in Hv.
  clear V1. rewrite mbind_run. unfold get_world at 1. cbv beta iota.
  rewrite mbind_run.
  destruct (forward_loss_runs ho w1 Hv) as ([[loss stats] ho'] & w2 & E & V2).
  rewrite E. cbv beta iota. rewrite <- V2 in Hv. clear V2 E.
  rewrite mbind_run.
  match goal with
  | |- context [backward StandIn.lib ?l ?f w2] =>
      destruct (backward_runs l f w2) as (w3 & -> & V3)
  end.
  rewrite <- V3 in Hv. clear V3.
  rewrite mbind_run.
  destruct (clip_grad_norm_runs 1%positive grad_clip w3) as (w4 & -> & V4).
  rewrite <- V4 in Hv. clear V4.
  rewrite mbind_run.
  destruct (opt_step_runs opt _ w4 Hp Hv) as (opt' & w5 & -> & Hp' & V5).
  cbn [frame_due]. rewrite !mbind_run. unfold ret at 1. cbv beta iota.
  rewrite !mbind_run. unfold mret, M_ret, ret. cbv beta iota.
  eexists. eexists. split; [reflexivity|]. split; assumption.
Qed.

(** With one step and no display, the run returns an image. *)
Lemma run_returns :
  exists img,
    fst (visualize_feature StandIn.lib 1%positive 1%positive (Some 0%Z) None
                           2 1 0.004 0.1 1 false 10 false StandIn.kw0
                           StandIn.world0)
    = Ok (Some img).
Proof.
  unfold visualize_feature, setup_and_optimize, initial_buf.
  rewrite !mbind_run.
  assert (init_fft_buf StandIn.lib 2 StandIn.kw0 StandIn.world0
          = (Ok buf0,
             log StandIn.lib (c_np_random_normal [1; 3; 2; 2; 2]%Z 0.01) None
                 (set_np_rng StandIn.lib 1%nat StandIn.world0))) as ->
    by reflexivity.
  rewrite !mbind_run. unfold requires_grad_ at 1.
  cbn [values log set_np_rng StandIn.world0 set_values set_req_grad req_grad].
  replace (fresh (dom (∅ : gmap positive tensor))) with 1%positive
    by (vm_compute; reflexivity).
  unfold optimize_leaf. rewrite !mbind_run.
  unfold AdamW at 1. cbn [optim_AdamW StandIn.lib]. unfold lib at 1.
  cbv beta iota. rewrite !mbind_run. unfold lib at 1. cbv beta iota.
  rewrite !mbind_run. unfold optimize.
  change (py_range 1 (1 + 1)) with [1%Z]. cbn [for_each].
  rewrite !mbind_run.
  match goal with
  | |- context [iteration StandIn.lib _ _ _ ?s ?g _ ?f _ _ ?i (?opt, ?ho) ?w] =>
      destruct (iteration_runs s g f i opt ho w) as (st & w1 & -> & V1 & _);
      [apply lookup_insert_eq|reflexivity|]
  end.
  unfold ret at 1. cbv beta iota. unfold mret, M_ret, ret at 1.
  cbv beta iota. unfold lib at 1. cbv beta iota. rewrite !mbind_run.
  rewrite (read_written StandIn.lib 1%positive buf0) by exact V1.
  rewrite mbind_run.
  match goal with
  | |- context [image_buf_to_rgb StandIn.lib buf0 ?kw ?w] =>
      destruct (image_buf_to_rgb_shape StandIn.lib 2 buf0 kw w
                  StandInFacts.irfft_ok) as (img & E & _);
      [lia|apply (StandInFacts.shape5_constant5 1 3 2 2 2)|];
      destruct (image_buf_to_rgb StandIn.lib buf0 kw w) as [r w2]
  end.
  cbn [fst] in E. subst r. now exists img.
Qed.

End StandInStep.

(** ** The schedule of the debug frames *)

Lemma py_range_snoc lo hi :
  (lo <= hi)%Z -> py_range lo (hi + 1) = py_range lo hi ++ [hi].
Proof.
  intros H. unfold py_range.
  replace (Z.to_nat (hi + 1 - lo)) with (S (Z.to_nat (hi - lo))) by lia.
  rewrite seq_S, map_app. cbn [map]. do 2 f_equal. lia.
Qed.

Lemma div_succ (e n : Z) :
  (0 < e)%Z -> (0 <= n)%Z ->
  ((n + 1) / e = n / e + (if ((n + 1) mod e =? 0)%Z then 1 else 0))%Z.
Proof.
  intros He Hn.
  pose proof (Z.div_mod n e ltac:(lia)) as E.
  pose proof (Z.mod_pos_bound n e He) as Hr.
  destruct (Z.eq_dec (n mod e + 1)%Z e) as [Hfull|Hpart].
  - assert (((n + 1) mod e)%Z = 0%Z) as ->.
    { symmetry. apply (Z.mod_unique (n + 1) e (n / e + 1)); lia. }
    cbn [Z.eqb]. symmetry. apply (Z.div_unique (n + 1) e _ 0); lia.
  - assert (((n + 1) mod e)%Z = (n mod e + 1)%Z) as Hm.
    { symmetry. apply (Z.mod_unique (n + 1) e (n / e)); lia. }
    rewrite Hm. destruct (Z.eqb_spec (n mod e + 1)%Z 0%Z); [lia|].
    symmetry. apply (Z.div_unique (n + 1) e _ (n mod e + 1)%Z); lia.
Qed.

(** Among 1, ..., n there are n // e multiples of e. *)
Lemma count_multiples (e : Z) (n : nat) :
  (0 < e)%Z ->
  length (List.filter (fun i => (i mod e =? 0)%Z) (py_range 1 (Z.of_nat n + 1)))
  = Z.to_nat (Z.of_nat n / e).
Proof.
  intros He. induction n as [|n IH].
  - cbn. now rewrite Z.div_0_l by lia.
  - rewrite Nat2Z.inj_succ. unfold Z.succ.
    rewrite py_range_snoc by lia. rewrite List.filter_app, length_app, IH.
    rewrite (div_succ e (Z.of_nat n)) by lia.
    assert (0 <= Z.of_nat n / e)%Z by (apply Z.div_pos; lia).
    cbn [List.filter].
    destruct ((Z.of_nat n + 1) mod e =? 0)%Z; cbn [length]; lia.
Qed.

Section Schedule.
Context (L : Framework).

(** X14: the schedule of the debug frames.  With [debug=True] and
    1 <= frames <= steps, the frame test never raises, and iteration [i]
    shows a frame exactly when [every = int(steps/frames)] divides [i].
    That makes steps // every frames, which is at least [frames] and can
    be more, and the last iteration shows one only when [every] divides
    [steps]. *)
Theorem debug_frame_schedule (steps frames : Z) :
  (1 <= frames <= steps)%Z ->
  let every := (steps / frames)%Z in
  let due i := (i mod every =? 0)%Z in
  (1 <= every)%Z
  /\ (forall i (w : World L),
        frame_due L true steps frames i w = (Ok (due i), w))
  /\ length (List.filter due (py_range 1 (steps + 1)))
     = Z.to_nat (steps / every)
  /\ (frames <= steps / every)%Z
  /\ (due steps = true <-> (steps mod every)%Z = 0%Z).
Proof.
  intros H. cbv zeta.
  assert (1 <= steps / frames)%Z as He
    by (apply Z.div_le_lower_bound; lia).
  split; [exact He|]. split.
  { intros i w. unfold frame_due.
    destruct (frames =? 0)%Z eqn:E; [lia|].
    rewrite py_int_div by lia.
    destruct (steps / frames =? 0)%Z eqn:E'; [lia|]. reflexivity. }
  split.
  { pose proof (count_multiples (steps / frames) (Z.to_nat steps)) as Hc.
    rewrite Z2Nat.id in Hc by lia. apply Hc. lia. }
  split.
  { apply Z.div_le_lower_bound; [lia|].
    rewrite Z.mul_comm. apply Z.mul_div_le. lia. }
  apply Z.eqb_eq.
Qed.

End Schedule.

Lemma debug_frame_schedule_witness :
  length (List.filter (fun i => (i mod (10 / 4) =? 0)%Z) (py_range 1 (10 + 1)))
  = Z.to_nat (10 / (10 / 4)).
Proof.
  apply (debug_frame_schedule StandIn.lib 10 4). lia.
Defined.
(** ** The loss without a channel *)

Lemma leaves_tmap (f : R -> R) :
  forall t : tensor, leaves (tmap f t) = map f (leaves t).
Proof.
  fix IH 1. intros [x|ts]; [reflexivity|].
  cbn [tmap leaves]. induction ts as [|t ts IHts]; [reflexivity|].
  cbn [map concat]. now rewrite map_app, IH, IHts.
Qed.

Lemma rsum_squares (l : T1) :
  0 <= rsum (map (fun x => x * x) l)
  /\ (rsum (map (fun x => x * x) l) = 0 <-> Forall (fun v => v = 0) l).
Proof.
  induction l as [|v l [IH0 IH]]; cbn [map rsum fold_right].
  - split; [lra|]. split; [constructor|reflexivity].
  - fold (rsum (map (fun x => x * x) l)).
    assert (0 <= v * v) by nra. split; [lra|]. split.
    + intros E. assert (v * v = 0) as Hv by lra.
      constructor; [nra|]. apply IH. lra.
    + intros Hall. inversion Hall as [|? ? Hv Hl]; subst.
      apply IH in Hl. rewrite Hl. lra.
Qed.

Section LossNone.
Context (L : Framework).

(** X15: with [feature=None] the loss is minus the mean of the squares of
    the first batch element of the layer's output, so it is never
    positive, and it is zero only when that output is zero everywhere. *)
Theorem loss_without_channel (o o0 : tensor) (w : World L) :
  tindex o 0 = Ok o0 -> leaves o0 <> [] ->
  exists loss,
    compute_loss L None (Some o) w = (Ok loss, w)
    /\ loss <= 0
    /\ (loss = 0 <-> Forall (fun v => v = 0) (leaves o0)).
Proof.
  intros E Hne. unfold compute_loss, subscript. rewrite mbind_run, E.
  cbn [py]. unfold ret at 1. cbv beta iota.
  eexists. split; [reflexivity|].
  unfold mean. rewrite leaves_tmap, length_map.
  destruct (rsum_squares (leaves o0)) as [H0 Hz].
  assert (0 < INR (length (leaves o0))) as Hn.
  { apply lt_0_INR. destruct (leaves o0); [contradiction|cbn; lia]. }
  set (s := rsum _) in *. set (n := INR _) in *.
  assert (0 < / n) as Hi by now apply Rinv_0_lt_compat.
  unfold Rdiv. split; [nra|]. rewrite <- Hz. split; intros Hs; [nra|].
  rewrite Hs. ring.
Qed.

End LossNone.

Lemma loss_without_channel_witness :
  exists loss,
    compute_loss StandIn.lib None (Some (of_T2 [[1; 2]; [3; 4]]))
                 StandIn.world0
    = (Ok loss, StandIn.world0)
    /\ loss <= 0.
Proof.
  destruct (loss_without_channel StandIn.lib (of_T2 [[1; 2]; [3; 4]])
              (of_T1 [1; 2]) StandIn.world0) as (loss & E & H & _).
  - reflexivity.
  - discriminate.
  - exists loss. split; assumption.
Defined.

(** ** The calls of a run with debug frames *)

Section DebugCalls.
Context (L : Framework).

Lemma frame_due_runs (steps frames i : Z) (w : World L) :
  (1 <= frames <= steps)%Z ->
  frame_due L true steps frames i w
  = (Ok (i mod (steps / frames) =? 0)%Z, w).
Proof.
  intros H. unfold frame_due.
  assert (1 <= steps / frames)%Z by (apply Z.div_le_lower_bound; lia).
  destruct (frames =? 0)%Z eqn:E; [lia|].
  rewrite py_int_div by lia.
  destruct (steps / frames =? 0)%Z eqn:E'; [lia|]. reflexivity.
Qed.

Lemma calls_for_each_map {A S} (l : list A) (body : A -> S -> M L S)
      (names : A -> list string) s :
  (forall a s, calls (body a s) (names a)) ->
  calls (for_each L l body s) (concat (map names l)).
Proof.
  intros Hbody. revert s. induction l as [|a l IH]; intros s.
  - apply calls_ret.
  - cbn [for_each map concat]. apply calls_bind; [apply Hbody|].
    intros s'. apply IH.
Qed.

Lemma calls_bind_run {A B} (m : M L A) (k : A -> M L B) a names :
  (forall w, m w = (Ok a, w)) -> calls (k a) names -> calls (m ≫= k) names.
Proof. intros Hm Hk w. rewrite mbind_run, Hm. apply Hk. Qed.

Lemma calls_debug_iteration model layer feature steps grad_clip frames kw p i
      st :
  (1 <= frames <= steps)%Z ->
  calls (iteration L model layer feature steps grad_clip true frames kw p i st)
        (iteration_names ++ frame_names steps frames kw i).
Proof.
  intros Hf. unfold iteration. destruct st as [opt ho].
  set (fr := frame_names steps frames kw i).
  replace (iteration_names ++ fr)
    with (["opt.zero_grad"%string]
          ++ (fft_to_rgb_names ++ lucid_transforms_names ++ ["model"%string])
          ++ ["loss.backward"%string] ++ ["clip_grad_norm_"%string]
          ++ ["opt.step"%string] ++ fr)
    by (rewrite iteration_names_eq; now rewrite <- !app_assoc).
  apply (calls_bind L _ _ [_] _); [apply calls_zero_grad|intros _].
  apply (calls_bind L _ _ [] _); [apply calls_get_world|intros w0].
  apply (calls_bind L _ _
           (fft_to_rgb_names ++ lucid_transforms_names ++ ["model"%string]) _);
    [apply calls_forward_loss|intros [[loss stats] ho']].
  apply (calls_bind L _ _ [_] _); [apply calls_backward|intros _].
  apply (calls_bind L _ _ [_] _); [apply calls_clip_grad_norm_|intros _].
  apply (calls_bind L _ _ [_] _); [apply calls_opt_step|intros opt'].
  subst fr.
  eapply calls_bind_run; [intros w; now apply frame_due_runs|].
  rewrite <- (app_nil_r (frame_names _ _ _ _)).
  apply (calls_bind L _ _ (frame_names steps frames kw i) []);
    [|intros _; apply calls_mret].
  unfold frame_names. destruct (_ =? 0)%Z; [|apply calls_mret].
  apply (calls_bind L _ _ [_] _); [apply calls_lib|intros _].
  apply (calls_bind L _ _ [] _); [apply calls_read|intros buf].
  apply (calls_bind L _ _ fft_to_rgb_names _);
    [apply calls_image_buf_to_rgb|intros img].
  destruct (kw_label kw); [apply calls_raise|apply calls_show_rgb].
Qed.

Lemma calls_debug_optimize model layer feature steps grad_clip frames kw p st :
  (1 <= frames <= steps)%Z ->
  calls (optimize L model layer feature steps grad_clip true frames kw p steps
                  st)
        (concat (map (fun i => iteration_names ++ frame_names steps frames kw i)
                     (py_range 1 (steps + 1)))).
Proof.
  intros Hf. unfold optimize. apply calls_for_each_map.
  intros i s. now apply calls_debug_iteration.
Qed.

Lemma calls_debug_visualize_feature model layer feature start_image size steps
      lr weight_decay grad_clip frames show kw :
  (1 <= frames <= steps)%Z ->
  calls (visualize_feature L model layer feature start_image size steps lr
                           weight_decay grad_clip true frames show kw)
        (initial_buf_names start_image
         ++ ["requires_grad_"; "torch.optim.AdamW";
             "register_forward_hook"]%string
         ++ concat (map (fun i =>
                           iteration_names ++ frame_names steps frames kw i)
                        (py_range 1 (steps + 1)))
         ++ ["hook.remove"%string] ++ fft_to_rgb_names).
Proof.
  intros Hf. unfold visualize_feature.
  set (its := concat _).
  replace (initial_buf_names start_image
           ++ ["requires_grad_"; "torch.optim.AdamW";
               "register_forward_hook"]%string
           ++ its ++ ["hook.remove"%string] ++ fft_to_rgb_names)
    with ((initial_buf_names start_image
           ++ ["requires_grad_"%string] ++ ["torch.optim.AdamW"%string]
           ++ ["register_forward_hook"%string] ++ its ++ [])
          ++ ["hook.remove"%string] ++ fft_to_rgb_names ++ [])
    by (rewrite !app_nil_r; now rewrite <- !app_assoc).
  apply calls_bind.
  - unfold setup_and_optimize.
    apply (calls_bind L _ _ (initial_buf_names start_image) _);
      [apply calls_initial_buf|intros buf].
    apply (calls_bind L _ _ [_] _); [apply calls_requires_grad_|intros p].
    unfold optimize_leaf.
    apply (calls_bind L _ _ [_] _); [apply calls_AdamW|intros opt].
    apply (calls_bind L _ _ [_] _); [apply calls_lib|intros _].
    apply (calls_bind L _ _ its []);
      [now apply calls_debug_optimize|intros _].
    apply calls_mret.
  - intros p.
    apply (calls_bind L _ _ [_] _); [apply calls_lib|intros _].
    apply (calls_bind L _ _ [] _); [apply calls_read|intros buf].
    apply (calls_bind L _ _ fft_to_rgb_names []);
      [apply calls_image_buf_to_rgb|intros retval].
    destruct show; [|apply calls_mret].
    cbn [negb]. apply (calls_bind L _ _ [] []); [apply calls_mret|intros _].
    apply calls_mret.
Qed.

End DebugCalls.

Lemma count_occ_frames (steps frames : Z) (kw : kwargs) (x : string)
      (l : list Z) :
  count_occ string_dec
    (concat (map (fun i => iteration_names ++ frame_names steps frames kw i) l))
    x
  = (length l * count_occ string_dec iteration_names x
     + length (List.filter (fun i => (i mod (steps / frames) =? 0)%Z) l)
       * count_occ string_dec
           (["clear_output"%string] ++ fft_to_rgb_names
            ++ show_rgb_names (kw_ax kw)) x)%nat.
Proof.
  set (F := ["clear_output"%string] ++ fft_to_rgb_names
            ++ show_rgb_names (kw_ax kw)).
  induction l as [|i l IH]; [reflexivity|].
  cbn [map concat length List.filter]. rewrite !count_occ_app, IH.
  unfold frame_names at 1. fold F.
  destruct (i mod (steps / frames) =? 0)%Z; cbn [count_occ length];
    rewrite !Nat.mul_succ_l; lia.
Qed.

(** X16: the calls of a run with debug frames.  When
    [visualize_feature(..., debug=True)] with 1 <= frames <= steps
    returns, every iteration has made the 21 calls of a step, followed, in
    the iterations that [int(steps/frames)] divides, by [clear_output],
    the transform of the buffer and the calls of [show_rgb]; after the
    loop come [hook.remove()] and the final transform, and nothing is
    shown then, whatever [show] is.  So exactly steps // int(steps/frames)
    images are shown, all of them inside the loop. *)
Theorem debug_call_sequence (L : Framework) model layer feature
        (start_image : option T4) size (steps : Z) lr weight_decay grad_clip
        (frames : Z) (show : bool) (kw : kwargs) :
  (1 <= frames <= steps)%Z ->
  let names :=
    initial_buf_names start_image
    ++ ["requires_grad_"; "torch.optim.AdamW"; "register_forward_hook"]%string
    ++ concat (map (fun i => iteration_names ++ frame_names steps frames kw i)
                   (py_range 1 (steps + 1)))
    ++ ["hook.remove"%string] ++ fft_to_rgb_names in
  calls (visualize_feature L model layer feature start_image size steps lr
                           weight_decay grad_clip true frames show kw)
        names
  /\ count_occ string_dec names "ax.imshow"%string
     = Z.to_nat (steps / (steps / frames))
  /\ count_occ string_dec names "clear_output"%string
     = Z.to_nat (steps / (steps / frames))
  /\ count_occ string_dec names "model"%string = Z.to_nat steps.
Proof.
  intros Hf. cbv zeta. split; [now apply calls_debug_visualize_feature|].
  assert (1 <= steps / frames)%Z as He by (apply Z.div_le_lower_bound; lia).
  pose proof (count_multiples (steps / frames) (Z.to_nat steps)) as Hc.
  rewrite Z2Nat.id in Hc by lia. specialize (Hc ltac:(lia)).
  repeat split; rewrite !count_occ_app, count_occ_frames, Hc, length_py_range;
    destruct start_image; try destruct (kw_ax kw);
    cbn [initial_buf_names show_rgb_names];
    repeat match goal with
           | |- context [count_occ string_dec ?l ?x] =>
               let v := eval vm_compute in (count_occ string_dec l x) in
               change (count_occ string_dec l x) with v
           end; lia.
Qed.

Lemma debug_call_sequence_witness :
  count_occ string_dec
    (initial_buf_names None
     ++ ["requires_grad_"; "torch.optim.AdamW"; "register_forward_hook"]%string
     ++ concat (map (fun i => iteration_names ++ frame_names 10 4 StandIn.kw0 i)
                    (py_range 1 (10 + 1)))
     ++ ["hook.remove"%string] ++ fft_to_rgb_names)
    "ax.imshow"%string
  = Z.to_nat (10 / (10 / 4)).
Proof.
  apply (debug_call_sequence StandIn.lib 1%positive 1%positive (Some 0%Z) None
           2 10 0.004 0.1 1 4 true StandIn.kw0).
  lia.
Defined.

(** *** A run with a debug frame *)

Module StandInDebug.
Import StandInStep.

Lemma show_rgb_runs img label (w : World StandIn.lib) :
  exists w', show_rgb StandIn.lib img label None 25 w = (Ok tt, w')
             /\ values StandIn.lib w' = values StandIn.lib w.
Proof.
  unfold show_rgb. destruct (Req_dec_T 25 0) as [E|_]; [lra|].
  eexists. split; reflexivity.
Qed.

Lemma image_buf_to_rgb_runs (w : World StandIn.lib) :
  exists img w', image_buf_to_rgb StandIn.lib buf0 StandIn.kw0 w = (Ok img, w')
                 /\ values StandIn.lib w' = values StandIn.lib w.
Proof.
  destruct (image_buf_to_rgb_shape StandIn.lib 2 buf0 StandIn.kw0 w
              StandInFacts.irfft_ok) as (img & E & _);
    [lia|apply (StandInFacts.shape5_constant5 1 3 2 2 2)|].
  pose proof (sat_image_buf_to_rgb StandIn.lib same_values (fun _ => True)
                (fun _ => eq_refl) (same_values_seq StandIn.lib)
                (fun _ _ _ _ => eq_refl) (fun _ _ _ => I)
                buf0 StandIn.kw0 w) as Hsame.
  unfold wp in Hsame.
  destruct (image_buf_to_rgb StandIn.lib buf0 StandIn.kw0 w) as [r w'].
  cbn [fst snd] in *. subst r. exists img, w'. split; [reflexivity|].
  apply Hsame.
Qed.

(** An iteration with [debug=True] returns as well, with or without a
    frame. *)
Lemma debug_iteration_runs steps grad_clip frames i opt ho
      (w : World StandIn.lib) :
  (1 <= frames <= steps)%Z ->
  values StandIn.lib w !! 1%positive = Some (of_T5 buf0) ->
  opt_params StandIn.lib opt = [1%positive] ->
  exists st w',
    iteration StandIn.lib 1%positive 1%positive (Some 0%Z) steps grad_clip
              true frames StandIn.kw0 1%positive i (opt, ho) w = (Ok st, w')
    /\ values StandIn.lib w' !! 1%positive = Some (of_T5 buf0)
    /\ opt_params StandIn.lib (fst st) = [1%positive].
Proof.
  intros Hf Hv Hp. unfold iteration.
  rewrite mbind_run.
  destruct (zero_grad_runs opt w) as (w1 & -> & V1). rewrite <- V1 in Hv.
  clear V1. rewrite mbind_run. unfold get_world at 1. cbv beta iota.
  rewrite mbind_run.
  destruct (forward_loss_runs ho w1 Hv) as ([[loss stats] ho'] & w2 & E & V2).
  rewrite E. cbv beta iota. rewrite <- V2 in Hv. clear V2 E.
  rewrite mbind_run.
  match goal with
  | |- context [backward StandIn.lib ?l ?f w2] =>
      destruct (backward_runs l f w2) as (w3 & -> & V3)
  end.
  rewrite <- V3 in Hv. clear V3.
  rewrite mbind_run.
  destruct (clip_grad_norm_runs 1%positive grad_clip w3) as (w4 & -> & V4).
  rewrite <- V4 in Hv. clear V4.
  rewrite mbind_run.
  destruct (opt_step_runs opt _ w4 Hp Hv) as (opt' & w5 & -> & Hp' & V5).
  rewrite mbind_run, (frame_due_runs StandIn.lib steps frames i w5 Hf).
  destruct (i mod (steps / frames) =? 0)%Z.
  - rewrite !mbind_run. unfold lib at 1. cbn [display StandIn.lib].
    cbv beta iota. rewrite !mbind_run.
    rewrite (read_written StandIn.lib 1%positive buf0) by exact V5.
    rewrite mbind_run.
    match goal with
    | |- context [image_buf_to_rgb StandIn.lib buf0 StandIn.kw0 ?w6] =>
        destruct (image_buf_to_rgb_runs w6) as (img & w7 & -> & V7)
    end.
    cbn [kw_label StandIn.kw0 kw_ax]. unfold dpi_of.
    cbn [kw_dpi StandIn.kw0 default].
    match goal with
    | |- context [show_rgb StandIn.lib img ?l None 25 w7] =>
        destruct (show_rgb_runs img l w7) as (w8 & -> & V8)
    end.
    unfold mret, M_ret, ret. cbv beta iota.
    eexists. eexists. split; [reflexivity|]. split; [|assumption].
    rewrite V8, V7. exact V5.
  - rewrite !mbind_run. unfold ret at 1. cbv beta iota.
    unfold mret, M_ret, ret. cbv beta iota.
    eexists. eexists. split; [reflexivity|]. split; assumption.
Qed.

(** Two steps with one debug frame: the run returns None, and with
    [show=False] the image. *)
Lemma debug_run_returns :
  exists img,
    fst (visualize_feature StandIn.lib 1%positive 1%positive (Some 0%Z) None
                           2 2 0.004 0.1 1 true 1 false StandIn.kw0
                           StandIn.world0)
    = Ok (Some img).
Proof.
  unfold visualize_feature, setup_and_optimize, initial_buf.
  rewrite !mbind_run.
  assert (init_fft_buf StandIn.lib 2 StandIn.kw0 StandIn.world0
          = (Ok buf0,
             log StandIn.lib (c_np_random_normal [1; 3; 2; 2; 2]%Z 0.01) None
                 (set_np_rng StandIn.lib 1%nat StandIn.world0))) as ->
    by reflexivity.
  rewrite !mbind_run. unfold requires_grad_ at 1.
  cbn [values log set_np_rng StandIn.world0 set_values set_req_grad req_grad].
  replace (fresh (dom (∅ : gmap positive tensor))) with 1%positive
    by (vm_compute; reflexivity).
  unfold optimize_leaf. rewrite !mbind_run.
  unfold AdamW at 1. cbn [optim_AdamW StandIn.lib]. unfold lib at 1.
  cbv beta iota. rewrite !mbind_run. unfold lib at 1. cbv beta iota.
  rewrite !mbind_run. unfold optimize.
  change (py_range 1 (2 + 1)) with [1%Z; 2%Z]. cbn [for_each].
  rewrite !mbind_run.
  match goal with
  | |- context [iteration StandIn.lib _ _ _ ?s ?g _ ?f _ _ 1 (?opt, ?ho) ?w] =>
      destruct (debug_iteration_runs s g f 1 opt ho w)
        as ([opt1 ho1] & w1 & -> & V1 & P1);
      [lia|apply lookup_insert_eq|reflexivity|]
  end.
  cbn [fst] in P1. rewrite !mbind_run.
  destruct (debug_iteration_runs 2 1 1 2 opt1 ho1 w1)
    as (st & w2 & -> & V2 & _); [lia|assumption..|].
  unfold ret at 1. cbv beta iota. unfold mret, M_ret, ret at 1.
  cbv beta iota. unfold lib at 1. cbv beta iota. rewrite !mbind_run.
  rewrite (read_written StandIn.lib 1%positive buf0) by exact V2.
  rewrite mbind_run.
  match goal with
  | |- context [image_buf_to_rgb StandIn.lib buf0 StandIn.kw0 ?w] =>
      destruct (image_buf_to_rgb_runs w) as (img & w3 & -> & _)
  end.
  now exists img.
Qed.

End StandInDebug.

(** ** The hook after a failure *)

Section Hook.
Context (L : Framework).

Lemma keeps_hook_ret {A} (a : A) : keeps_hook (ret L a).
Proof. intros w. exists []. split; [now rewrite app_nil_r|constructor]. Qed.

Lemma keeps_hook_mret {A} (a : A) : keeps_hook (mret a : M L A).
Proof. apply keeps_hook_ret. Qed.

Lemma keeps_hook_bind {A B} (m : M L A) (k : A -> M L B) :
  keeps_hook m -> (forall a, keeps_hook (k a)) -> keeps_hook (m ≫= k).
Proof.
  intros Hm Hk w. rewrite mbind_run. specialize (Hm w).
  destruct (m w) as [[a|e] w1]; cbn [snd] in *; [|exact Hm].
  destruct Hm as (evs1 & E1 & F1). destruct (Hk a w1) as (evs2 & E2 & F2).
  exists (evs1 ++ evs2). split; [now rewrite E2, E1, app_assoc|].
  apply Forall_app. now split.
Qed.

Lemma keeps_hook_event {A} (f : World L -> result A * World L) :
  (forall w, exists c e, is_hook_remove c = false
                         /\ trace L (snd (f w)) = trace L w ++ [(c, e)]) ->
  keeps_hook f.
Proof.
  intros H w. destruct (H w) as (c & e & Hc & E). exists [(c, e)].
  split; [exact E|]. constructor; [exact Hc|constructor].
Qed.

Lemma keeps_hook_lib {A} c (r : result A) :
  is_hook_remove c = false -> keeps_hook (lib L c r).
Proof.
  intros Hc. apply keeps_hook_event. intros w. now exists c, (exn_of r).
Qed.

Lemma keeps_hook_raise {A} e : keeps_hook (raise L e : M L A).
Proof. now apply keeps_hook_lib. Qed.

Lemma keeps_hook_py {A} (r : result A) : keeps_hook (py L r).
Proof. destruct r; [apply keeps_hook_ret|apply keeps_hook_raise]. Qed.

Lemma keeps_hook_np_rand : keeps_hook (np_rand L).
Proof.
  apply keeps_hook_event. intros w. unfold np_rand.
  destruct (np_random_rand L _) as [u s]. now exists c_np_random_rand, None.
Qed.

Lemma keeps_hook_for_each {A S} (l : list A) (body : A -> S -> M L S) s :
  (forall a s, keeps_hook (body a s)) -> keeps_hook (for_each L l body s).
Proof.
  intros Hbody. revert s. induction l as [|a l IH]; intros s.
  - apply keeps_hook_ret.
  - cbn [for_each]. apply keeps_hook_bind; [apply Hbody|apply IH].
Qed.

Ltac keeps_hook :=
  repeat first
    [ apply keeps_hook_mret
    | apply keeps_hook_ret
    | apply keeps_hook_raise
    | apply keeps_hook_py
    | apply keeps_hook_np_rand
    | apply keeps_hook_lib; reflexivity
    | apply keeps_hook_bind; [|intros ?] ].

Lemma keeps_hook_init_fft_buf size kw : keeps_hook (init_fft_buf L size kw).
Proof.
  apply keeps_hook_event. intros w. unfold init_fft_buf. cbv zeta.
  destruct (np_random_normal L _ _ _) as [r s].
  now exists (c_np_random_normal [1; 3; size; size / 2 + 1; 2]%Z (rand_sd kw)),
             (exn_of r).
Qed.

Lemma keeps_hook_get_fft_scale size kw : keeps_hook (get_fft_scale L size kw).
Proof. unfold get_fft_scale, fftfreq. keeps_hook. Qed.

Lemma keeps_hook_fft_to_rgb t kw : keeps_hook (fft_to_rgb L t kw).
Proof.
  unfold fft_to_rgb. apply keeps_hook_bind; [apply keeps_hook_get_fft_scale|].
  intros scale. keeps_hook.
Qed.

Lemma keeps_hook_rgb_to_fft t kw : keeps_hook (rgb_to_fft L t kw).
Proof.
  unfold rgb_to_fft. apply keeps_hook_bind; [keeps_hook|intros f].
  apply keeps_hook_bind; [apply keeps_hook_get_fft_scale|intros scale].
  unfold tensor_div. destruct (true_divide f scale); keeps_hook.
Qed.

Lemma keeps_hook_image_buf_to_rgb buf kw :
  keeps_hook (image_buf_to_rgb L buf kw).
Proof.
  unfold image_buf_to_rgb.
  apply keeps_hook_bind; [apply keeps_hook_fft_to_rgb|intros img].
  destruct (map4 _ _); keeps_hook.
Qed.

Lemma keeps_hook_show_rgb img label ax dpi :
  keeps_hook (show_rgb L img label ax dpi).
Proof.
  unfold show_rgb. apply keeps_hook_bind.
  - destruct ax; [keeps_hook|]. destruct (Req_dec_T dpi 0); keeps_hook.
  - intros a. keeps_hook. destruct ax; keeps_hook.
Qed.

Lemma keeps_hook_lucid_transforms img kw :
  keeps_hook (lucid_transforms L img kw).
Proof. unfold lucid_transforms. keeps_hook. Qed.

Lemma keeps_hook_forward_loss model layer feature kw p ho :
  keeps_hook (forward_loss L model layer feature kw p ho).
Proof.
  unfold forward_loss.
  apply keeps_hook_bind; [intros w; apply (keeps_hook_ret (to_T5 _) w)|].
  intros buf.
  apply keeps_hook_bind; [apply keeps_hook_fft_to_rgb|intros img].
  apply keeps_hook_bind; [apply keeps_hook_lucid_transforms|intros img'].
  apply keeps_hook_bind.
  { apply keeps_hook_event. intros w. unfold model_call.
    destruct (model_forward L model _ _ _ img') as [[r b] s].
    exists (c_model model), (exn_of r). split; [reflexivity|].
    now destruct r. }
  intros ho'. apply keeps_hook_bind; [|intros loss; keeps_hook].
  unfold compute_loss, subscript. destruct feature, ho'; keeps_hook.
Qed.

Lemma keeps_hook_iteration model layer feature steps grad_clip debug frames
      kw p i st :
  keeps_hook (iteration L model layer feature steps grad_clip debug frames kw
                        p i st).
Proof.
  unfold iteration. destruct st as [opt ho].
  apply keeps_hook_bind.
  { apply keeps_hook_event. intros w. now exists c_zero_grad, None. }
  intros _. apply keeps_hook_bind; [intros w; apply (keeps_hook_ret w w)|].
  intros w0.
  apply keeps_hook_bind; [apply keeps_hook_forward_loss|].
  intros [[loss stats] ho'].
  apply keeps_hook_bind.
  { apply keeps_hook_event. intros w. unfold backward.
    destruct (autograd L _ _ _) as [g|e].
    - now exists (c_backward loss), None.
    - now exists (c_backward loss), (Some e). }
  intros _. apply keeps_hook_bind.
  { apply keeps_hook_event. intros w. exists (c_clip_grad_norm p), None.
    split; [reflexivity|]. unfold clip_grad_norm_. cbn [snd].
    now destruct (grads L w !! p). }
  intros _. apply keeps_hook_bind.
  { apply keeps_hook_event. intros w. exists c_opt_step, None.
    split; [reflexivity|]. unfold opt_step. cbv zeta.
    now destruct (fold_left _ _ _). }
  intros opt'. apply keeps_hook_bind.
  { unfold frame_due. destruct debug; [|keeps_hook].
    destruct (frames =? 0)%Z; [keeps_hook|].
    destruct (_ =? 0)%Z; keeps_hook. }
  intros due. apply keeps_hook_bind; [|intros _; keeps_hook].
  destruct due; [|keeps_hook].
  apply keeps_hook_bind; [keeps_hook|intros _].
  apply keeps_hook_bind; [intros w; apply (keeps_hook_ret (to_T5 _) w)|].
  intros buf.
  apply keeps_hook_bind; [apply keeps_hook_image_buf_to_rgb|intros img].
  destruct (kw_label kw); [keeps_hook|apply keeps_hook_show_rgb].
Qed.

Lemma keeps_hook_initial_buf start_image size kw :
  keeps_hook (initial_buf L start_image size kw).
Proof.
  unfold initial_buf. destruct start_image; [|apply keeps_hook_init_fft_buf].
  apply keeps_hook_bind; [keeps_hook|intros im].
  apply keeps_hook_bind; [keeps_hook|intros flow].
  apply keeps_hook_bind; [keeps_hook|intros data].
  apply keeps_hook_bind; [|intros t; apply keeps_hook_rgb_to_fft].
  unfold rgb_to_lucid_colorspace. keeps_hook.
Qed.

Lemma keeps_hook_setup_and_optimize model layer feature start_image size steps
      lr weight_decay grad_clip debug frames kw n :
  keeps_hook (setup_and_optimize L model layer feature start_image size steps
                                 lr weight_decay grad_clip debug frames kw n).
Proof.
  unfold setup_and_optimize.
  apply keeps_hook_bind; [apply keeps_hook_initial_buf|intros buf].
  apply keeps_hook_bind.
  { apply keeps_hook_event. intros w.
    now exists (c_requires_grad (fresh (dom (values L w)))), None. }
  intros p. unfold optimize_leaf, AdamW.
  apply keeps_hook_bind; [keeps_hook|intros opt].
  apply keeps_hook_bind; [keeps_hook|intros _].
  apply keeps_hook_bind; [|intros _; keeps_hook].
  unfold optimize. apply keeps_hook_for_each. intros i s.
  apply keeps_hook_iteration.
Qed.

(** X17: [hook.remove()] runs only when the loop has finished.  Up to the
    end of the loop the script never calls it; if the set-up or the loop
    raises, [visualize_feature] raises the same exception and stops
    there, so a hook that was registered stays registered on the layer;
    and if the loop finishes, [hook.remove()] is the very next call and
    is not called again. *)
Theorem hook_left_registered model layer feature start_image size steps lr
        weight_decay grad_clip debug frames show kw (w : World L) :
  let loop := setup_and_optimize L model layer feature start_image size steps
                                 lr weight_decay grad_clip debug frames kw
                                 steps w in
  let run := visualize_feature L model layer feature start_image size steps
                               lr weight_decay grad_clip debug frames show kw
                               w in
  (exists evs, trace L (snd loop) = trace L w ++ evs
               /\ Forall (fun ev => is_hook_remove (fst ev) = false) evs)
  /\ (forall p, fst loop = Ok p ->
        exists evs,
          trace L (snd run)
          = trace L (snd loop) ++ (c_hook_remove layer, None) :: evs
          /\ Forall (fun ev => is_hook_remove (fst ev) = false) evs)
  /\ (forall e, fst loop = Raise e -> run = (Raise e, snd loop)).
Proof.
  cbv zeta. split; [apply keeps_hook_setup_and_optimize|].
  unfold visualize_feature. rewrite mbind_run.
  destruct (setup_and_optimize L _ _ _ _ _ _ _ _ _ _ _ _ _ w)
    as [[p|e] w1]; cbn [fst snd].
  - split; [|discriminate]. intros p' _.
    rewrite mbind_run. unfold lib at 1. cbv beta iota.
    match goal with
    | |- context [?rest (log L (c_hook_remove layer) ?o w1)] =>
        assert (keeps_hook rest) as Hrest
    end.
    { apply keeps_hook_bind;
        [intros w'; apply (keeps_hook_ret (to_T5 _) w')|intros buf].
      apply keeps_hook_bind; [apply keeps_hook_image_buf_to_rgb|intros img].
      destruct show; [|keeps_hook].
      apply keeps_hook_bind; [|intros _; keeps_hook].
      destruct (negb debug); [apply keeps_hook_show_rgb|keeps_hook]. }
    destruct (Hrest (log L (c_hook_remove layer) (exn_of (Ok tt)) w1))
      as (evs & E & F).
    exists evs. split; [|exact F]. rewrite E. cbn [trace log exn_of].
    now rewrite <- app_assoc.
  - split; [discriminate|]. now intros e' [= <-].
Qed.

End Hook.
